(** * Social-network graph analyzer: the graph algorithms engine

    A shallow embedding of the class [GraphAlgorithms] (file
    [graphAlgorithms.ts]) and the verification of its specification,
    followed by the data store [GraphDataManager] ([graphData.ts]), the
    analytics of the page ([Index.tsx]) and the drawing callbacks of
    [GraphVisualization.tsx], with what they guarantee together with the
    engine.

    Conventions of the embedding:
    - a node id is a JavaScript string, modelled as [string];
    - a JavaScript [Set<string>] iterates in insertion order: it is a
      duplicate-free [list string] that grows at its end ([set_add]); a set
      that is only tested for membership ([visited]) is a [gset string];
    - a JavaScript [Map] that is only read with [get] and written with [set]
      is a [gmap]; the one map that is iterated ([groups]) is an association
      list in insertion order;
    - the value [undefined] is [None]: [Map.get] on a missing key, and the
      keys and values that the union-find maps hold when an edge names an
      absent node;
    - a method call completes normally with a value, or throws; loops get
      fuel, and a loop that runs out of fuel yields [NoFuel]: the theorems
      show that the search and the traversal never do, and the disjoint-set
      method does not when every edge joins two listed ids. *)

From stdpp Require Import gmap strings list fin_maps sorting pretty.

(* The solvers of stdpp clear hypotheses by name, which Rocq reports. *)
#[local] Set Warnings "-clear-no-such-hyp".

Open Scope string_scope.
Open Scope list_scope.
Open Scope nat_scope.

(** ** Completions *)

(** The error kinds of the specification.  The source defines no error
    class and contains no [throw]: the names exist here to state what the
    methods do not do. *)
Inductive EngineError := UnknownNode | InvalidEdge | DuplicateEdge.

Inductive completion (A : Type) : Type :=
| Normal (v : A)
| Throw (e : EngineError)
| NoFuel.
Arguments Normal {A} v.
Arguments Throw {A} e.
Arguments NoFuel {A}.

Definition cbind {A B} (m : completion A) (k : A → completion B) : completion B :=
  match m with
  | Normal v => k v
  | Throw e => Throw e
  | NoFuel => NoFuel
  end.

Notation "'do' x <- m ; k" := (cbind m (λ x, k))
  (at level 10, x pattern, m at level 100, k at level 200).

(** ** Data model ([types/graph.ts]) *)

Module User.
Record t := mk { id : string; name : string }.
End User.

Module Friendship.
Record t := mk { source : string; target : string }.
End Friendship.

Module PathResult.
(** [distance] is [path.length - 1], which is [-1] on an empty path. *)
Record t := mk { path : list string; distance : Z }.
End PathResult.

Module Community.
Record t := mk { id : nat; users : list string; color : string }.
End Community.

Module Suggestion.
Record t := mk { userId : string; mutualCount : nat; mutualFriends : list string }.
End Suggestion.

Definition ids (users : list User.t) : list string := User.id <$> users.

(** ** JavaScript values *)

(** [Set.prototype.add]: appends unless already a member. *)
Definition set_add (x : string) (s : list string) : list string :=
  if decide (x ∈ s) then s else s ++ [x].

(** Truthiness of a string: only the empty string is falsy. *)
Definition truthy (s : string) : bool := negb (String.eqb s EmptyString).

(** ** The engine *)

Record GraphAlgorithms := mkEngine {
  users : list User.t;
  friendships : list Friendship.t;
  adjacencyList : gmap string (list string)
}.

(** [adj.get(a)?.add(b)] *)
Definition add_neighbor (a b : string) (adj : gmap string (list string))
  : gmap string (list string) :=
  match adj !! a with
  | Some s => <[a := set_add b s]> adj
  | None => adj
  end.

Definition add_friendship (adj : gmap string (list string)) (f : Friendship.t)
  : gmap string (list string) :=
  add_neighbor (Friendship.target f) (Friendship.source f)
    (add_neighbor (Friendship.source f) (Friendship.target f) adj).

Definition init_adjacency (us : list User.t) : gmap string (list string) :=
  foldl (λ adj user, <[User.id user := []]> adj) ∅ us.

Definition buildAdjacencyList (us : list User.t) (fs : list Friendship.t)
  : gmap string (list string) :=
  foldl add_friendship (init_adjacency us) fs.

(** The object that the constructor body builds. *)
Definition engine (us : list User.t) (fs : list Friendship.t) : GraphAlgorithms :=
  {| users := us; friendships := fs; adjacencyList := buildAdjacencyList us fs |}.

(** [new GraphAlgorithms(users, friendships)]: no check, no failure. *)
Definition constructor (us : list User.t) (fs : list Friendship.t)
  : completion GraphAlgorithms :=
  Normal (engine us fs).

(** [this.adjacencyList.get(x) || new Set()] *)
Definition neighbors (g : GraphAlgorithms) (x : string) : list string :=
  default [] (adjacencyList g !! x).

(** ** findShortestPath (breadth-first search) *)

Record bfs_state := mkBfs {
  queue : list string;
  visited : gset string;
  parent : gmap string string
}.

(** [let node = endId; while (node) { path.unshift(node); node = parent.get(node)!; }]
    The loop test is JavaScript truthiness: it stops on [undefined] and on
    the empty string. *)
Fixpoint reconstruct (fuel : nat) (par : gmap string string)
    (node : option string) (path : list string) : completion (list string) :=
  match node with
  | None => Normal path
  | Some n =>
    if truthy n then
      match fuel with
      | 0 => NoFuel
      | S fuel' => reconstruct fuel' par (par !! n) (n :: path)
      end
    else Normal path
  end.

Definition path_result (par : gmap string string) (endId : string)
  : completion PathResult.t :=
  do path <- reconstruct (S (size par)) par (Some endId) [];
  Normal (PathResult.mk path (Z.of_nat (length path) - 1)).

Definition discover (current neighbor : string) (st : bfs_state) : bfs_state :=
  {| queue := queue st ++ [neighbor];
     visited := {[neighbor]} ∪ visited st;
     parent := <[neighbor := current]> (parent st) |}.

(** The [for (const neighbor of neighbors)] loop of one dequeued node:
    [inl r] when the loop returns [r] from the method, [inr st] when it
    runs to its end. *)
Fixpoint scan_neighbors (endId current : string) (ns : list string)
    (st : bfs_state) : completion (PathResult.t + bfs_state) :=
  match ns with
  | [] => Normal (inr st)
  | neighbor :: rest =>
    if decide (neighbor ∈ visited st) then scan_neighbors endId current rest st
    else
      let st' := discover current neighbor st in
      if decide (neighbor = endId) then
        do r <- path_result (parent st') endId; Normal (inl r)
      else scan_neighbors endId current rest st'
  end.

(** The [while (queue.length > 0)] loop; [None] is [null]. *)
Fixpoint bfs_loop (fuel : nat) (g : GraphAlgorithms) (endId : string)
    (st : bfs_state) : completion (option PathResult.t) :=
  match fuel with
  | 0 => NoFuel
  | S fuel' =>
    match queue st with
    | [] => Normal None
    | current :: rest =>
      do step <- scan_neighbors endId current (neighbors g current)
                   (mkBfs rest (visited st) (parent st));
      match step with
      | inl r => Normal (Some r)
      | inr st' => bfs_loop fuel' g endId st'
      end
    end
  end.

(** Every id that can enter the queue: the ids stored in neighbor sets. *)
Definition mentioned (g : GraphAlgorithms) : gset string :=
  list_to_set (Friendship.source <$> friendships g)
  ∪ list_to_set (Friendship.target <$> friendships g).

Definition bfs_fuel (g : GraphAlgorithms) : nat := S (S (size (mentioned g))).

Definition findShortestPath (g : GraphAlgorithms) (startId endId : string)
  : completion (option PathResult.t) :=
  if decide (startId = endId) then
    Normal (Some (PathResult.mk [startId] 0))
  else
    bfs_loop (bfs_fuel g) g endId (mkBfs [startId] {[startId]} ∅).

(** ** findCommunities (depth-first search) *)

(** [for (const neighbor of neighbors) if (!visited.has(neighbor)) stack.push(neighbor)].
    The array [stack] is only pushed and popped: the list holds it top first. *)
Definition push_unvisited (ns : list string) (vis : gset string)
    (stack : list string) : list string :=
  foldl (λ stk neighbor, if decide (neighbor ∈ vis) then stk else neighbor :: stk)
        stack ns.

(** The [while (stack.length > 0)] loop of [dfsVisit]; it returns the
    community together with the updated [visited] set, which the caller
    shares. *)
Fixpoint dfs_loop (fuel : nat) (g : GraphAlgorithms) (stack : list string)
    (vis : gset string) (community : list string)
  : completion (list string * gset string) :=
  match fuel with
  | 0 => NoFuel
  | S fuel' =>
    match stack with
    | [] => Normal (community, vis)
    | current :: stack' =>
      if decide (current ∈ vis) then dfs_loop fuel' g stack' vis community
      else
        let vis' := {[current]} ∪ vis in
        dfs_loop fuel' g (push_unvisited (neighbors g current) vis' stack')
                 vis' (community ++ [current])
    end
  end.

(** Number of stored neighbor entries of the nodes outside [vis]: a bound
    on the pushes still to come. *)
Definition entry_weight (vis : gset string) (kv : string * list string) : nat :=
  if decide (kv.1 ∈ vis) then 0 else length kv.2.

Definition pending_entries (g : GraphAlgorithms) (vis : gset string) : nat :=
  sum_list (entry_weight vis <$> map_to_list (adjacencyList g)).

Definition dfs_fuel (g : GraphAlgorithms) : nat := S (S (pending_entries g ∅)).

Definition dfsVisit (g : GraphAlgorithms) (userId : string) (vis : gset string)
  : completion (list string * gset string) :=
  dfs_loop (dfs_fuel g) g [userId] vis [].

Definition colors : list string :=
  ["#FF6B6B"; "#4ECDC4"; "#45B7D1"; "#96CEB4"; "#FFEAA7"; "#DDA0DD"; "#98D8C8"; "#F7DC6F"].

(** [colors[communityId % colors.length]]; the index is always in range. *)
Definition color_of (communityId : nat) : string :=
  default EmptyString (colors !! (communityId mod length colors)).

Fixpoint communities_loop (g : GraphAlgorithms) (us : list User.t)
    (vis : gset string) (communities : list Community.t) (communityId : nat)
  : completion (list Community.t) :=
  match us with
  | [] => Normal communities
  | user :: rest =>
    if decide (User.id user ∈ vis) then
      communities_loop g rest vis communities communityId
    else
      do r <- dfsVisit g (User.id user) vis;
      let '(community, vis') := r in
      if (0 <? length community)%nat then
        communities_loop g rest vis'
          (communities ++ [Community.mk communityId community (color_of communityId)])
          (S communityId)
      else communities_loop g rest vis' communities communityId
  end.

Definition findCommunities (g : GraphAlgorithms) : completion (list Community.t) :=
  communities_loop g (users g) ∅ [] 0.

(** ** findCommunitiesUnionFind *)

(** A value read from the [rank] map: a number or, after [undefined + 1],
    [NaN]. *)
Inductive rankv := RNum (n : nat) | RNaN.

(** At run time the keys and values of [parent] and the keys of [rank] are
    strings or [undefined] ([None]). *)
Record uf_state := mkUf {
  uf_parent : gmap (option string) (option string);
  uf_rank : gmap (option string) rankv
}.

(** [parent.get(x)]: [undefined] for a missing key. *)
Definition pget (par : gmap (option string) (option string)) (x : option string)
  : option string :=
  default None (par !! x).

(** The closure [find], with path compression; it returns the root and the
    updated [parent] map. *)
Fixpoint find (fuel : nat) (par : gmap (option string) (option string))
    (x : option string)
  : completion (option string * gmap (option string) (option string)) :=
  match fuel with
  | 0 => NoFuel
  | S fuel' =>
    if decide (pget par x = x) then Normal (pget par x, par)
    else
      do r <- find fuel' par (pget par x);
      let par' := <[x := r.1]> r.2 in
      Normal (pget par' x, par')
  end.

(** [a < b] on values read from [rank]: false as soon as one side is
    [undefined] or [NaN]. *)
Definition rank_lt (a b : option rankv) : bool :=
  match a, b with
  | Some (RNum n), Some (RNum m) => (n <? m)%nat
  | _, _ => false
  end.

(** [a + 1] *)
Definition rank_succ (a : option rankv) : rankv :=
  match a with
  | Some (RNum n) => RNum (S n)
  | _ => RNaN
  end.

(** The closure [union]. *)
Definition union (fuel : nat) (x y : option string) (st : uf_state)
  : completion uf_state :=
  do rx <- find fuel (uf_parent st) x;
  do ry <- find fuel rx.2 y;
  let rootX := rx.1 in
  let rootY := ry.1 in
  let par := ry.2 in
  if decide (rootX = rootY) then Normal (mkUf par (uf_rank st))
  else
    let rankX := uf_rank st !! rootX in
    let rankY := uf_rank st !! rootY in
    if rank_lt rankX rankY then
      Normal (mkUf (<[rootX := rootY]> par) (uf_rank st))
    else if rank_lt rankY rankX then
      Normal (mkUf (<[rootY := rootX]> par) (uf_rank st))
    else
      Normal (mkUf (<[rootY := rootX]> par) (<[rootX := rank_succ rankX]> (uf_rank st))).

Definition uf_init (us : list User.t) : uf_state :=
  foldl (λ st user,
           mkUf (<[Some (User.id user) := Some (User.id user)]> (uf_parent st))
                (<[Some (User.id user) := RNum 0]> (uf_rank st)))
        (mkUf ∅ ∅) us.

Fixpoint union_all (fuel : nat) (fs : list Friendship.t) (st : uf_state)
  : completion uf_state :=
  match fs with
  | [] => Normal st
  | f :: rest =>
    do st' <- union fuel (Some (Friendship.source f)) (Some (Friendship.target f)) st;
    union_all fuel rest st'
  end.

(** [if (!groups.has(root)) groups.set(root, []); groups.get(root).push(id)]
    on a map kept in insertion order. *)
Fixpoint group_push (root : option string) (uid : string)
    (groups : list (option string * list string))
  : list (option string * list string) :=
  match groups with
  | [] => [(root, [uid])]
  | (k, members) :: rest =>
    if decide (k = root) then (k, members ++ [uid]) :: rest
    else (k, members) :: group_push root uid rest
  end.

Fixpoint group_all (fuel : nat) (us : list User.t)
    (par : gmap (option string) (option string))
    (groups : list (option string * list string))
  : completion (list (option string * list string)) :=
  match us with
  | [] => Normal groups
  | user :: rest =>
    do r <- find fuel par (Some (User.id user));
    group_all fuel rest r.2 (group_push r.1 (User.id user) groups)
  end.

Definition uf_fuel (g : GraphAlgorithms) : nat := S (S (S (length (friendships g)))).

Definition findCommunitiesUnionFind (g : GraphAlgorithms)
  : completion (list Community.t) :=
  do st <- union_all (uf_fuel g) (friendships g) (uf_init (users g));
  do groups <- group_all (uf_fuel g) (users g) (uf_parent st) [];
  Normal (imap (λ communityId kv, Community.mk communityId kv.2 (color_of communityId))
               groups).

(** ** findMutualFriends *)

(** [Array.prototype.sort] is stable: the result is the one sorted
    arrangement that keeps the order of elements comparing equal, here
    produced by insertion from the right. *)
Fixpoint sort_insert {A} (cmp : A → A → Z) (x : A) (l : list A) : list A :=
  match l with
  | [] => [x]
  | y :: l' => if (0 <? cmp x y)%Z then y :: sort_insert cmp x l' else x :: l
  end.

Definition js_sort {A} (cmp : A → A → Z) (l : list A) : list A :=
  foldr (sort_insert cmp) [] l.

(** [(a, b) => b.mutualCount - a.mutualCount] *)
Definition by_count_desc (a b : Suggestion.t) : Z :=
  (Z.of_nat (Suggestion.mutualCount b) - Z.of_nat (Suggestion.mutualCount a))%Z.

(** One round of the [for (const user of this.users)] loop. *)
Definition suggest_step (g : GraphAlgorithms) (userId : string)
    (suggestions : list Suggestion.t) (user : User.t) : list Suggestion.t :=
  let userFriends := neighbors g userId in
  if decide (User.id user = userId ∨ User.id user ∈ userFriends) then suggestions
  else
    let otherFriends := neighbors g (User.id user) in
    let mutualFriends := filter (λ friend, friend ∈ otherFriends) userFriends in
    if (0 <? length mutualFriends)%nat then
      suggestions ++ [Suggestion.mk (User.id user) (length mutualFriends) mutualFriends]
    else suggestions.

Definition findMutualFriends (g : GraphAlgorithms) (userId : string)
  : completion (list Suggestion.t) :=
  Normal (js_sort by_count_desc (foldl (suggest_step g userId) [] (users g))).

(** * Specification vocabulary *)

(** ** Graphs *)

(** [linked fs x y]: the edge list holds the unordered pair of [x] and [y]. *)
Definition linked (fs : list Friendship.t) (x y : string) : Prop :=
  ∃ f, f ∈ fs ∧ ((Friendship.source f = x ∧ Friendship.target f = y)
                 ∨ (Friendship.source f = y ∧ Friendship.target f = x)).

(** Every edge joins two ids of the node list. *)
Definition edges_present (us : list User.t) (fs : list Friendship.t) : Prop :=
  Forall (λ f, Friendship.source f ∈ ids us ∧ Friendship.target f ∈ ids us) fs.

Global Instance edges_present_dec us fs : Decision (edges_present us fs).
Proof. unfold edges_present. apply _. Defined.

(** A valid graph: distinct node ids, every edge between two distinct
    present nodes. *)
Definition valid_graph (us : list User.t) (fs : list Friendship.t) : Prop :=
  NoDup (ids us)
  ∧ Forall (λ f, Friendship.source f ∈ ids us ∧ Friendship.target f ∈ ids us
                 ∧ Friendship.source f ≠ Friendship.target f) fs.

Global Instance valid_graph_dec us fs : Decision (valid_graph us fs).
Proof. unfold valid_graph. apply _. Defined.

(** Consecutive elements of [p] are related by [R]. *)
Fixpoint chain (R : string → string → Prop) (p : list string) : Prop :=
  match p with
  | x :: (y :: _) as p' => R x y ∧ chain R p'
  | _ => True
  end.

(** [p] is a path of the graph from [a] to [b]: its nodes are nodes of the
    graph and consecutive nodes are joined by an edge. *)
Definition path_in (us : list User.t) (fs : list Friendship.t)
    (a b : string) (p : list string) : Prop :=
  head p = Some a ∧ last p = Some b ∧ Forall (λ x, x ∈ ids us) p
  ∧ chain (linked fs) p.

Definition reachable (us : list User.t) (fs : list Friendship.t)
    (a b : string) : Prop :=
  ∃ p, path_in us fs a b p.

(** One step along the adjacency index. *)
Definition step (g : GraphAlgorithms) (x y : string) : Prop := y ∈ neighbors g x.

(** ** Suggestions *)

(** Order of a suggestion list sorted by [mutualCount], descending. *)
Definition count_ge (a b : Suggestion.t) : Prop :=
  (Suggestion.mutualCount b ≤ Suggestion.mutualCount a)%nat.

(** What one suggestion for [userId] must satisfy: a present candidate that
    is neither [userId] nor adjacent to it, with the non-empty intersection
    of the two neighbor sets and its size. *)
Definition suggestion_ok (us : list User.t) (fs : list Friendship.t)
    (userId : string) (s : Suggestion.t) : Prop :=
  let g := engine us fs in
  Suggestion.userId s ∈ ids us
  ∧ Suggestion.userId s ≠ userId
  ∧ ¬ linked fs userId (Suggestion.userId s)
  ∧ (Suggestion.userId s ∉ neighbors g userId)
  ∧ (∀ friend, friend ∈ Suggestion.mutualFriends s
        ↔ friend ∈ neighbors g userId ∧ friend ∈ neighbors g (Suggestion.userId s))
  ∧ NoDup (Suggestion.mutualFriends s)
  ∧ Suggestion.mutualFriends s ≠ []
  ∧ Suggestion.mutualCount s = length (Suggestion.mutualFriends s).

(** ** Breadth-first search: invariants *)

(** The depth of the node discovered last. *)
Definition set_dep (dep : string → nat) (w : string) (d : nat) : string → nat :=
  λ x, if decide (x = w) then d else dep x.

Definition dep_le (dep : string → nat) (x y : string) : Prop := dep x ≤ dep y.

(** The parent links form a tree rooted at the start node [s]; [dep] is the
    depth of a discovered node in it. *)
Record tree_inv (g : GraphAlgorithms) (s : string) (dep : string → nat)
    (st : bfs_state) : Prop := {
  tree_start : s ∈ visited st;
  tree_start_dep : dep s = 0;
  tree_start_root : parent st !! s = None;
  tree_parent : ∀ v, v ∈ visited st → v ≠ s →
    ∃ p, parent st !! v = Some p ∧ p ∈ visited st ∧ step g p v ∧ dep v = S (dep p);
  tree_dom : ∀ v, v ∉ visited st → parent st !! v = None;
  tree_size : ∀ v, v ∈ visited st → dep v ≤ size (parent st)
}.

(** The invariant of the search for [e] from [s].  [cur] holds the node
    being expanded (none between two rounds of the outer loop) and [ns] the
    neighbors of it that the inner loop has still to look at. *)
Record bfs_inv (g : GraphAlgorithms) (s e : string) (dep : string → nat)
    (cur ns : list string) (st : bfs_state) : Prop := {
  inv_tree : tree_inv g s dep st;
  inv_end : e ∉ visited st;
  inv_todo : ∀ c w, c ∈ cur → w ∈ ns → step g c w;
  inv_pending : ∀ q, q ∈ cur ++ queue st → q ∈ visited st;
  inv_sorted : StronglySorted (dep_le dep) (cur ++ queue st);
  inv_level : ∀ q v, head (cur ++ queue st) = Some q → v ∈ visited st →
    dep v ≤ S (dep q);
  inv_lip : ∀ x y, x ∈ visited st → y ∈ visited st → step g x y →
    dep y ≤ S (dep x);
  inv_closed : ∀ v w, v ∈ visited st → v ∉ queue st → step g v w →
    w ∈ visited st ∨ (v ∈ cur ∧ w ∈ ns);
  inv_universe : visited st ⊆ {[s]} ∪ mentioned g
}.

(** Enough fuel is left for the rounds to come. *)
Definition bfs_budget (g : GraphAlgorithms) (s : string) (fuel : nat)
    (st : bfs_state) : Prop :=
  length (queue st) + size ({[s]} ∪ mentioned g) < fuel + size (visited st).

(** What a returned [PathResult] satisfies: [d] is the least number of
    steps from [s] to [e], [p] is a walk of that length, and the returned
    path is [p] unless the truthiness test cut the reconstruction short. *)
Definition found_post (g : GraphAlgorithms) (s e : string) (r : PathResult.t)
  : Prop :=
  ∃ p, head p = Some s ∧ last p = Some e ∧ chain (step g) p
       ∧ (∀ n, nsteps (step g) n s e → length p ≤ S n)
       ∧ PathResult.distance r = (Z.of_nat (length (PathResult.path r)) - 1)%Z
       ∧ (Forall (λ x, truthy x = true) p → PathResult.path r = p).

Definition bfs_post (g : GraphAlgorithms) (s e : string)
    (c : completion (option PathResult.t)) : Prop :=
  match c with
  | Normal None => ∀ n, ¬ nsteps (step g) n s e
  | Normal (Some r) => found_post g s e r
  | _ => False
  end.

(** ** Communities *)

(** [y] can be reached from [x] along the adjacency index. *)
Definition connected (g : GraphAlgorithms) (x y : string) : Prop :=
  rtc (step g) x y.

(** The communities partition the node set: every node is a member of a
    community, every member is a node, and two communities at different
    positions share no member. *)
Definition partition_of (us : list User.t) (cs : list Community.t) : Prop :=
  (∀ x, x ∈ ids us ↔ ∃ c, c ∈ cs ∧ x ∈ Community.users c)
  ∧ (∀ i j c d x, cs !! i = Some c → cs !! j = Some d → i ≠ j →
       x ∈ Community.users c → x ∉ Community.users d).

(** Two ids are grouped together by [cs]. *)
Definition same_community (cs : list Community.t) (x y : string) : Prop :=
  ∃ c, c ∈ cs ∧ x ∈ Community.users c ∧ y ∈ Community.users c.

(** No edge touches [x]. *)
Definition isolated (fs : list Friendship.t) (x : string) : Prop :=
  ∀ y, ¬ linked fs x y.

(** [x] is the only member of its community. *)
Definition singleton_community (cs : list Community.t) (x : string) : Prop :=
  ∃ c, c ∈ cs ∧ ∀ y, y ∈ Community.users c ↔ y = x.

(** The invariant of the loop of [dfsVisit] started at [u] with the shared
    set [vis0]. *)
Record dfs_inv (g : GraphAlgorithms) (u : string) (vis0 : gset string)
    (stack : list string) (vis : gset string) (community : list string)
  : Prop := {
  dfs_vis : ∀ x, x ∈ vis ↔ x ∈ vis0 ∨ x ∈ community;
  dfs_nodup : NoDup community;
  dfs_fresh : ∀ x, x ∈ community → x ∉ vis0;
  dfs_reach : ∀ x, x ∈ stack ∨ x ∈ community → connected g u x;
  dfs_closed : ∀ v w, v ∈ community → step g v w → w ∈ vis ∨ w ∈ stack;
  dfs_root : u ∈ stack ∨ u ∈ community;
  dfs_root_fresh : u ∉ vis0
}.

(** What [dfsVisit] returns: the nodes reached from [u] outside [vis0], each
    once, added to the shared set. *)
Definition dfs_post (g : GraphAlgorithms) (u : string) (vis0 : gset string)
    (r : list string * gset string) : Prop :=
  let '(community, vis) := r in
  (∀ x, x ∈ vis ↔ x ∈ vis0 ∨ x ∈ community)
  ∧ NoDup community
  ∧ (∀ x, x ∈ community → x ∉ vis0)
  ∧ (∀ x, x ∈ community → connected g u x)
  ∧ (∀ v w, v ∈ community → step g v w → w ∈ vis)
  ∧ u ∈ community.

(** The number of communities that a left-to-right sweep over the node list
    opens: a node opens one when no earlier node is connected to it. *)
Inductive sweep (g : GraphAlgorithms) : list string → list string → nat → Prop :=
| sweep_nil seen : sweep g [] seen 0
| sweep_old u rest seen n :
    (∃ v, v ∈ seen ∧ connected g v u) →
    sweep g rest (seen ++ [u]) n → sweep g (u :: rest) seen n
| sweep_new u rest seen n :
    ¬ (∃ v, v ∈ seen ∧ connected g v u) →
    sweep g rest (seen ++ [u]) n → sweep g (u :: rest) seen (S n).

(** The invariant of the loop of [findCommunities] after the nodes [seen]. *)
Record communities_inv (g : GraphAlgorithms) (seen : list string)
    (vis : gset string) (cs : list Community.t) : Prop := {
  cinv_vis : ∀ x, x ∈ vis ↔ ∃ v, v ∈ seen ∧ connected g v x;
  cinv_cover : ∀ x, x ∈ vis ↔ ∃ c, c ∈ cs ∧ x ∈ Community.users c;
  cinv_class : ∀ c, c ∈ cs →
    ∃ u, u ∈ seen ∧ ∀ x, x ∈ Community.users c ↔ connected g u x;
  cinv_disjoint : ∀ i j c d x, cs !! i = Some c → cs !! j = Some d → i ≠ j →
    x ∈ Community.users c → x ∉ Community.users d
}.

(** ** Union-find: invariants *)

(** The rank of a node, as a number. *)
Definition rank_of (rk : gmap (option string) rankv) (a : string) : nat :=
  match rk !! Some a with
  | Some (RNum n) => n
  | _ => 0
  end.

(** The state of the disjoint-set forest over the node list [N], when no
    [undefined] has entered it.  [rep a] is the root of the tree of [a];
    ranks grow strictly towards the root and are bounded by the number [k]
    of unions made. *)
Record uf_ok (N : list string) (par : gmap (option string) (option string))
    (rk : gmap (option string) rankv) (rep : string → string) (k : nat)
  : Prop := {
  uf_link : ∀ a, a ∈ N →
    ∃ p, p ∈ N ∧ par !! Some a = Some (Some p) ∧ rep p = rep a
         ∧ (p = a → rep a = a) ∧ (p ≠ a → rank_of rk a < rank_of rk p);
  uf_ranks : ∀ a, a ∈ N → ∃ n, rk !! Some a = Some (RNum n) ∧ n ≤ k;
  uf_root : ∀ a, a ∈ N → rep a ∈ N ∧ par !! Some (rep a) = Some (Some (rep a));
  uf_below : ∀ a, a ∈ N → a = rep a ∨ rank_of rk a < rank_of rk (rep a)
}.

(** The representatives after the tree of [from] is hung under [to]. *)
Definition merge_rep (rep : string → string) (from to : string) : string → string :=
  λ a, if decide (rep a = from) then to else rep a.

(** The groups collected from the users [seen]: one entry per root, holding
    the users of that root. *)
Record groups_ok (rep : string → string) (seen : list string)
    (groups : list (option string * list string)) : Prop := {
  groups_keys : NoDup groups.*1;
  groups_members : ∀ k m, (k, m) ∈ groups →
    ∀ x, x ∈ m ↔ x ∈ seen ∧ Some (rep x) = k;
  groups_cover : ∀ x, x ∈ seen → ∃ m, (Some (rep x), m) ∈ groups
}.

(** * The data store ([graphData.ts]) *)

(** The class [GraphDataManager] keeps the users and the friendships in the
    two arrays [this.data.users] and [this.data.friendships].  It edits them
    partly in place ([push], [splice], an assignment to a field of an
    element) and partly by assigning a new array (the result of [filter]).
    [loadData] and [reset] set [this.data] to [{ ...initialData }], a shallow
    copy whose two fields are the very arrays of the module constant
    [initialData]: an edit in place then changes [initialData] too.  The
    model keeps the contents of the two arrays of [initialData] and, for each
    field of [this.data], whether it refers to that array or to an array of
    its own.

    [Date.now()] is a parameter of [addUser], and what [loadData] obtains
    from the local storage is a parameter of the constructor: [JSON.parse]
    builds new arrays and objects, which nothing else refers to.  [saveData]
    (local storage and listeners) does not touch [this.data] and is left
    out, as is [exportData].  [importData] is left out as well: it keeps the
    arrays and the user objects of its argument, and what else refers to
    them is up to its caller. *)

Module GraphData.
Record t := mk { users : list User.t; friendships : list Friendship.t }.
End GraphData.

Module GraphStats.
Record t := mk { totalUsers : nat; totalFriendships : nat; totalCommunities : nat }.
End GraphStats.

Definition initialData : GraphData.t :=
  GraphData.mk
    [User.mk "1" "Alice"; User.mk "2" "Bob"; User.mk "3" "Charlie";
     User.mk "4" "Diana"; User.mk "5" "Eve"; User.mk "6" "Frank"]
    [Friendship.mk "1" "2"; Friendship.mk "2" "3"; Friendship.mk "3" "4";
     Friendship.mk "1" "5"; Friendship.mk "5" "6"].

Module GraphDataManager.

(** The array that a field of [this.data] refers to. *)
Inductive array_ref (A : Type) : Type :=
| Initial
| Own (elements : list A).
Arguments Initial {A}.
Arguments Own {A} elements.

Record t := mk {
  initial_users : list User.t;
  initial_friendships : list Friendship.t;
  data_users : array_ref User.t;
  data_friendships : array_ref Friendship.t
}.

(** The contents of [this.data.users] and [this.data.friendships]. *)
Definition users (m : t) : list User.t :=
  match data_users m with
  | Initial => initial_users m
  | Own l => l
  end.

Definition friendships (m : t) : list Friendship.t :=
  match data_friendships m with
  | Initial => initial_friendships m
  | Own l => l
  end.

(** An edit in place of the array [this.data.users]. *)
Definition write_users (l : list User.t) (m : t) : t :=
  match data_users m with
  | Initial => mk l (initial_friendships m) Initial (data_friendships m)
  | Own _ => mk (initial_users m) (initial_friendships m) (Own l) (data_friendships m)
  end.

(** An edit in place of the array [this.data.friendships]. *)
Definition write_friendships (l : list Friendship.t) (m : t) : t :=
  match data_friendships m with
  | Initial => mk (initial_users m) l (data_users m) Initial
  | Own _ => mk (initial_users m) (initial_friendships m) (data_users m) (Own l)
  end.

(** [this.data.friendships = l], for a new array [l]. *)
Definition assign_friendships (l : list Friendship.t) (m : t) : t :=
  mk (initial_users m) (initial_friendships m) (data_users m) (Own l).

(** [loadData]: the parsed item of the local storage when there is one,
    else [{ ...initialData }]. *)
Definition loadData (stored : option GraphData.t) (initial : GraphData.t) : t :=
  match stored with
  | Some data =>
    mk (GraphData.users initial) (GraphData.friendships initial)
       (Own (GraphData.users data)) (Own (GraphData.friendships data))
  | None =>
    mk (GraphData.users initial) (GraphData.friendships initial) Initial Initial
  end.

(** [new GraphDataManager()], in the module whose [initialData] is fresh. *)
Definition constructor (stored : option GraphData.t) : t :=
  loadData stored initialData.

Definition getData (m : t) : GraphData.t := GraphData.mk (users m) (friendships m).

Definition getStats (m : t) : GraphStats.t :=
  GraphStats.mk (length (users m)) (length (friendships m)) 0.

(** [now] is the value of [Date.now()], an integer. *)
Definition addUser (now : Z) (name : string) (m : t) : t * User.t :=
  let id := pretty now in
  let user := User.mk id name in
  (write_users (users m ++ [user]) m, user).

Definition removeUser (userId : string) (m : t) : t * bool :=
  match list_find (λ u, User.id u = userId) (users m) with
  | None => (m, false)
  | Some (userIndex, _) =>
    let m1 := write_users (delete userIndex (users m)) m in
    (assign_friendships
       (filter (λ f, Friendship.source f ≠ userId ∧ Friendship.target f ≠ userId)
               (friendships m1)) m1,
     true)
  end.

Definition updateUser (userId name : string) (m : t) : t * bool :=
  match list_find (λ u, User.id u = userId) (users m) with
  | None => (m, false)
  | Some (userIndex, user) =>
    (write_users (<[userIndex := User.mk (User.id user) name]> (users m)) m, true)
  end.

(** The test of the two [filter] and [some] callbacks on friendships: [f]
    joins [sourceId] and [targetId], in either orientation. *)
Definition joins (sourceId targetId : string) (f : Friendship.t) : Prop :=
  (Friendship.source f = sourceId ∧ Friendship.target f = targetId)
  ∨ (Friendship.source f = targetId ∧ Friendship.target f = sourceId).

Global Instance joins_dec sourceId targetId f : Decision (joins sourceId targetId f).
Proof. unfold joins. apply _. Defined.

Definition addFriendship (sourceId targetId : string) (m : t) : t * bool :=
  let sourceExists := bool_decide (Exists (λ u, User.id u = sourceId) (users m)) in
  let targetExists := bool_decide (Exists (λ u, User.id u = targetId) (users m)) in
  if negb sourceExists || negb targetExists || bool_decide (sourceId = targetId)
  then (m, false)
  else
    let exists_ := bool_decide (Exists (joins sourceId targetId) (friendships m)) in
    if exists_ then (m, false)
    else
      (write_friendships (friendships m ++ [Friendship.mk sourceId targetId]) m, true).

Definition removeFriendship (sourceId targetId : string) (m : t) : t * bool :=
  let initialLength := length (friendships m) in
  let m' :=
    assign_friendships
      (filter (λ f, ¬ joins sourceId targetId f) (friendships m)) m in
  if bool_decide (length (friendships m') < initialLength) then (m', true)
  else (m', false).

Definition getUser (userId : string) (m : t) : option User.t :=
  snd <$> list_find (λ u, User.id u = userId) (users m).

Definition getUsers (m : t) : list User.t := users m.

Definition getFriendships (m : t) : list Friendship.t := friendships m.

(** [this.data = { ...initialData }] *)
Definition reset (m : t) : t :=
  mk (initial_users m) (initial_friendships m) Initial Initial.

(** The calls that edit the data item by item. *)
Inductive edit :=
| AddUser (now : Z) (name : string)
| RemoveUser (userId : string)
| UpdateUser (userId name : string)
| AddFriendship (sourceId targetId : string)
| RemoveFriendship (sourceId targetId : string).

Definition apply_edit (m : t) (e : edit) : t :=
  match e with
  | AddUser now name => (addUser now name m).1
  | RemoveUser userId => (removeUser userId m).1
  | UpdateUser userId name => (updateUser userId name m).1
  | AddFriendship sourceId targetId => (addFriendship sourceId targetId m).1
  | RemoveFriendship sourceId targetId => (removeFriendship sourceId targetId m).1
  end.

(** A sequence of such calls, in order. *)
Definition run (es : list edit) (m : t) : t := foldl apply_edit m es.

End GraphDataManager.

(** * The page ([Index.tsx]) *)

(** [updateAnalytics]: the values that it passes to [setCommunities] and
    [setStats]. *)
Definition updateAnalytics (currentUsers : list User.t)
    (currentFriendships : list Friendship.t)
  : completion (list Community.t * GraphStats.t) :=
  if decide (length currentUsers = 0) then Normal ([], GraphStats.mk 0 0 0)
  else
    do algorithms <- constructor currentUsers currentFriendships;
    do detectedCommunities <- findCommunities algorithms;
    Normal (detectedCommunities,
            GraphStats.mk (length currentUsers) (length currentFriendships)
                          (length detectedCommunities)).

(** [handleFindPath]: the value that it passes to [setCurrentPath] and
    returns. *)
Definition handleFindPath (users : list User.t) (friendships : list Friendship.t)
    (startId endId : string) : completion (option PathResult.t) :=
  do algorithms <- constructor users friendships;
  findShortestPath algorithms startId endId.

(** * The drawing ([GraphVisualization.tsx]) *)

Module GraphVisualization.

(** [communityColorMap]: a later [set] for the same user overwrites. *)
Definition communityColorMap (communities : list Community.t) : gmap string string :=
  foldl (λ m community,
           foldl (λ m userId, <[userId := Community.color community]> m)
                 m (Community.users community))
        ∅ communities.

(** The loop of the [stroke] and [stroke-width] callbacks of a link: some
    two consecutive ids of the highlighted path are the two ends of the
    link. *)
Fixpoint on_path (highlightedPath : list string) (sourceId targetId : string)
  : bool :=
  match highlightedPath with
  | x :: (y :: _) as rest =>
    if decide ((x = sourceId ∧ y = targetId) ∨ (x = targetId ∧ y = sourceId))
    then true
    else on_path rest sourceId targetId
  | _ => false
  end.

Definition link_stroke (highlightedPath : list string) (sourceId targetId : string)
  : string :=
  if on_path highlightedPath sourceId targetId then "#FF6B6B" else "#999".

Definition link_stroke_width (highlightedPath : list string)
    (sourceId targetId : string) : nat :=
  if on_path highlightedPath sourceId targetId then 4 else 2.

(** The [fill] callback of a node; [||] falls through on a missing entry
    and on an empty color. *)
Definition node_fill (highlightedPath : list string)
    (communities : list Community.t) (id : string) : string :=
  if decide (id ∈ highlightedPath) then "#FF6B6B"
  else
    match communityColorMap communities !! id with
    | Some c => if truthy c then c else "#4ECDC4"
    | None => "#4ECDC4"
    end.

End GraphVisualization.

(** ** Vocabulary for the store *)

(** No edge joins a node to itself. *)
Definition no_self_loops (fs : list Friendship.t) : Prop :=
  Forall (λ f, Friendship.source f ≠ Friendship.target f) fs.

(** No unordered pair is listed twice. *)
Fixpoint pairs_once (fs : list Friendship.t) : Prop :=
  match fs with
  | [] => True
  | f :: rest =>
    ¬ linked rest (Friendship.source f) (Friendship.target f) ∧ pairs_once rest
  end.

Global Instance linked_dec fs x y : Decision (linked fs x y).
Proof.
  refine (cast_if (decide (Exists (λ f,
            (Friendship.source f = x ∧ Friendship.target f = y)
            ∨ (Friendship.source f = y ∧ Friendship.target f = x)) fs)));
    unfold linked; by rewrite <- Exists_exists.
Defined.

Global Instance pairs_once_dec fs : Decision (pairs_once fs).
Proof. induction fs; simpl; apply _. Defined.

(** What the item-by-item edits keep: every edge joins two listed users,
    no self-loop, no pair twice, no empty id. *)
Record store_ok (us : list User.t) (fs : list Friendship.t) : Prop := {
  ok_present : edges_present us fs;
  ok_loops : no_self_loops fs;
  ok_once : pairs_once fs;
  ok_ids : Forall (λ x, x ≠ EmptyString) (ids us)
}.

(** ** Vocabulary for communities on any input *)

(** Two communities at different positions share no member. *)
Definition disjoint_communities (cs : list Community.t) : Prop :=
  ∀ i j c d x, cs !! i = Some c → cs !! j = Some d → i ≠ j →
    x ∈ Community.users c → x ∉ Community.users d.

(** The set [vis] holds exactly the members of the communities [cs]. *)
Definition covers (vis : gset string) (cs : list Community.t) : Prop :=
  ∀ x, x ∈ vis ↔ ∃ c, c ∈ cs ∧ x ∈ Community.users c.

(** A community has a member and lists no member twice. *)
Definition proper_community (c : Community.t) : Prop :=
  Community.users c ≠ [] ∧ NoDup (Community.users c).

Global Instance same_community_dec cs x y : Decision (same_community cs x y).
Proof.
  refine (cast_if (decide (Exists (λ c, x ∈ Community.users c
                                        ∧ y ∈ Community.users c) cs)));
    unfold same_community; by rewrite <- Exists_exists.
Defined.

(** 1 when the list [L] holds a node of each of two kinds, else 0. *)
Definition both_hit (P Q : string → Prop)
    `{!∀ v, Decision (P v)} `{!∀ v, Decision (Q v)} (L : list string) : nat :=
  if decide (Exists P L ∧ Exists Q L) then 1 else 0.

(** * Verification *)

(** ** The adjacency index *)

Section adjacency.

Implicit Types (adj : gmap string (list string)) (us : list User.t)
  (fs : list Friendship.t) (f : Friendship.t) (x y a b : string).

Lemma elem_of_set_add x y s : x ∈ set_add y s ↔ x ∈ s ∨ x = y.
Proof.
  unfold set_add. case_decide.
  - split; [auto | intros [?| ->]; done].
  - rewrite elem_of_app, list_elem_of_singleton. tauto.
Qed.

Lemma NoDup_set_add y s : NoDup s → NoDup (set_add y s).
Proof.
  intros Hs. unfold set_add. case_decide; [done|].
  apply NoDup_app. split_and!; [done| |apply NoDup_singleton].
  intros z Hz ->%list_elem_of_singleton. done.
Qed.

Lemma lookup_add_neighbor a b adj x :
  add_neighbor a b adj !! x
  = (λ s, if decide (x = a) then set_add b s else s) <$> adj !! x.
Proof.
  unfold add_neighbor. destruct (adj !! a) as [s|] eqn:Ha.
  - destruct (decide (x = a)) as [->|Hne].
    + rewrite lookup_insert_eq, Ha. done.
    + rewrite lookup_insert_ne by done. by destruct (adj !! x).
  - destruct (decide (x = a)) as [->|Hne].
    + rewrite Ha. done.
    + by destruct (adj !! x).
Qed.

Lemma lookup_add_friendship adj f x :
  add_friendship adj f !! x
  = (λ s, if decide (x = Friendship.target f)
          then set_add (Friendship.source f) s else s)
    <$> ((λ s, if decide (x = Friendship.source f)
               then set_add (Friendship.target f) s else s) <$> adj !! x).
Proof. unfold add_friendship. by rewrite !lookup_add_neighbor. Qed.

Lemma lookup_init_adjacency us x :
  init_adjacency us !! x = if decide (x ∈ ids us) then Some [] else None.
Proof.
  unfold init_adjacency, ids.
  induction us as [|u us IH] using rev_ind.
  - simpl. by rewrite lookup_empty.
  - rewrite foldl_snoc, fmap_app. simpl.
    destruct (decide (x = User.id u)) as [->|Hne].
    + rewrite lookup_insert_eq. rewrite decide_True; [done|].
      apply elem_of_app. right. apply list_elem_of_singleton. done.
    + rewrite lookup_insert_ne by done. rewrite IH.
      repeat case_decide; try done.
      * exfalso. apply H0. apply elem_of_app. by left.
      * exfalso. apply elem_of_app in H0 as [?|?%list_elem_of_singleton]; done.
Qed.

Lemma linked_snoc fs f x y :
  linked (fs ++ [f]) x y
  ↔ linked fs x y
    ∨ (Friendship.source f = x ∧ Friendship.target f = y)
    ∨ (Friendship.source f = y ∧ Friendship.target f = x).
Proof.
  unfold linked. split.
  - intros (f' & [Hf| ->%list_elem_of_singleton]%elem_of_app & H); [|tauto].
    left. eauto.
  - intros [(f' & Hf & H)|H].
    + exists f'. split; [|done]. apply elem_of_app. by left.
    + exists f. split; [|done]. apply elem_of_app. right.
      by apply list_elem_of_singleton.
Qed.

Lemma linked_sym fs x y : linked fs x y → linked fs y x.
Proof. intros (f & Hf & H). exists f. tauto. Qed.

(** The index has an entry exactly for the listed ids; the entry of [x] is
    duplicate-free and holds [y] exactly when an edge joins [x] and [y]. *)
Lemma buildAdjacencyList_lookup us fs x :
  if decide (x ∈ ids us)
  then ∃ s, buildAdjacencyList us fs !! x = Some s ∧ NoDup s
            ∧ ∀ y, y ∈ s ↔ linked fs x y
  else buildAdjacencyList us fs !! x = None.
Proof.
  unfold buildAdjacencyList.
  induction fs as [|f fs IH] using rev_ind.
  - simpl. rewrite lookup_init_adjacency. case_decide; [|done].
    exists []. split_and!; [done|apply NoDup_nil_2|].
    intros y. split; [by intros ?%elem_of_nil|].
    intros (f & Hf%elem_of_nil & _). done.
  - rewrite foldl_snoc.
    destruct (decide (x ∈ ids us)) as [Hx|Hx]; rewrite lookup_add_friendship.
    + destruct IH as (s & -> & Hnd & Hs). simpl.
      eexists. split; [done|]. split.
      * repeat case_decide; repeat apply NoDup_set_add; done.
      * intros y. rewrite linked_snoc.
        repeat case_decide; rewrite ?elem_of_set_add, ?Hs; subst;
          intuition congruence.
    + rewrite IH. done.
Qed.

End adjacency.

Section neighbors.

Implicit Types (us : list User.t) (fs : list Friendship.t) (x y : string).

Lemma elem_of_neighbors us fs x y :
  y ∈ neighbors (engine us fs) x ↔ x ∈ ids us ∧ linked fs x y.
Proof.
  unfold neighbors. simpl.
  pose proof (buildAdjacencyList_lookup us fs x) as H.
  destruct (decide (x ∈ ids us)) as [Hx|Hx].
  - destruct H as (s & -> & _ & Hs). simpl. rewrite Hs. tauto.
  - rewrite H. simpl. split; [by intros ?%elem_of_nil|tauto].
Qed.

Lemma NoDup_neighbors us fs x : NoDup (neighbors (engine us fs) x).
Proof.
  unfold neighbors. simpl.
  pose proof (buildAdjacencyList_lookup us fs x) as H.
  destruct (decide (x ∈ ids us)) as [Hx|Hx].
  - destruct H as (s & -> & Hnd & _). done.
  - rewrite H. apply NoDup_nil_2.
Qed.

Lemma linked_present us fs x y :
  edges_present us fs → linked fs x y → x ∈ ids us ∧ y ∈ ids us.
Proof.
  intros Hp (f & Hf & H). unfold edges_present in Hp.
  rewrite Forall_forall in Hp. destruct (Hp f Hf). naive_solver.
Qed.

Lemma step_sym us fs x y :
  edges_present us fs → step (engine us fs) x y → step (engine us fs) y x.
Proof.
  unfold step. rewrite !elem_of_neighbors. intros Hp [Hx Hl].
  split; [|by apply linked_sym].
  by destruct (linked_present us fs x y).
Qed.

End neighbors.

(** ** Claim C9: symmetry of the adjacency index *)

(** C9, as stated, fails. With the node list [a] and the one edge (a, z),
    [z] is stored as a neighbor of [a], while [z] has no neighbor set. *)
Lemma C9_counterexample :
  let g := engine [User.mk "a" "A"] [Friendship.mk "a" "z"] in
  ¬ (∀ f, f ∈ friendships g →
        Friendship.target f ∈ neighbors g (Friendship.source f)
        ∧ Friendship.source f ∈ neighbors g (Friendship.target f)).
Proof.
  intros g H.
  destruct (H (Friendship.mk "a" "z")) as [_ H2].
  - apply list_elem_of_singleton. done.
  - vm_compute in H2. by apply elem_of_nil in H2.
Qed.

(** C9 (amended): when every edge joins two ids of the node list, the
    adjacency index is symmetric: every edge puts each endpoint in the
    neighbor set of the other, and [y ∈ neighbors x ↔ x ∈ neighbors y] for
    all ids [x] and [y]. *)
Theorem C9_adjacency_symmetric us fs :
  edges_present us fs →
  let g := engine us fs in
  (∀ f, f ∈ fs →
     Friendship.target f ∈ neighbors g (Friendship.source f)
     ∧ Friendship.source f ∈ neighbors g (Friendship.target f))
  ∧ (∀ x y, y ∈ neighbors g x ↔ x ∈ neighbors g y).
Proof.
  intros Hp g. split.
  - intros f Hf. unfold g. rewrite !elem_of_neighbors.
    unfold edges_present in Hp. rewrite Forall_forall in Hp.
    destruct (Hp f Hf) as [Hs Ht].
    split; (split; [done|]); exists f; split; auto.
  - intros x y. split; apply (step_sym us fs); done.
Qed.

Lemma C9_adjacency_symmetric_witness :
  let us := [User.mk "a" "A"; User.mk "b" "B"] in
  let fs := [Friendship.mk "a" "b"] in
  edges_present us fs
  ∧ ∀ x y, y ∈ neighbors (engine us fs) x ↔ x ∈ neighbors (engine us fs) y.
Proof.
  intros us fs.
  assert (Hp : edges_present us fs).
  { apply (bool_decide_unpack _). vm_compute. exact I. }
  split; [exact Hp|].
  exact (proj2 (C9_adjacency_symmetric us fs Hp)).
Defined.

(** ** Claim C5: construction performs no validation *)

(** C5, as stated, fails: a self-loop, an edge to an absent id and a
    repeated pair are all accepted. *)
Lemma C5_counterexample :
  constructor [User.mk "a" "A"] [Friendship.mk "a" "a"] ≠ Throw InvalidEdge
  ∧ constructor [User.mk "a" "A"] [Friendship.mk "a" "z"] ≠ Throw InvalidEdge
  ∧ constructor [User.mk "a" "A"; User.mk "b" "B"]
      [Friendship.mk "a" "b"; Friendship.mk "b" "a"] ≠ Throw DuplicateEdge.
Proof. unfold constructor. split_and!; discriminate. Qed.

(** C5 (amended): construction succeeds on every node list and edge list;
    it keeps both lists as given and stores [y] as a neighbor of [x] exactly
    when [x] is a listed id and an edge joins [x] and [y] (in particular an
    absent endpoint gets no neighbor set, a self-loop makes a node its own
    neighbor, a repeated pair changes nothing). *)
Theorem C5_constructor_total us fs :
  ∃ g, constructor us fs = Normal g
       ∧ users g = us ∧ friendships g = fs
       ∧ ∀ x y, y ∈ neighbors g x ↔ x ∈ ids us ∧ linked fs x y.
Proof.
  exists (engine us fs). split_and!; [done..|].
  intros x y. apply elem_of_neighbors.
Qed.

(** ** Claims C4 and C7: findMutualFriends *)

Section suggestions.

Implicit Types (us : list User.t) (fs : list Friendship.t)
  (s : Suggestion.t) (l : list Suggestion.t).

Lemma sort_insert_perm {A} (cmp : A → A → Z) x (l : list A) :
  sort_insert cmp x l ≡ₚ x :: l.
Proof.
  induction l as [|y l IH]; simpl; [done|].
  case_match; [|done]. rewrite IH. apply Permutation_swap.
Qed.

Lemma js_sort_perm {A} (cmp : A → A → Z) (l : list A) : js_sort cmp l ≡ₚ l.
Proof.
  unfold js_sort. induction l as [|x l IH]; simpl; [done|].
  by rewrite sort_insert_perm, IH.
Qed.

Lemma sort_insert_sorted s l :
  StronglySorted count_ge l → StronglySorted count_ge (sort_insert by_count_desc s l).
Proof.
  induction 1 as [|y l Hl IH Hy]; simpl.
  - repeat constructor.
  - destruct (0 <? by_count_desc s y)%Z eqn:Hc.
    + apply Z.ltb_lt in Hc. constructor; [done|].
      rewrite sort_insert_perm. constructor; [|done].
      unfold count_ge, by_count_desc in *. lia.
    + apply Z.ltb_ge in Hc. constructor; [by constructor|].
      assert (count_ge s y) by (unfold count_ge, by_count_desc in *; lia).
      constructor; [done|].
      eapply Forall_impl; [exact Hy|]. unfold count_ge in *. simpl. lia.
Qed.

Lemma js_sort_sorted l : StronglySorted count_ge (js_sort by_count_desc l).
Proof.
  unfold js_sort. induction l as [|s l IH]; simpl; [constructor|].
  by apply sort_insert_sorted.
Qed.

(** The suggestions that the loop collects from the users [done]. *)
Lemma elem_of_suggest_loop (g : GraphAlgorithms) userId (done : list User.t) acc s :
  s ∈ foldl (suggest_step g userId) acc done
  ↔ s ∈ acc
    ∨ ∃ user, user ∈ done
        ∧ User.id user ≠ userId
        ∧ (User.id user ∉ neighbors g userId)
        ∧ let mutual := filter (λ friend, friend ∈ neighbors g (User.id user))
                               (neighbors g userId) in
          mutual ≠ [] ∧ s = Suggestion.mk (User.id user) (length mutual) mutual.
Proof.
  revert acc. induction done as [|user rest IH]; intros acc; simpl.
  - split; [auto|]. intros [?|(? & ?%elem_of_nil & _)]; done.
  - rewrite IH. clear IH. unfold suggest_step at 1.
    setoid_rewrite elem_of_cons.
    destruct (decide (User.id user = userId ∨ User.id user ∈ neighbors g userId))
      as [Hskip|Hkeep].
    + split; [naive_solver|].
      intros [?|(u & [->|Hu] & ? & ? & ?)]; [by left|tauto|].
      right. exists u. done.
    + destruct (filter _ (neighbors g userId)) as [|m ms] eqn:Hm; simpl.
      * split; [naive_solver|].
        intros [?|(u & [->|Hu] & ? & ? & Hne & ?)]; [by left| |].
        -- rewrite Hm in Hne. done.
        -- right. exists u. done.
      * rewrite elem_of_app, list_elem_of_singleton. split.
        -- intros [[?| ->]|(u & Hu & H)]; [by left| |].
           ++ right. exists user. rewrite Hm. split_and!; auto.
           ++ right. exists u. split; [by right|done].
        -- intros [?|(u & [->|Hu] & ? & ? & Hne & ->)]; [by left; left| |].
           ++ left. right. rewrite Hm. done.
           ++ right. exists u. done.
Qed.

End suggestions.

(** C4: for a present [userId], [findMutualFriends] returns a list sorted
    by [mutualCount], descending; every suggestion in it is a candidate
    other than [userId] and not adjacent to it, carrying the non-empty
    intersection of the two neighbor sets and its size; a candidate whose
    intersection is empty is not in the list, and every other candidate
    is. *)
Theorem C4_findMutualFriends_spec us fs userId :
  userId ∈ ids us →
  ∃ l, findMutualFriends (engine us fs) userId = Normal l
       ∧ StronglySorted count_ge l
       ∧ (∀ s, s ∈ l → suggestion_ok us fs userId s)
       ∧ (∀ s, s ∈ l → ∃ friend,
             friend ∈ neighbors (engine us fs) userId
             ∧ friend ∈ neighbors (engine us fs) (Suggestion.userId s))
       ∧ (∀ c friend, c ∈ ids us → c ≠ userId →
             c ∉ neighbors (engine us fs) userId →
             friend ∈ neighbors (engine us fs) userId →
             friend ∈ neighbors (engine us fs) c →
             ∃ s, s ∈ l ∧ Suggestion.userId s = c).
Proof.
  intros Hu. eexists. split; [done|]. split; [apply js_sort_sorted|].
  assert (Hok : ∀ s, s ∈ js_sort by_count_desc
                     (foldl (suggest_step (engine us fs) userId) [] (users (engine us fs)))
                → suggestion_ok us fs userId s).
  { intros s. rewrite js_sort_perm, elem_of_suggest_loop.
    intros [?%elem_of_nil|(user & Hin & Hne & Hnadj & Hmut & ->)]; [done|].
    unfold suggestion_ok. simpl in *. split_and!.
    - unfold ids. apply list_elem_of_fmap. eauto.
    - done.
    - intros Hl. apply Hnadj. apply elem_of_neighbors. done.
    - done.
    - intros friend. rewrite list_elem_of_filter. tauto.
    - apply NoDup_filter, NoDup_neighbors.
    - done.
    - done. }
  split; [exact Hok|]. split.
  - intros s Hs. destruct (Hok s Hs) as (_ & _ & _ & _ & Hmf & _ & Hne & _).
    destruct (Suggestion.mutualFriends s) as [|friend ?] eqn:E; [done|].
    exists friend. apply Hmf. by left.
  - intros c friend Hc Hne Hnadj Hf1 Hf2.
    apply list_elem_of_fmap in Hc as (user & -> & Huser).
    eexists. split.
    + rewrite js_sort_perm. apply elem_of_suggest_loop. right.
      exists user. split_and!; [done|done|done|].
      simpl. split; [|done]. intros Hnil.
      assert (friend ∈ filter (λ friend, friend ∈ neighbors (engine us fs) (User.id user))
                         (neighbors (engine us fs) userId)) as Hin.
      { apply list_elem_of_filter. done. }
      rewrite Hnil in Hin. by apply elem_of_nil in Hin.
    + done.
Qed.

Lemma C4_findMutualFriends_spec_witness :
  let us := [User.mk "1" "Alice"; User.mk "2" "Bob"; User.mk "3" "Charlie";
             User.mk "4" "Diana"] in
  let fs := [Friendship.mk "1" "2"; Friendship.mk "2" "3"; Friendship.mk "3" "4"] in
  "2" ∈ ids us
  ∧ ∃ l, findMutualFriends (engine us fs) "2" = Normal l
         ∧ StronglySorted count_ge l
         ∧ (∀ s, s ∈ l → suggestion_ok us fs "2" s)
         ∧ (∀ s, s ∈ l → ∃ friend,
               friend ∈ neighbors (engine us fs) "2"
               ∧ friend ∈ neighbors (engine us fs) (Suggestion.userId s))
         ∧ (∀ c friend, c ∈ ids us → c ≠ "2" →
               c ∉ neighbors (engine us fs) "2" →
               friend ∈ neighbors (engine us fs) "2" →
               friend ∈ neighbors (engine us fs) c →
               ∃ s, s ∈ l ∧ Suggestion.userId s = c).
Proof.
  intros us fs.
  assert (Hu : "2" ∈ ids us).
  { apply (bool_decide_unpack _). vm_compute. exact I. }
  split; [exact Hu|]. exact (C4_findMutualFriends_spec us fs "2" Hu).
Defined.

(** C7, as stated, fails: the query for an id that is not a node returns
    the empty list. *)
Lemma C7_counterexample :
  findMutualFriends (engine [User.mk "a" "A"; User.mk "b" "B"] [Friendship.mk "a" "b"]) "zz"
  ≠ Throw UnknownNode.
Proof. unfold findMutualFriends. discriminate. Qed.

(** C7 (amended): for a [userId] that is absent from the node list,
    [findMutualFriends] completes normally with the empty suggestion list. *)
Theorem C7_findMutualFriends_absent us fs userId :
  userId ∉ ids us → findMutualFriends (engine us fs) userId = Normal [].
Proof.
  intros Hu. unfold findMutualFriends. f_equal.
  destruct (foldl _ _ _) as [|s l] eqn:E; [done|].
  assert (Hs : s ∈ foldl (suggest_step (engine us fs) userId) [] (users (engine us fs))).
  { rewrite E. by left. }
  apply elem_of_suggest_loop in Hs
    as [?%elem_of_nil|(user & _ & _ & _ & Hne & _)]; [done|].
  exfalso. apply Hne.
  assert (Hn : neighbors (engine us fs) userId = []).
  { destruct (neighbors (engine us fs) userId) as [|y ?] eqn:En; [done|].
    assert (Hy : y ∈ neighbors (engine us fs) userId) by (rewrite En; by left).
    apply elem_of_neighbors in Hy as [? _]. done. }
  rewrite Hn. done.
Qed.

Lemma C7_findMutualFriends_absent_witness :
  let us := [User.mk "a" "A"; User.mk "b" "B"] in
  let fs := [Friendship.mk "a" "b"] in
  ("zz" ∉ ids us) ∧ findMutualFriends (engine us fs) "zz" = Normal [].
Proof.
  intros us fs.
  assert (Hu : "zz" ∉ ids us).
  { apply (bool_decide_unpack _). vm_compute. exact I. }
  split; [exact Hu|]. exact (C7_findMutualFriends_absent us fs "zz" Hu).
Defined.

(** ** Breadth-first search *)

Section chains.

Context (R : string → string → Prop).

Lemma chain_snoc p x y :
  chain R p → last p = Some x → R x y → chain R (p ++ [y]).
Proof.
  induction p as [|a [|b p] IH]; simpl; intros Hc Hl Hxy.
  - done.
  - injection Hl as ->. done.
  - destruct Hc as [Hab Hc]. split; [done|]. apply IH; done.
Qed.

Lemma chain_nsteps p a b :
  chain R p → head p = Some a → last p = Some b →
  nsteps R (pred (length p)) a b.
Proof.
  revert a. induction p as [|x [|y p] IH]; simpl; intros a Hc Hh Hl.
  - done.
  - injection Hh as ->. injection Hl as ->. constructor.
  - injection Hh as ->. destruct Hc as [Hxy Hc].
    eapply nsteps_l; [exact Hxy|]. apply (IH y); done.
Qed.

Lemma nsteps_chain n a b :
  nsteps R n a b →
  ∃ p, chain R p ∧ head p = Some a ∧ last p = Some b ∧ length p = S n.
Proof.
  induction 1 as [x|n x y z Hxy _ (p & Hc & Hh & Hl & Hn)].
  - exists [x]. done.
  - exists (x :: p). destruct p as [|y' p]; [done|].
    injection Hh as ->. simpl. split_and!; auto.
Qed.

Lemma chain_impl (R' : string → string → Prop) p :
  (∀ x y, R x y → R' x y) → chain R p → chain R' p.
Proof.
  intros HR. induction p as [|x [|y p] IH]; simpl; [done..|].
  intros [? ?]. split; [auto|]. by apply IH.
Qed.

End chains.

Section reconstruction.

Context (g : GraphAlgorithms) (s : string).

Lemma reconstruct_undefined fuel par acc :
  reconstruct fuel par None acc = Normal acc.
Proof. by destruct fuel. Qed.

(** A discovered node is reached by a walk of [dep] steps along parent
    links, which [reconstruct] returns when every node on it is truthy. *)
Lemma reconstruct_spec dep st d :
  tree_inv g s dep st →
  ∀ v fuel acc, v ∈ visited st → dep v = d → d < fuel →
  ∃ p, head p = Some s ∧ last p = Some v ∧ chain (step g) p
       ∧ length p = S d
       ∧ (∃ q, reconstruct fuel (parent st) (Some v) acc = Normal q)
       ∧ (Forall (λ x, truthy x = true) p →
          reconstruct fuel (parent st) (Some v) acc = Normal (p ++ acc)).
Proof.
  intros Ht. induction d as [|d IH]; intros v fuel acc Hv Hd Hfuel.
  - assert (v = s) as ->.
    { destruct (decide (v = s)) as [|Hne]; [done|].
      destruct (tree_parent _ _ _ _ Ht v Hv Hne) as (p & _ & _ & _ & Hp). lia. }
    exists [s]. split_and!; try done.
    + destruct fuel as [|fuel]; [lia|]. simpl.
      rewrite (tree_start_root _ _ _ _ Ht), reconstruct_undefined.
      destruct (truthy s); eauto.
    + intros Htr. rewrite Forall_singleton in Htr.
      destruct fuel as [|fuel]; [lia|]. simpl. rewrite Htr.
      rewrite (tree_start_root _ _ _ _ Ht), reconstruct_undefined. done.
  - assert (v ≠ s) as Hne.
    { intros ->. rewrite (tree_start_dep _ _ _ _ Ht) in Hd. done. }
    destruct (tree_parent _ _ _ _ Ht v Hv Hne) as (pv & Hpar & Hpv & Hstep & Hdep).
    destruct fuel as [|fuel]; [lia|].
    destruct (IH pv fuel (v :: acc)) as (p & Hh & Hl & Hc & Hlen & Hq & Hgood);
      [done|lia|lia|].
    exists (p ++ [v]). split_and!.
    + rewrite head_app, Hh. done.
    + apply last_snoc.
    + by eapply chain_snoc.
    + rewrite length_app. simpl. lia.
    + simpl. rewrite Hpar. destruct (truthy v); eauto.
    + intros [Hp Htv]%Forall_app. rewrite Forall_singleton in Htv.
      simpl. rewrite Htv, Hpar, <- app_assoc. simpl. auto.
Qed.

Lemma tree_nsteps dep st v :
  tree_inv g s dep st → v ∈ visited st → nsteps (step g) (dep v) s v.
Proof.
  intros Ht Hv.
  destruct (reconstruct_spec dep st (dep v) Ht v (S (dep v)) [] Hv eq_refl)
    as (p & Hh & Hl & Hc & Hlen & _); [lia|].
  replace (dep v) with (pred (length p)) by lia.
  by apply chain_nsteps.
Qed.

End reconstruction.

Section bfs.

Context (g : GraphAlgorithms) (s e : string).
Context (Hment : ∀ x y, step g x y → y ∈ mentioned g).

Implicit Types (dep : string → nat) (st : bfs_state) (c w v x y : string)
  (ns : list string).

Lemma sorted_dep_ext dep dep' (l : list string) :
  (∀ x, x ∈ l → dep' x = dep x) →
  StronglySorted (dep_le dep) l → StronglySorted (dep_le dep') l.
Proof.
  intros Heq Hso. induction Hso as [|a l Hl IH Ha]; [constructor|].
  constructor.
  - apply IH. intros x Hx. apply Heq. by right.
  - rewrite Forall_forall in Ha |- *. intros y Hy. unfold dep_le.
    rewrite !Heq; [by apply Ha|by right|by left].
Qed.

Lemma discover_tree dep c w st :
  tree_inv g s dep st → c ∈ visited st → w ∉ visited st → step g c w →
  tree_inv g s (set_dep dep w (S (dep c))) (discover c w st).
Proof.
  intros [Hs Hd0 Hroot Hpar Hdom Hsize] Hc Hw Hstep.
  assert (w ≠ s) as Hws by (intros ->; done).
  assert (c ≠ w) as Hcw by (intros ->; done).
  unfold set_dep. split; simpl.
  - set_solver.
  - by rewrite decide_False.
  - by rewrite lookup_insert_ne.
  - intros v Hv Hvs. destruct (decide (v = w)) as [->|Hvw].
    + exists c. rewrite lookup_insert_eq, (decide_False (P := c = w)) by done.
      split_and!; [done|set_solver|done|done].
    + assert (v ∈ visited st) as Hv' by set_solver.
      destruct (Hpar v Hv' Hvs) as (p & Hp & Hpv & Hpstep & Hpdep).
      exists p. rewrite lookup_insert_ne by done.
      assert (p ≠ w) by (intros ->; done).
      rewrite (decide_False (P := p = w)) by done.
      split_and!; [done|set_solver|done|done].
  - intros v Hv. rewrite lookup_insert_ne by set_solver.
    apply Hdom. set_solver.
  - intros v Hv. rewrite map_size_insert_None by (by apply Hdom).
    destruct (decide (v = w)) as [->|Hvw].
    + specialize (Hsize c Hc). lia.
    + assert (v ∈ visited st) as Hv' by set_solver.
      specialize (Hsize v Hv'). lia.
Qed.

Lemma inv_head_le dep c ns st q :
  bfs_inv g s e dep [c] ns st → q ∈ [c] ++ queue st → dep c ≤ dep q.
Proof.
  intros Hinv Hq. pose proof (inv_sorted _ _ _ _ _ _ _ Hinv) as Hso.
  simpl in *. apply StronglySorted_inv in Hso as [_ Hall].
  apply elem_of_cons in Hq as [->|Hq]; [done|].
  rewrite Forall_forall in Hall. by apply Hall.
Qed.

(** Any walk from [s] either stays inside the discovered nodes, where the
    depth is bounded by the number of steps, or is longer than the depth
    of the node being expanded. *)
Lemma inv_walk dep c ns st n x :
  bfs_inv g s e dep [c] ns st → nsteps (step g) n s x →
  (x ∈ visited st ∧ dep x ≤ n) ∨ dep c < n.
Proof.
  intros Hinv. revert x. induction n as [|n IH]; intros x Hn.
  - inversion Hn; subst. left.
    destruct (inv_tree _ _ _ _ _ _ _ Hinv) as [Hs Hd0 _ _ _ _].
    split; [done|lia].
  - apply nsteps_inv_r in Hn as (y & Hn & Hyx).
    destruct (IH y Hn) as [[Hy Hdy]|Hlt]; [|right; lia].
    destruct (decide (x ∈ visited st)) as [Hx|Hx].
    + left. split; [done|].
      pose proof (inv_lip _ _ _ _ _ _ _ Hinv y x Hy Hx Hyx). lia.
    + right. assert (y ∈ [c] ++ queue st) as Hyq.
      { destruct (decide (y ∈ queue st)) as [?|Hnq].
        - apply elem_of_app. by right.
        - destruct (inv_closed _ _ _ _ _ _ _ Hinv y x Hy Hnq Hyx) as [?|[? _]];
            [done|]. apply elem_of_app. by left. }
      pose proof (inv_head_le dep c ns st y Hinv Hyq). lia.
Qed.

Lemma inv_skip dep c w ns st :
  bfs_inv g s e dep [c] (w :: ns) st → w ∈ visited st →
  bfs_inv g s e dep [c] ns st.
Proof.
  intros [Ht He Htodo Hpend Hso Hlev Hlip Hcl Huni] Hw.
  split; try done.
  - intros c' w' Hc' Hw'. apply Htodo; [done|]. by right.
  - intros v w' Hv Hvq Hstep.
    destruct (Hcl v w' Hv Hvq Hstep) as [?|[Hvc Hw']]; [by left|].
    apply elem_of_cons in Hw' as [->|Hw']; [by left|by right].
Qed.

Lemma inv_discover dep c w ns st :
  bfs_inv g s e dep [c] (w :: ns) st → w ∉ visited st → w ≠ e →
  bfs_inv g s e (set_dep dep w (S (dep c))) [c] ns (discover c w st).
Proof.
  intros Hinv Hw Hwe.
  pose proof (inv_head_le dep c (w :: ns) st) as Hhead.
  specialize (λ q, Hhead q Hinv).
  destruct Hinv as [Ht He Htodo Hpend Hso Hlev Hlip Hcl Huni].
  assert (c ∈ visited st) as Hc by (apply Hpend; by left).
  assert (step g c w) as Hcw by (apply Htodo; by left).
  assert (∀ v, v ∈ visited st → set_dep dep w (S (dep c)) v = dep v) as Hdep.
  { intros v Hv. unfold set_dep. rewrite decide_False; [done|]. by intros ->. }
  assert (set_dep dep w (S (dep c)) w = S (dep c)) as Hdepw.
  { unfold set_dep. by rewrite decide_True. }
  split; simpl.
  - by apply discover_tree.
  - set_solver.
  - intros c' w' Hc' Hw'. apply Htodo; [done|]. by right.
  - intros q [->|[Hq| ->%list_elem_of_singleton]%elem_of_app]%elem_of_cons.
    + set_solver.
    + assert (q ∈ visited st) by (apply Hpend; by right). set_solver.
    + set_solver.
  - change (c :: queue st ++ [w]) with (([c] ++ queue st) ++ [w]).
    apply StronglySorted_app. split_and!.
    + intros x1 x2 Hx1 ->%list_elem_of_singleton. unfold dep_le.
      rewrite Hdepw, Hdep by (by apply Hpend).
      apply (Hlev c); [done|]. by apply Hpend.
    + eapply sorted_dep_ext; [|exact Hso].
      intros x Hx. apply Hdep, Hpend. done.
    + repeat constructor.
  - intros q v [= <-] Hv. rewrite (Hdep c Hc).
    apply elem_of_union in Hv as [->%elem_of_singleton|Hv].
    + rewrite Hdepw. lia.
    + rewrite Hdep by done. by apply (Hlev c).
  - intros x y Hx Hy Hxy.
    apply elem_of_union in Hx as [->%elem_of_singleton|Hx];
      apply elem_of_union in Hy as [->%elem_of_singleton|Hy].
    + lia.
    + rewrite Hdepw, Hdep by done. specialize (Hlev c y eq_refl Hy). lia.
    + rewrite Hdepw, Hdep by done.
      assert (x ∈ [c] ++ queue st) as Hxq.
      { destruct (decide (x ∈ queue st)) as [?|Hnq].
        - apply elem_of_app. by right.
        - destruct (Hcl x w Hx Hnq Hxy) as [?|[? _]]; [done|].
          apply elem_of_app. by left. }
      specialize (Hhead x Hxq). lia.
    + rewrite !Hdep by done. by apply Hlip.
  - intros v w' Hv Hvq Hstep.
    assert (v ≠ w) as Hvw.
    { intros ->. apply Hvq, elem_of_app. right. by apply list_elem_of_singleton. }
    assert (v ∈ visited st) as Hv' by set_solver.
    assert (v ∉ queue st) as Hvq'.
    { intros ?. apply Hvq, elem_of_app. by left. }
    destruct (Hcl v w' Hv' Hvq' Hstep) as [?|[Hvc Hw']]; [left; set_solver|].
    apply elem_of_cons in Hw' as [->|Hw']; [left; set_solver|by right].
  - apply Hment in Hcw. set_solver.
Qed.

Lemma budget_discover fuel c w st :
  w ∉ visited st → bfs_budget g s fuel st → bfs_budget g s fuel (discover c w st).
Proof.
  unfold bfs_budget. simpl. intros Hw Hb.
  rewrite length_app. rewrite (size_union {[w]} (visited st)) by set_solver.
  rewrite size_singleton. simpl. lia.
Qed.

Lemma inv_found dep c ns st :
  bfs_inv g s e dep [c] (e :: ns) st →
  ∃ r, path_result (parent (discover c e st)) e = Normal r ∧ found_post g s e r.
Proof.
  intros Hinv.
  pose proof (inv_end _ _ _ _ _ _ _ Hinv) as He.
  assert (c ∈ visited st) as Hc by (apply (inv_pending _ _ _ _ _ _ _ Hinv); by left).
  assert (step g c e) as Hce by (apply (inv_todo _ _ _ _ _ _ _ Hinv); by left).
  pose proof (discover_tree dep c e st (inv_tree _ _ _ _ _ _ _ Hinv) Hc He Hce) as Ht.
  set (dep' := set_dep dep e (S (dep c))) in *.
  set (st' := discover c e st) in *.
  assert (e ∈ visited st') as He' by (unfold st'; simpl; set_solver).
  assert (dep' e = S (dep c)) as Hde by (unfold dep', set_dep; by rewrite decide_True).
  destruct (reconstruct_spec g s dep' st' (S (dep c)) Ht e (S (size (parent st'))) [] He' Hde)
    as (p & Hh & Hl & Hch & Hlen & (q & Hq) & Hgood).
  { pose proof (tree_size _ _ _ _ Ht e He'). lia. }
  unfold path_result. rewrite Hq. simpl. eexists. split; [done|].
  exists p. split_and!; simpl; try done.
  - intros n Hn.
    destruct (inv_walk dep c (e :: ns) st n e Hinv Hn) as [[? _]|?]; [done|lia].
  - intros Htr. specialize (Hgood Htr). rewrite Hq in Hgood.
    injection Hgood as ->. by rewrite app_nil_r.
Qed.

Lemma scan_spec fuel c ns : ∀ dep st,
  bfs_inv g s e dep [c] ns st → bfs_budget g s fuel st →
  match scan_neighbors e c ns st with
  | Normal (inl r) => found_post g s e r
  | Normal (inr st') => ∃ dep', bfs_inv g s e dep' [c] [] st' ∧ bfs_budget g s fuel st'
  | _ => False
  end.
Proof.
  induction ns as [|w ns IH]; intros dep st Hinv Hb; cbn [scan_neighbors].
  - eauto.
  - destruct (decide (w ∈ visited st)) as [Hw|Hw].
    + apply (IH dep); [by eapply inv_skip|done].
    + destruct (decide (w = e)) as [->|Hwe].
      * destruct (inv_found dep c ns st Hinv) as (r & -> & Hr). done.
      * apply (IH (set_dep dep w (S (dep c)))).
        -- by apply inv_discover.
        -- by apply budget_discover.
Qed.

Lemma inv_expand dep c rest vis par :
  bfs_inv g s e dep [] [] (mkBfs (c :: rest) vis par) →
  bfs_inv g s e dep [c] (neighbors g c) (mkBfs rest vis par).
Proof.
  intros [Ht He Htodo Hpend Hso Hlev Hlip Hcl Huni]. simpl in *.
  split; simpl; try done.
  - destruct Ht. by split.
  - intros c' w ->%list_elem_of_singleton Hw. done.
  - intros v w Hv Hvq Hstep. destruct (decide (v = c)) as [->|Hvc].
    + right. split; [by left|done].
    + destruct (Hcl v w Hv) as [?|[[]%elem_of_nil _]]; [|done|by left].
      by intros [?|?]%elem_of_cons.
Qed.

Lemma inv_finish dep c st :
  bfs_inv g s e dep [c] [] st → bfs_inv g s e dep [] [] st.
Proof.
  intros Hinv. pose proof (inv_head_le dep c [] st) as Hhead.
  specialize (λ q, Hhead q Hinv).
  destruct Hinv as [Ht He Htodo Hpend Hso Hlev Hlip Hcl Huni]. simpl in *.
  split; simpl; try done.
  - intros c' w []%elem_of_nil.
  - intros q Hq. apply Hpend. by right.
  - by apply StronglySorted_inv in Hso as [? _].
  - intros q v Hq Hv. specialize (Hlev c v eq_refl Hv).
    assert (q ∈ c :: queue st) as Hqq.
    { right. destruct (queue st); [done|]. injection Hq as ->. by left. }
    specialize (Hhead q Hqq). lia.
  - intros v w Hv Hvq Hstep.
    destruct (Hcl v w Hv Hvq Hstep) as [?|[_ []%elem_of_nil]]. by left.
Qed.

Lemma inv_exhausted dep st :
  bfs_inv g s e dep [] [] st → queue st = [] → ∀ n, ¬ nsteps (step g) n s e.
Proof.
  intros Hinv Hq n Hn.
  assert (∀ m x, nsteps (step g) m s x → x ∈ visited st) as Hall.
  { induction m as [|m IH]; intros x Hm.
    - inversion Hm; subst. apply (tree_start _ _ _ _ (inv_tree _ _ _ _ _ _ _ Hinv)).
    - apply nsteps_inv_r in Hm as (y & Hm & Hyx).
      destruct (inv_closed _ _ _ _ _ _ _ Hinv y x (IH y Hm)) as [?|[[]%elem_of_nil _]];
        [|done|done].
      rewrite Hq. apply not_elem_of_nil. }
  apply (inv_end _ _ _ _ _ _ _ Hinv). by eapply Hall.
Qed.

Lemma bfs_loop_spec fuel : ∀ dep st,
  bfs_inv g s e dep [] [] st → bfs_budget g s fuel st →
  bfs_post g s e (bfs_loop fuel g e st).
Proof.
  induction fuel as [|fuel IH]; intros dep st Hinv Hb.
  - exfalso. unfold bfs_budget in Hb.
    pose proof (subseteq_size _ _ (inv_universe _ _ _ _ _ _ _ Hinv)). lia.
  - simpl. destruct st as [q vis par]. simpl.
    destruct q as [|c rest].
    + simpl. by eapply inv_exhausted.
    + pose proof (scan_spec fuel c (neighbors g c) dep (mkBfs rest vis par)
                    (inv_expand _ _ _ _ _ Hinv)) as Hscan.
      destruct (scan_neighbors e c (neighbors g c) (mkBfs rest vis par))
        as [[r|st']| |]; simpl.
      * apply Hscan. unfold bfs_budget in *. simpl in *. lia.
      * destruct Hscan as (dep' & Hinv' & Hb').
        { unfold bfs_budget in *. simpl in *. lia. }
        apply (IH dep'); [by eapply inv_finish|done].
      * apply Hscan. unfold bfs_budget in *. simpl in *. lia.
      * apply Hscan. unfold bfs_budget in *. simpl in *. lia.
Qed.

Lemma bfs_init :
  s ≠ e → bfs_inv g s e (λ _, 0) [] [] (mkBfs [s] {[s]} ∅)
          ∧ bfs_budget g s (bfs_fuel g) (mkBfs [s] {[s]} ∅).
Proof.
  intros Hse. split.
  - split; simpl.
    + split; simpl; [set_solver|done|done| |done|lia].
      intros v ->%elem_of_singleton Hv. done.
    + set_solver.
    + intros c w []%elem_of_nil.
    + intros q ->%list_elem_of_singleton. set_solver.
    + repeat constructor.
    + intros. lia.
    + intros. lia.
    + intros v w ->%elem_of_singleton Hv. exfalso. apply Hv. by left.
    + set_solver.
  - unfold bfs_budget, bfs_fuel. cbn [queue visited length].
    rewrite size_union_alt, !size_singleton.
    pose proof (subseteq_size (mentioned g ∖ {[s]}) (mentioned g)) as Hsz.
    assert (mentioned g ∖ {[s]} ⊆ mentioned g) as Hsub by set_solver.
    specialize (Hsz Hsub). lia.
Qed.

(** The search: it always completes, with [null] exactly when no walk
    along the adjacency index leads from [s] to [e]. *)
Lemma findShortestPath_post :
  s ≠ e → bfs_post g s e (findShortestPath g s e).
Proof.
  intros Hse. unfold findShortestPath. rewrite decide_False by done.
  destruct (bfs_init Hse) as [Hinv Hb]. by eapply bfs_loop_spec.
Qed.

End bfs.

(** ** Walks of the index and paths of the graph *)

Section paths.

Context (us : list User.t) (fs : list Friendship.t).

Implicit Types (p : list string) (a b x y : string).

Lemma step_engine x y :
  step (engine us fs) x y ↔ x ∈ ids us ∧ linked fs x y.
Proof. apply elem_of_neighbors. Qed.

Lemma step_mentioned x y :
  step (engine us fs) x y → y ∈ mentioned (engine us fs).
Proof.
  intros [_ (f & Hf & H)]%step_engine. unfold mentioned. simpl.
  apply elem_of_union. rewrite !elem_of_list_to_set, !list_elem_of_fmap.
  destruct H as [[_ <-]|[<- _]]; eauto.
Qed.

Lemma path_chain_step p :
  Forall (λ x, x ∈ ids us) p → chain (linked fs) p → chain (step (engine us fs)) p.
Proof.
  induction p as [|x [|y p] IH]; simpl; [done..|].
  intros Hall [Hxy Hc]. split.
  - apply step_engine. split; [|done]. by apply Forall_inv in Hall.
  - apply IH; [|done]. by apply Forall_inv_tail in Hall.
Qed.

Lemma chain_step_path p b :
  chain (step (engine us fs)) p → last p = Some b → b ∈ ids us →
  Forall (λ x, x ∈ ids us) p ∧ chain (linked fs) p.
Proof.
  induction p as [|x [|y p] IH]; simpl; intros Hc Hl Hb.
  - done.
  - injection Hl as ->. split; [|done]. by constructor.
  - destruct Hc as [[Hx Hxy]%step_engine Hc].
    destruct (IH Hc Hl Hb) as [Hall Hch]. split; [by constructor|done].
Qed.

Lemma path_in_nsteps a b p :
  path_in us fs a b p → nsteps (step (engine us fs)) (pred (length p)) a b.
Proof.
  intros (Hh & Hl & Hall & Hc). apply chain_nsteps; [|done..].
  by apply path_chain_step.
Qed.

Lemma reachable_nsteps a b :
  reachable us fs a b → ∃ n, nsteps (step (engine us fs)) n a b.
Proof. intros (p & Hp). eexists. by apply path_in_nsteps. Qed.

Lemma nsteps_reachable n a b :
  nsteps (step (engine us fs)) n a b → b ∈ ids us → reachable us fs a b.
Proof.
  intros (p & Hc & Hh & Hl & _)%nsteps_chain Hb.
  destruct (chain_step_path p b Hc Hl Hb) as [Hall Hch].
  exists p. done.
Qed.

Lemma path_in_nonempty a b p : path_in us fs a b p → 0 < length p.
Proof. intros (Hh & _). destruct p; [done|simpl; lia]. Qed.

Lemma reachable_present a b : reachable us fs a b → a ∈ ids us ∧ b ∈ ids us.
Proof.
  intros (p & Hh & Hl & Hall & _). rewrite Forall_forall in Hall.
  split; apply Hall.
  - destruct p; [done|]. injection Hh as ->. by left.
  - by apply last_Some_elem_of.
Qed.

End paths.

(** ** Claims C1, C6, C8: findShortestPath *)

(** The search completes on every engine and every pair of distinct ids. *)
Lemma findShortestPath_engine_post us fs s e :
  s ≠ e → bfs_post (engine us fs) s e (findShortestPath (engine us fs) s e).
Proof. apply findShortestPath_post. apply step_mentioned. Qed.

(** C8: for present nodes [s] and [e], [findShortestPath] completes
    normally, and its value is [null] exactly when no path of the graph
    leads from [s] to [e]. *)
Theorem C8_not_found_iff_unreachable us fs s e :
  s ∈ ids us → e ∈ ids us →
  (∃ r, findShortestPath (engine us fs) s e = Normal r)
  ∧ (findShortestPath (engine us fs) s e = Normal None ↔ ¬ reachable us fs s e).
Proof.
  intros Hs He. destruct (decide (s = e)) as [->|Hse].
  - unfold findShortestPath. rewrite decide_True by done.
    split; [eauto|]. split; [done|]. intros Hn. exfalso. apply Hn.
    exists [e]. split_and!; [done|done| |done]. by apply Forall_singleton.
  - pose proof (findShortestPath_engine_post us fs s e Hse) as Hpost.
    destruct (findShortestPath (engine us fs) s e) as [[r|]| |]; simpl in Hpost;
      try done.
    + split; [eauto|]. split; [done|]. intros Hn. exfalso. apply Hn.
      destruct Hpost as (p & Hh & Hl & Hc & _).
      apply (nsteps_reachable us fs (pred (length p))); [|done].
      by apply chain_nsteps.
    + split; [eauto|]. split; [|done]. intros _ (n & Hn)%reachable_nsteps.
      by apply (Hpost n).
Qed.

Lemma C8_not_found_iff_unreachable_witness :
  let us := [User.mk "a" "A"; User.mk "b" "B"; User.mk "c" "C"] in
  let fs := [Friendship.mk "a" "b"] in
  "a" ∈ ids us ∧ "c" ∈ ids us
  ∧ (findShortestPath (engine us fs) "a" "c" = Normal None
     ↔ ¬ reachable us fs "a" "c").
Proof.
  intros us fs.
  assert (Ha : "a" ∈ ids us) by (apply (bool_decide_unpack _); vm_compute; exact I).
  assert (Hc : "c" ∈ ids us) by (apply (bool_decide_unpack _); vm_compute; exact I).
  split_and!; [exact Ha|exact Hc|].
  exact (proj2 (C8_not_found_iff_unreachable us fs "a" "c" Ha Hc)).
Defined.

(** C6, as stated, fails: a query about ids that are not nodes returns a
    [PathResult] (equal ids) or [null] (distinct ids). *)
Lemma C6_counterexample :
  let g := engine [User.mk "a" "A"] [] in
  findShortestPath g "x" "x" = Normal (Some (PathResult.mk ["x"] 0))
  ∧ findShortestPath g "x" "a" = Normal None
  ∧ findShortestPath g "x" "x" ≠ Throw UnknownNode
  ∧ findShortestPath g "x" "a" ≠ Throw UnknownNode.
Proof. intros g. split_and!; [by vm_compute..|discriminate|by vm_compute]. Qed.

(** C6 (amended): when [start] or [end] is not a node, [findShortestPath]
    raises no error: it completes with a result.  It returns the one-node
    path of distance 0 when the two ids are equal; it returns [null] when
    they differ and [start] is absent, and also when they differ and every
    edge joins two present ids.  In every case with two different ids, and
    so too when [start] is present, [end] is absent and an edge names an
    absent id, it returns [null] exactly when no chain of stored neighbor
    links leads from [start] to [end]. *)
Theorem C6_unknown_node_no_error us fs s e :
  s ∉ ids us ∨ e ∉ ids us →
  let r := findShortestPath (engine us fs) s e in
  (∃ v, r = Normal v)
  ∧ (s = e → r = Normal (Some (PathResult.mk [s] 0)))
  ∧ (s ≠ e → s ∉ ids us → r = Normal None)
  ∧ (s ≠ e → edges_present us fs → r = Normal None)
  ∧ (s ≠ e →
       (r = Normal None ↔ ∀ n, ¬ nsteps (step (engine us fs)) n s e)).
Proof.
  intros Habs r. split_and!.
  - destruct (decide (s = e)) as [->|Hse].
    + unfold r, findShortestPath. rewrite decide_True by done. eauto.
    + pose proof (findShortestPath_engine_post us fs s e Hse) as Hpost.
      fold r in Hpost. destruct r as [v| |]; simpl in Hpost; [eauto|done|done].
  - intros ->. unfold r, findShortestPath. by rewrite decide_True.
  - intros Hse Hs. pose proof (findShortestPath_engine_post us fs s e Hse) as Hpost.
    fold r in Hpost. destruct r as [[res|]| |]; simpl in Hpost; try done.
    exfalso. destruct Hpost as (p & Hh & Hl & Hc & _).
    pose proof (chain_nsteps _ p s e Hc Hh Hl) as Hn.
    inversion Hn as [|n x y z Hxy Hrest]; subst; [done|].
    by apply step_engine in Hxy as [? _].
  - intros Hse Hp. pose proof (findShortestPath_engine_post us fs s e Hse) as Hpost.
    fold r in Hpost. destruct r as [[res|]| |]; simpl in Hpost; try done.
    exfalso. destruct Hpost as (p & Hh & Hl & Hc & _).
    pose proof (chain_nsteps _ p s e Hc Hh Hl) as Hn.
    destruct (pred (length p)) as [|n]; [by inversion Hn|].
    assert (s ∈ ids us) as Hs.
    { inversion Hn as [|? ? z ? Hsz _]; subst.
      by apply step_engine in Hsz as [? _]. }
    apply nsteps_inv_r in Hn as (y & _ & [Hy Hye]%step_engine).
    destruct (linked_present us fs y e Hp Hye) as [_ He]. tauto.
  - intros Hse. pose proof (findShortestPath_engine_post us fs s e Hse) as Hpost.
    fold r in Hpost. destruct r as [[res|]| |]; simpl in Hpost; try done.
    destruct Hpost as (p & Hh & Hl & Hc & _).
    pose proof (chain_nsteps _ p s e Hc Hh Hl) as Hn.
    split; [done|]. intros Hno. by destruct (Hno _ Hn).
Qed.

Lemma C6_unknown_node_no_error_witness :
  let us := [User.mk "a" "A"; User.mk "b" "B"] in
  let fs := [Friendship.mk "a" "b"] in
  let fs' := [Friendship.mk "a" "b"; Friendship.mk "a" "z"] in
  (("a" ∉ ids us ∨ "zz" ∉ ids us)
   ∧ findShortestPath (engine us fs) "a" "zz" = Normal None)
  ∧ (("a" ∉ ids us ∨ "z" ∉ ids us)
     ∧ ∃ v, findShortestPath (engine us fs') "a" "z" = Normal v).
Proof.
  intros us fs fs'.
  assert (Habs : "a" ∉ ids us ∨ "zz" ∉ ids us).
  { right. apply (bool_decide_unpack _). vm_compute. exact I. }
  assert (Habs' : "a" ∉ ids us ∨ "z" ∉ ids us).
  { right. apply (bool_decide_unpack _). vm_compute. exact I. }
  split; (split; [assumption|]).
  - refine (proj1 (proj2 (proj2 (proj2
      (C6_unknown_node_no_error us fs "a" "zz" Habs)))) _ _).
    + discriminate.
    + apply (bool_decide_unpack _). vm_compute. exact I.
  - exact (proj1 (C6_unknown_node_no_error us fs' "a" "z" Habs')).
Defined.

(** The case that the three equations leave open: [a] is a node, [z] is
    not, and an edge names [z].  The query completes, here with the path
    over that edge. *)
Lemma findShortestPath_absent_end_reached :
  findShortestPath (engine [User.mk "a" "A"] [Friendship.mk "a" "z"]) "a" "z"
  = Normal (Some (PathResult.mk ["a"; "z"] 1)).
Proof. by vm_compute. Qed.

(** The shortest-path property, for node ids that are all truthy (not the
    empty string): when [e] is reachable from [s ≠ e], the result is a path
    of the graph from [s] to [e], [distance] is its number of edges, and no
    path of the graph from [s] to [e] is shorter. *)
Lemma findShortestPath_shortest us fs s e :
  (∀ x, x ∈ ids us → x ≠ EmptyString) →
  s ≠ e → reachable us fs s e →
  ∃ r, findShortestPath (engine us fs) s e = Normal (Some r)
       ∧ path_in us fs s e (PathResult.path r)
       ∧ PathResult.distance r = (Z.of_nat (length (PathResult.path r)) - 1)%Z
       ∧ ∀ p, path_in us fs s e p → length (PathResult.path r) ≤ length p.
Proof.
  intros Hids Hse Hreach.
  destruct (reachable_present us fs s e Hreach) as [Hs He].
  pose proof (findShortestPath_engine_post us fs s e Hse) as Hpost.
  destruct (findShortestPath (engine us fs) s e) as [[r|]| |]; simpl in Hpost;
    try done.
  - destruct Hpost as (p & Hh & Hl & Hc & Hmin & Hdist & Hgood).
    destruct (chain_step_path us fs p e Hc Hl He) as [Hall Hch].
    assert (PathResult.path r = p) as Hp.
    { apply Hgood. eapply Forall_impl; [exact Hall|]. simpl. intros x Hx.
      unfold truthy. apply negb_true_iff, String.eqb_neq. by apply Hids. }
    exists r. rewrite Hp in *. split_and!; [done|by split_and!|done|].
    intros p' Hp'. pose proof (path_in_nonempty us fs s e p' Hp').
    specialize (Hmin _ (path_in_nsteps us fs s e p' Hp')). lia.
  - exfalso. destruct (reachable_nsteps us fs s e Hreach) as (n & Hn).
    by apply (Hpost n).
Qed.

(** C1, code defect: the path reconstruction tests [while (node)], which
    stops on the empty string.  In the valid graph whose nodes are the empty
    string and [a], with the edge between them, [a] is reachable from the
    empty string, and the query returns the one-node path [a] with distance
    0: the path does not begin at the start node.  In the other direction
    the returned path is empty and the distance is -1. *)
Theorem C1_empty_id_truncates_path :
  let us := [User.mk EmptyString "Anonymous"; User.mk "a" "A"] in
  let fs := [Friendship.mk EmptyString "a"] in
  valid_graph us fs
  ∧ reachable us fs EmptyString "a"
  ∧ findShortestPath (engine us fs) EmptyString "a" = Normal (Some (PathResult.mk ["a"] 0))
  ∧ findShortestPath (engine us fs) "a" EmptyString = Normal (Some (PathResult.mk [] (-1))).
Proof.
  intros us fs. split_and!.
  - apply (bool_decide_unpack _). vm_compute. exact I.
  - exists [EmptyString; "a"]. split_and!; [done|done| |].
    + apply (bool_decide_unpack _). vm_compute. exact I.
    + simpl. split; [|done]. exists (Friendship.mk EmptyString "a").
      split; [by left|]. by left.
  - by vm_compute.
  - by vm_compute.
Qed.

(** ** Depth-first search *)

Section dfs.

Context (g : GraphAlgorithms).

Implicit Types (vis : gset string) (stack community ns : list string)
  (u v w x : string).

Lemma elem_of_push_unvisited ns vis stack x :
  x ∈ push_unvisited ns vis stack ↔ x ∈ stack ∨ (x ∈ ns ∧ x ∉ vis).
Proof.
  unfold push_unvisited. revert stack.
  induction ns as [|n ns IH]; intros stack; simpl.
  - split; [auto|]. intros [?|[?%elem_of_nil _]]; done.
  - rewrite IH. destruct (decide (n ∈ vis)) as [Hn|Hn].
    + split; [intros [?|[? ?]]; [by left|right; split; [by right|done]]|].
      intros [?|[[->|?]%elem_of_cons ?]]; [by left|done|by right].
    + rewrite !elem_of_cons. split.
      * intros [[->|?]|[? ?]]; [right; split; [by left|done]|by left|].
        right. split; [by right|done].
      * intros [?|[[->|?] ?]]; [left; by right|left; by left|by right].
Qed.

Lemma length_push_unvisited ns vis stack :
  length (push_unvisited ns vis stack) ≤ length stack + length ns.
Proof.
  unfold push_unvisited. revert stack.
  induction ns as [|n ns IH]; intros stack; simpl; [lia|].
  etrans; [apply IH|]. case_decide; simpl; lia.
Qed.

Lemma weight_mono vis vis' (l : list (string * list string)) :
  vis ⊆ vis' →
  sum_list (entry_weight vis' <$> l) ≤ sum_list (entry_weight vis <$> l).
Proof.
  intros Hsub. induction l as [|kv l IH]; csimpl; [done|].
  unfold entry_weight at 1 3. repeat case_decide; try lia.
  exfalso. set_solver.
Qed.

Lemma weight_visit vis c lc (l : list (string * list string)) :
  c ∉ vis → (c, lc) ∈ l →
  sum_list (entry_weight ({[c]} ∪ vis) <$> l) + length lc
  ≤ sum_list (entry_weight vis <$> l).
Proof.
  intros Hc. induction l as [|kv l IH]; csimpl.
  - by intros ?%elem_of_nil.
  - intros [<-|Hin]%elem_of_cons.
    + unfold entry_weight at 1 3. simpl.
      rewrite decide_True by set_solver. rewrite decide_False by done.
      assert (vis ⊆ {[c]} ∪ vis) as Hs by set_solver.
      pose proof (weight_mono vis ({[c]} ∪ vis) l Hs). lia.
    + specialize (IH Hin). unfold entry_weight at 1 3.
      repeat case_decide; try lia. exfalso. set_solver.
Qed.

Lemma pending_entries_visit vis c :
  c ∉ vis →
  pending_entries g ({[c]} ∪ vis) + length (neighbors g c) ≤ pending_entries g vis.
Proof.
  intros Hc. unfold pending_entries, neighbors.
  destruct (adjacencyList g !! c) as [lc|] eqn:E; cbn [default length].
  - apply (weight_visit vis c lc); [done|]. by apply elem_of_map_to_list.
  - pose proof (weight_mono vis ({[c]} ∪ vis) (map_to_list (adjacencyList g))) as H.
    assert (vis ⊆ {[c]} ∪ vis) as Hs by set_solver. specialize (H Hs). lia.
Qed.

Lemma pending_entries_mono vis : pending_entries g vis ≤ pending_entries g ∅.
Proof.
  apply (weight_mono ∅ vis). set_solver.
Qed.

Lemma dfs_loop_spec u vis0 fuel : ∀ stack vis community,
  dfs_inv g u vis0 stack vis community →
  length stack + pending_entries g vis < fuel →
  ∃ r, dfs_loop fuel g stack vis community = Normal r ∧ dfs_post g u vis0 r.
Proof.
  induction fuel as [|fuel IH]; intros stack vis community Hinv Hfuel; [lia|].
  destruct Hinv as [Hvis Hnd Hfresh Hreach Hcl Hroot Hu]. simpl.
  destruct stack as [|current stack].
  - eexists. split; [done|]. simpl. split_and!; try done.
    + intros x Hx. apply Hreach. by right.
    + intros v w Hv Hvw. destruct (Hcl v w Hv Hvw) as [?|?%elem_of_nil]; done.
    + destruct Hroot as [?%elem_of_nil|?]; done.
  - destruct (decide (current ∈ vis)) as [Hc|Hc].
    + apply IH; [|simpl in Hfuel; lia]. split; try done.
      * intros x [Hx|Hx]; apply Hreach; [left; by right|by right].
      * intros v w Hv Hvw.
        destruct (Hcl v w Hv Hvw) as [?|[->|?]%elem_of_cons]; auto.
      * destruct Hroot as [[->|?]%elem_of_cons|?]; auto.
        apply Hvis in Hc as [?|?]; [done|by right].
    + assert (current ∉ community) as Hcc.
      { intros ?. apply Hc, Hvis. by right. }
      assert (current ∉ vis0) as Hc0.
      { intros ?. apply Hc, Hvis. by left. }
      apply IH.
      * split; try done.
        -- intros x. rewrite elem_of_union, elem_of_singleton, elem_of_app,
             list_elem_of_singleton, Hvis. tauto.
        -- apply NoDup_app. split_and!; [done| |apply NoDup_singleton].
           intros x Hx ->%list_elem_of_singleton. done.
        -- intros x [?| ->%list_elem_of_singleton]%elem_of_app; auto.
        -- assert (connected g u current) as Huc by (apply Hreach; left; by left).
           intros x [[Hx|[Hx _]]%elem_of_push_unvisited|Hx].
           ++ apply Hreach. left. by right.
           ++ eapply rtc_r; [exact Huc|exact Hx].
           ++ apply elem_of_app in Hx as [?| ->%list_elem_of_singleton]; [|done].
              apply Hreach. by right.
        -- intros v w [Hv| ->%list_elem_of_singleton]%elem_of_app Hvw.
           ++ destruct (Hcl v w Hv Hvw) as [?|[->|?]%elem_of_cons].
              ** left. set_solver.
              ** left. set_solver.
              ** right. apply elem_of_push_unvisited. by left.
           ++ destruct (decide (w ∈ {[current]} ∪ vis)) as [?|Hw]; [by left|].
              right. apply elem_of_push_unvisited. right. done.
        -- destruct Hroot as [[->|?]%elem_of_cons|?].
           ++ right. apply elem_of_app. right. by apply list_elem_of_singleton.
           ++ left. apply elem_of_push_unvisited. by left.
           ++ right. apply elem_of_app. by left.
      * pose proof (length_push_unvisited (neighbors g current)
                      ({[current]} ∪ vis) stack).
        pose proof (pending_entries_visit vis current Hc).
        simpl in Hfuel. lia.
Qed.

Lemma dfsVisit_spec u vis0 :
  u ∉ vis0 → ∃ r, dfsVisit g u vis0 = Normal r ∧ dfs_post g u vis0 r.
Proof.
  intros Hu. apply dfs_loop_spec.
  - split; try done.
    + intros x. split; [auto|]. intros [?|?%elem_of_nil]; done.
    + apply NoDup_nil_2.
    + intros x ?%elem_of_nil. done.
    + intros x [->%list_elem_of_singleton|?%elem_of_nil]; [|done]. apply rtc_refl.
    + intros v w ?%elem_of_nil. done.
    + left. by left.
  - unfold dfs_fuel. pose proof (pending_entries_mono vis0). simpl. lia.
Qed.

End dfs.

(** ** findCommunities *)

Section communities.

Context (g : GraphAlgorithms).
Context (Hsym : ∀ x y, step g x y → step g y x).

Implicit Types (vis : gset string) (seen community : list string)
  (cs : list Community.t) (u v w x y : string).

Lemma connected_sym x y : connected g x y → connected g y x.
Proof.
  unfold connected. induction 1 as [|x y z Hxy _ IH]; [done|].
  eapply rtc_r; [exact IH|]. by apply Hsym.
Qed.

Lemma connected_trans x y z : connected g x y → connected g y z → connected g x z.
Proof. unfold connected. apply rtc_trans. Qed.

(** With a symmetric index, [dfsVisit] returns the whole class of [u]. *)
Lemma dfs_class u vis0 seen community vis :
  (∀ x, x ∈ vis0 ↔ ∃ v, v ∈ seen ∧ connected g v x) →
  u ∉ vis0 →
  dfs_post g u vis0 (community, vis) →
  (∀ x, x ∈ community ↔ connected g u x)
  ∧ (∀ x, x ∈ vis ↔ ∃ v, v ∈ seen ++ [u] ∧ connected g v x).
Proof.
  intros Hvis0 Hu (Hvis & Hnd & Hfresh & Hreach & Hcl & Hroot).
  assert (∀ x, connected g u x → x ∈ vis) as Hall.
  { intros x Hx. unfold connected in Hx.
    revert x Hx. apply (rtc_ind_r (λ x, x ∈ vis)).
    - apply Hvis. by right.
    - intros y z Huy Hyz Hy. apply Hvis in Hy as [Hy|Hy].
      + apply Hvis. left. apply Hvis0 in Hy as (v & Hv & Hvy).
        apply Hvis0. exists v. split; [done|]. by eapply rtc_r.
      + by eapply Hcl. }
  assert (∀ x, x ∈ community ↔ connected g u x) as Hclass.
  { intros x. split; [apply Hreach|]. intros Hx.
    destruct (proj1 (Hvis x) (Hall x Hx)) as [Hx0|?]; [|done].
    exfalso. apply Hu. apply Hvis0 in Hx0 as (v & Hv & Hvx).
    apply Hvis0. exists v. split; [done|].
    eapply connected_trans; [exact Hvx|]. by apply connected_sym. }
  split; [done|]. intros x. rewrite Hvis, Hvis0, Hclass. split.
  - intros [(v & Hv & Hvx)|Hux].
    + exists v. split; [|done]. apply elem_of_app. by left.
    + exists u. split; [|done]. apply elem_of_app. right.
      by apply list_elem_of_singleton.
  - intros (v & [Hv| ->%list_elem_of_singleton]%elem_of_app & Hvx); eauto.
Qed.

Lemma communities_inv_old seen vis cs u :
  communities_inv g seen vis cs → u ∈ vis →
  communities_inv g (seen ++ [u]) vis cs.
Proof.
  intros [Hvis Hcov Hclass Hdis] Hu. split; try done.
  - intros x. rewrite Hvis. split.
    + intros (v & Hv & Hvx). exists v. split; [|done]. apply elem_of_app. by left.
    + intros (v & [Hv| ->%list_elem_of_singleton]%elem_of_app & Hvx); [eauto|].
      apply Hvis in Hu as (v & Hv & Hvu). exists v. split; [done|].
      by eapply connected_trans.
  - intros c Hc. destruct (Hclass c Hc) as (v & Hv & Hcl).
    exists v. split; [|done]. apply elem_of_app. by left.
Qed.

Lemma communities_inv_new seen vis cs u community vis' cid col :
  communities_inv g seen vis cs → u ∉ vis →
  dfs_post g u vis (community, vis') →
  communities_inv g (seen ++ [u]) vis' (cs ++ [Community.mk cid community col]).
Proof.
  intros [Hvis Hcov Hclass Hdis] Hu Hpost.
  destruct (dfs_class u vis seen community vis' Hvis Hu Hpost) as [Hcl Hvis'].
  destruct Hpost as (Hv' & _ & Hfresh & _).
  split.
  - done.
  - intros x. rewrite Hv', Hcov. split.
    + intros [(c & Hc & Hx)|Hx].
      * exists c. split; [|done]. apply elem_of_app. by left.
      * eexists. split; [apply elem_of_app; right; by apply list_elem_of_singleton|].
        done.
    + intros (c & [Hc| ->%list_elem_of_singleton]%elem_of_app & Hx); [eauto|].
      by right.
  - intros c [Hc| ->%list_elem_of_singleton]%elem_of_app.
    + destruct (Hclass c Hc) as (v & Hv & Hc').
      exists v. split; [|done]. apply elem_of_app. by left.
    + exists u. split; [|done]. apply elem_of_app. right.
      by apply list_elem_of_singleton.
  - intros i j c d x Hi Hj Hij Hxc Hxd.
    apply lookup_snoc_Some in Hi as [[Hi Hic]|[Hi <-]];
      apply lookup_snoc_Some in Hj as [[Hj Hjd]|[Hj <-]]; simpl in *.
    + by eapply (Hdis i j c d x).
    + apply (Hfresh x Hxd). apply Hcov. exists c. split; [|done].
      by eapply list_elem_of_lookup_2.
    + apply (Hfresh x Hxc). apply Hcov. exists d. split; [|done].
      by eapply list_elem_of_lookup_2.
    + lia.
Qed.

Lemma communities_loop_spec rest : ∀ seen vis cs cid,
  communities_inv g seen vis cs →
  ∃ cs' vis' n,
    communities_loop g rest vis cs cid = Normal cs'
    ∧ communities_inv g (seen ++ ids rest) vis' cs'
    ∧ sweep g (ids rest) seen n
    ∧ length cs' = length cs + n.
Proof.
  induction rest as [|user rest IH]; intros seen vis cs cid Hinv; simpl.
  - exists cs, vis, 0. rewrite app_nil_r. split_and!; [done|done|constructor|lia].
  - replace (seen ++ User.id user :: ids rest)
      with ((seen ++ [User.id user]) ++ ids rest) by (by rewrite <- app_assoc).
    destruct (decide (User.id user ∈ vis)) as [Hu|Hu].
    + destruct (IH (seen ++ [User.id user]) vis cs cid) as (cs' & vis' & n & He & Hi & Hs & Hl).
      { by apply communities_inv_old. }
      exists cs', vis', n. split_and!; [done|done| |done].
      apply sweep_old; [|done]. by apply (cinv_vis _ _ _ _ Hinv).
    + destruct (dfsVisit_spec g (User.id user) vis Hu) as ([community vis1] & -> & Hpost).
      simpl.
      assert (User.id user ∈ community) as Hin by (by destruct Hpost as (_&_&_&_&_&?)).
      assert ((0 <? length community) = true) as ->.
      { apply Nat.ltb_lt. destruct community; [by apply elem_of_nil in Hin|simpl; lia]. }
      destruct (IH (seen ++ [User.id user]) vis1
                  (cs ++ [Community.mk cid community (color_of cid)]) (S cid))
        as (cs' & vis' & n & He & Hi & Hs & Hl).
      { by apply (communities_inv_new seen vis). }
      exists cs', vis', (S n). split_and!; [done|done| |].
      * apply sweep_new; [|done]. intros Hex. by apply Hu, (cinv_vis _ _ _ _ Hinv).
      * rewrite Hl, length_app. simpl. lia.
Qed.

Lemma findCommunities_spec :
  ∃ cs vis,
    findCommunities g = Normal cs
    ∧ communities_inv g (ids (users g)) vis cs
    ∧ sweep g (ids (users g)) [] (length cs).
Proof.
  destruct (communities_loop_spec (users g) [] ∅ [] 0) as (cs & vis & n & He & Hi & Hs & Hl).
  - split.
    + intros x. split; [by intros ?%elem_of_empty|].
      intros (v & ?%elem_of_nil & _). done.
    + intros x. split; [by intros ?%elem_of_empty|].
      intros (c & ?%elem_of_nil & _). done.
    + intros c ?%elem_of_nil. done.
    + intros i j c d x Hi. by rewrite lookup_nil in Hi.
  - exists cs, vis. simpl in *. subst n. done.
Qed.

(** Two nodes are grouped together exactly when they are connected. *)
Lemma communities_inv_same seen vis cs x y :
  communities_inv g seen vis cs → x ∈ seen →
  same_community cs x y ↔ connected g x y.
Proof.
  intros [Hvis Hcov Hclass Hdis] Hx. split.
  - intros (c & Hc & Hxc & Hyc). destruct (Hclass c Hc) as (u & _ & Hu).
    apply Hu in Hxc, Hyc. eapply connected_trans; [|exact Hyc].
    by apply connected_sym.
  - intros Hxy. assert (x ∈ vis) as Hxv.
    { apply Hvis. exists x. split; [done|]. apply rtc_refl. }
    apply Hcov in Hxv as (c & Hc & Hxc). exists c. split_and!; [done..|].
    destruct (Hclass c Hc) as (u & _ & Hu). apply Hu.
    eapply connected_trans; [|exact Hxy]. by apply Hu.
Qed.

End communities.

(** ** Union-find *)

Section union_find.

Context (N : list string).

Implicit Types (par : gmap (option string) (option string))
  (rk : gmap (option string) rankv) (rep : string → string) (a b x y : string).

Lemma pget_insert par (k : option string) v :
  pget (<[k := v]> par) k = v.
Proof. unfold pget. by rewrite lookup_insert_eq. Qed.

Lemma uf_ok_rep_idem par rk rep k a :
  uf_ok N par rk rep k → a ∈ N → rep (rep a) = rep a.
Proof.
  intros Hok Ha. destruct (uf_root _ _ _ _ _ Hok a Ha) as [Hr Hpr].
  destruct (uf_link _ _ _ _ _ Hok (rep a) Hr) as (p & _ & Hp & _ & Hself & _).
  rewrite Hpr in Hp. injection Hp as <-. by apply Hself.
Qed.

(** [find] returns the representative and keeps the forest well formed,
    with the same representatives. *)
Lemma find_spec rk rep k fuel : ∀ par a,
  uf_ok N par rk rep k → a ∈ N → k < fuel + rank_of rk a →
  ∃ par', find fuel par (Some a) = Normal (Some (rep a), par')
          ∧ uf_ok N par' rk rep k.
Proof.
  induction fuel as [|fuel IH]; intros par a Hok Ha Hfuel.
  - exfalso. destruct (uf_ranks _ _ _ _ _ Hok a Ha) as (n & Hn & Hle).
    unfold rank_of in Hfuel. rewrite Hn in Hfuel. lia.
  - destruct (uf_link _ _ _ _ _ Hok a Ha) as (p & Hp & Hpar & Hrep & Hself & Hrank).
    assert (pget par (Some a) = Some p) as Hpg by (unfold pget; by rewrite Hpar).
    simpl. rewrite !Hpg.
    destruct (decide (Some p = Some a)) as [[= ->]|Hne].
    + exists par. rewrite Hself by done. done.
    + assert (p ≠ a) as Hpa by congruence.
      destruct (IH par p Hok Hp) as (par1 & -> & Hok1).
      { specialize (Hrank Hpa). lia. }
      simpl. rewrite pget_insert. rewrite Hrep. eexists. split; [done|].
      destruct Hok1 as [Hlink1 Hranks1 Hroot1 Hbelow1].
      split; try done.
      * intros b Hb. destruct (decide (b = a)) as [->|Hba].
        -- exists (rep a). rewrite lookup_insert_eq.
           destruct (Hroot1 a Ha) as [Hra _].
           split_and!; [done|done| |congruence|].
           ++ eapply uf_ok_rep_idem; [|done]. by split.
           ++ intros Hr. destruct (Hbelow1 a Ha); [congruence|done].
        -- rewrite lookup_insert_ne by congruence. by apply Hlink1.
      * intros b Hb. destruct (Hroot1 b Hb) as [Hrb Hprb]. split; [done|].
        destruct (decide (rep b = a)) as [Hrba|Hrba].
        -- rewrite Hrba, lookup_insert_eq. do 2 f_equal.
           rewrite <- Hrba. eapply uf_ok_rep_idem; [|done]. by split.
        -- rewrite lookup_insert_ne by congruence. done.
Qed.

Ltac merge_cases :=
  first [ left; congruence
        | right; left; split; congruence
        | right; right; split; congruence ].

Lemma merge_rep_same rep from to a b :
  rep a = rep b → merge_rep rep from to a = merge_rep rep from to b.
Proof. unfold merge_rep. by intros ->. Qed.

(** Hanging the root [from] under the root [to]. *)
Lemma uf_ok_link par rk rk' rep k from to :
  uf_ok N par rk rep k →
  from ∈ N → to ∈ N → rep from = from → rep to = to → from ≠ to →
  (∀ a, a ∈ N → ∃ n, rk' !! Some a = Some (RNum n) ∧ n ≤ S k) →
  (∀ a, a ≠ to → rank_of rk' a = rank_of rk a) →
  rank_of rk to ≤ rank_of rk' to →
  rank_of rk from < rank_of rk' to →
  uf_ok N (<[Some from := Some to]> par) rk' (merge_rep rep from to) (S k).
Proof.
  intros [Hlink Hranks Hroot Hbelow] Hfrom Hto Hrf Hrt Hne Hrk' Hsame Hle Hlt.
  assert (∀ a, rank_of rk a ≤ rank_of rk' a) as Hmono.
  { intros a. destruct (decide (a = to)) as [->|?]; [done|]. by rewrite Hsame. }
  assert (∀ a, a ∈ N → a = to → par !! Some a = Some (Some a)) as Hto_self.
  { intros a Ha ->. destruct (Hroot to Hto) as [_ H]. by rewrite Hrt in H. }
  split.
  - intros a Ha. destruct (decide (a = from)) as [->|Haf].
    + exists to. rewrite lookup_insert_eq. unfold merge_rep.
      rewrite Hrt, Hrf, (decide_False (P := to = from)) by done.
      rewrite decide_True by done.
      split_and!; [done|done|done|congruence|]. intros _. by rewrite Hsame.
    + destruct (Hlink a Ha) as (p & Hp & Hpar & Hrep & Hself & Hrank).
      exists p. rewrite lookup_insert_ne by congruence.
      split_and!; [done|done|by apply merge_rep_same| |].
      * intros ->. unfold merge_rep. rewrite Hself by done.
        by rewrite decide_False.
      * intros Hpa. specialize (Hrank Hpa).
        assert (a ≠ to) as Hat.
        { intros ->. rewrite Hto_self in Hpar by done. congruence. }
        rewrite (Hsame a Hat). specialize (Hmono p). lia.
  - done.
  - intros a Ha. unfold merge_rep. destruct (decide (rep a = from)) as [Hra|Hra].
    + split; [done|]. rewrite lookup_insert_ne by congruence.
      destruct (Hroot to Hto) as [_ H]. by rewrite Hrt in H.
    + destruct (Hroot a Ha) as [? ?]. split; [done|].
      rewrite lookup_insert_ne by congruence. done.
  - intros a Ha. unfold merge_rep. destruct (decide (rep a = from)) as [Hra|Hra].
    + right. destruct (decide (a = from)) as [->|Haf].
      * by rewrite Hsame.
      * assert (a ≠ to) as Hat by congruence.
        rewrite (Hsame a Hat).
        destruct (Hbelow a Ha) as [?|Hb]; [congruence|]. rewrite Hra in Hb. lia.
    + destruct (Hbelow a Ha) as [?|Hb]; [by left|].
      destruct (decide (a = to)) as [->|Hat]; [left; congruence|].
      right. rewrite (Hsame a Hat). specialize (Hmono (rep a)). lia.
Qed.

Lemma rank_of_insert_ne rk (a b : string) v :
  a ≠ b → rank_of (<[Some b := v]> rk) a = rank_of rk a.
Proof. intros Hab. unfold rank_of. rewrite lookup_insert_ne by congruence. done. Qed.

(** [union]: the classes of [x] and [y] are merged, the others stay. *)
Lemma union_spec fuel par rk rep k x y :
  uf_ok N par rk rep k → x ∈ N → y ∈ N → k < fuel →
  ∃ st' rep',
    union fuel (Some x) (Some y) (mkUf par rk) = Normal st'
    ∧ uf_ok N (uf_parent st') (uf_rank st') rep' (S k)
    ∧ rep' x = rep' y
    ∧ (∀ a b, rep a = rep b → rep' a = rep' b)
    ∧ (∀ a b, rep' a = rep' b →
         rep a = rep b ∨ (rep a = rep x ∧ rep b = rep y)
         ∨ (rep a = rep y ∧ rep b = rep x)).
Proof.
  intros Hok Hx Hy Hfuel. unfold union. simpl.
  destruct (find_spec rk rep k fuel par x Hok Hx) as (par1 & -> & Hok1); [lia|].
  simpl.
  destruct (find_spec rk rep k fuel par1 y Hok1 Hy) as (par2 & -> & Hok2); [lia|].
  simpl.
  destruct (uf_root _ _ _ _ _ Hok2 x Hx) as [Hrx _].
  destruct (uf_root _ _ _ _ _ Hok2 y Hy) as [Hry _].
  pose proof (uf_ok_rep_idem _ _ _ _ x Hok2 Hx) as Hix.
  pose proof (uf_ok_rep_idem _ _ _ _ y Hok2 Hy) as Hiy.
  destruct (uf_ranks _ _ _ _ _ Hok2 _ Hrx) as (nx & Hnx & Hlex).
  destruct (uf_ranks _ _ _ _ _ Hok2 _ Hry) as (ny & Hny & Hley).
  assert (rank_of rk (rep x) = nx) as Hrox by (unfold rank_of; by rewrite Hnx).
  assert (rank_of rk (rep y) = ny) as Hroy by (unfold rank_of; by rewrite Hny).
  assert (∀ a, a ∈ N → ∃ n, rk !! Some a = Some (RNum n) ∧ n ≤ S k) as Hrk.
  { intros a Ha. destruct (uf_ranks _ _ _ _ _ Hok2 a Ha) as (n & ? & ?).
    exists n. split; [done|lia]. }
  destruct (decide (Some (rep x) = Some (rep y))) as [[= Heq]|Hne].
  - exists (mkUf par2 rk), rep. simpl. split_and!; [done| |done|done|by left].
    destruct Hok2 as [H1 H2 H3 H4]. by split.
  - assert (rep x ≠ rep y) as Hxy by congruence.
    rewrite Hnx, Hny. simpl.
    destruct (nx <? ny) eqn:Hlt1; [|destruct (ny <? nx) eqn:Hlt2].
    + apply Nat.ltb_lt in Hlt1.
      exists (mkUf (<[Some (rep x) := Some (rep y)]> par2) rk),
        (merge_rep rep (rep x) (rep y)). simpl. split_and!.
      * done.
      * apply (uf_ok_link par2 rk rk rep k); try done. lia.
      * unfold merge_rep. rewrite decide_True by done.
        by rewrite decide_False.
      * intros a b. apply merge_rep_same.
      * intros a b. unfold merge_rep. repeat case_decide; intros ?; merge_cases.
    + apply Nat.ltb_lt in Hlt2.
      exists (mkUf (<[Some (rep y) := Some (rep x)]> par2) rk),
        (merge_rep rep (rep y) (rep x)). simpl. split_and!.
      * done.
      * apply (uf_ok_link par2 rk rk rep k); try done; try congruence; lia.
      * unfold merge_rep. rewrite (decide_False (P := rep x = rep y)) by done.
        by rewrite decide_True.
      * intros a b. apply merge_rep_same.
      * intros a b. unfold merge_rep. repeat case_decide; intros ?; merge_cases.
    + apply Nat.ltb_ge in Hlt1, Hlt2.
      exists (mkUf (<[Some (rep y) := Some (rep x)]> par2)
                   (<[Some (rep x) := RNum (S nx)]> rk)),
        (merge_rep rep (rep y) (rep x)). simpl. split_and!.
      * done.
      * apply (uf_ok_link par2 rk _ rep k); try done.
        -- intros a Ha. destruct (decide (a = rep x)) as [->|Ha'].
           ++ rewrite lookup_insert_eq. exists (S nx). split; [done|lia].
           ++ rewrite lookup_insert_ne by congruence. by apply Hrk.
        -- intros a Ha. by apply rank_of_insert_ne.
        -- unfold rank_of at 2. rewrite lookup_insert_eq. lia.
        -- unfold rank_of at 2. rewrite lookup_insert_eq. lia.
      * unfold merge_rep. rewrite (decide_False (P := rep x = rep y)) by done.
        by rewrite decide_True.
      * intros a b. apply merge_rep_same.
      * intros a b. unfold merge_rep. repeat case_decide; intros ?; merge_cases.
Qed.

End union_find.

Section union_find_run.

Context (N : list string).

Implicit Types (par : gmap (option string) (option string))
  (rk : gmap (option string) rankv) (rep : string → string) (a b x y : string)
  (fs : list Friendship.t) (groups : list (option string * list string)).

Lemma linked_app_l fs fs' a b : linked fs a b → linked (fs ++ fs') a b.
Proof. intros (f & Hf & H). exists f. split; [|done]. apply elem_of_app. by left. Qed.

Lemma rtc_linked_app_l fs fs' a b :
  rtc (linked fs) a b → rtc (linked (fs ++ fs')) a b.
Proof. apply rtc_subrel. intros ? ?. apply linked_app_l. Qed.

(** All unions: two nodes end with the same representative exactly when a
    chain of edges joins them. *)
Lemma union_all_spec fuel : ∀ fs fs0 par rk rep k,
  uf_ok N par rk rep k →
  Forall (λ f, Friendship.source f ∈ N ∧ Friendship.target f ∈ N) fs0 →
  Forall (λ f, Friendship.source f ∈ N ∧ Friendship.target f ∈ N) fs →
  k + length fs < fuel →
  (∀ a b, a ∈ N → b ∈ N → rep a = rep b ↔ rtc (linked fs0) a b) →
  ∃ st' rep',
    union_all fuel fs (mkUf par rk) = Normal st'
    ∧ uf_ok N (uf_parent st') (uf_rank st') rep' (k + length fs)
    ∧ (∀ a b, a ∈ N → b ∈ N → rep' a = rep' b ↔ rtc (linked (fs0 ++ fs)) a b).
Proof.
  induction fs as [|f fs IH]; intros fs0 par rk rep k Hok Hfs0 Hfs Hfuel Hconn.
  - exists (mkUf par rk), rep. simpl. rewrite app_nil_r, Nat.add_0_r. done.
  - apply Forall_cons in Hfs as [[Hsrc Htgt] Hfs]. simpl in Hfuel.
    destruct (union_spec N fuel par rk rep k _ _ Hok Hsrc Htgt)
      as (st1 & rep1 & Hun & Hok1 & Hxy & Hcoarse & Hfine); [lia|].
    simpl. rewrite Hun. simpl. destruct st1 as [par1 rk1]. simpl in *.
    destruct (IH (fs0 ++ [f]) par1 rk1 rep1 (S k) Hok1) as (st' & rep' & He & Hok' & Hconn').
    + apply Forall_app. split; [done|]. by apply Forall_singleton.
    + done.
    + lia.
    + intros a b Ha Hb. split.
      * intros Hab. destruct (Hfine a b Hab) as [H|[[H1 H2]|[H1 H2]]].
        -- apply rtc_linked_app_l. by apply Hconn.
        -- apply rtc_trans with (Friendship.source f);
             [apply rtc_linked_app_l, Hconn; done|].
           apply rtc_l with (Friendship.target f);
             [|apply rtc_linked_app_l, Hconn; done].
           apply linked_snoc. right. by left.
        -- apply rtc_trans with (Friendship.target f);
             [apply rtc_linked_app_l, Hconn; done|].
           apply rtc_l with (Friendship.source f);
             [|apply rtc_linked_app_l, Hconn; done].
           apply linked_snoc. right. by right.
      * intros Hab.
        assert (b ∈ N ∧ rep1 a = rep1 b) as [_ ?]; [|done].
        revert b Hab Hb. apply (rtc_ind_r (λ b, b ∈ N → b ∈ N ∧ rep1 a = rep1 b)).
        { done. }
        intros c d Hac Hcd IHc Hd.
        assert (c ∈ N) as Hc.
        { apply linked_snoc in Hcd as [(f' & Hf' & H)|[[<- _]|[_ <-]]]; [|done..].
          rewrite Forall_forall in Hfs0. destruct (Hfs0 f' Hf').
          destruct H as [[<- _]|[_ <-]]; done. }
        destruct (IHc Hc) as [_ Heq]. split; [done|]. rewrite Heq.
        apply linked_snoc in Hcd as [Hold|[[<- <-]|[<- <-]]]; [|done|done].
        apply Hcoarse, Hconn; [done..|]. by apply rtc_once.
    + exists st', rep'. split_and!; [done| |].
      * replace (k + S (length fs)) with (S k + length fs) by lia. done.
      * intros a b Ha Hb. rewrite Hconn' by done. by rewrite <- app_assoc.
Qed.

Lemma group_push_keys root uid groups :
  (group_push root uid groups).*1
  = if decide (root ∈ groups.*1) then groups.*1 else groups.*1 ++ [root].
Proof.
  induction groups as [|[k m] groups IH]; csimpl.
  - done.
  - destruct (decide (k = root)) as [->|Hk]; csimpl.
    + rewrite decide_True by (by left). done.
    + rewrite IH. destruct (decide (root ∈ groups.*1)) as [Hin|Hin].
      * rewrite decide_True by (by right). done.
      * rewrite decide_False; [done|].
        intros [?|?]%elem_of_cons; congruence.
Qed.

Lemma elem_of_group_push root uid groups k m :
  NoDup groups.*1 →
  (k, m) ∈ group_push root uid groups
  ↔ (k ≠ root ∧ (k, m) ∈ groups)
    ∨ (k = root ∧ ((∃ m0, (root, m0) ∈ groups ∧ m = m0 ++ [uid])
                   ∨ ((root ∉ groups.*1) ∧ m = [uid]))).
Proof.
  induction groups as [|[k0 m0] groups IH]; csimpl; intros Hnd.
  - rewrite list_elem_of_singleton. split.
    + intros [= -> ->]. right. split; [done|]. right. split; [|done].
      apply not_elem_of_nil.
    + intros [[_ ?%elem_of_nil]|[-> [(? & ?%elem_of_nil & _)|[_ ->]]]]; done.
  - apply NoDup_cons in Hnd as [Hk0 Hnd]. specialize (IH Hnd).
    destruct (decide (k0 = root)) as [->|Hne].
    + rewrite !elem_of_cons. split.
      * intros [[= -> ->]|Hin].
        -- right. split; [done|]. left. exists m0. split; [by left|done].
        -- left. split; [|by right]. intros ->. apply Hk0.
           apply list_elem_of_fmap. by exists (root, m).
      * intros [[Hk [[= ? ?]|Hin]]|[-> [(m1 & [[= ->]|Hin]%elem_of_cons & ->)|[Hnin _]]]].
        -- done.
        -- by right.
        -- by left.
        -- exfalso. apply Hk0. apply list_elem_of_fmap. by exists (root, m1).
        -- exfalso. apply Hnin. rewrite ?fmap_cons. by left.
    + rewrite !elem_of_cons, IH. split.
      * intros [[= -> ->]|[[? ?]|[-> H]]].
        -- left. split; [done|by left].
        -- left. split; [done|by right].
        -- right. split; [done|]. destruct H as [(m1 & ? & ->)|[? ->]].
           ++ left. exists m1. split; [by right|done].
           ++ right. split; [|done]. intros [?|?]; [congruence|done].
      * intros [[? [[= -> ->]|?]]|[-> H]].
        -- by left.
        -- right. left. done.
        -- right. right. split; [done|].
           destruct H as [(m1 & [[= ? ?]|?]%elem_of_cons & ->)|[Hnin ->]].
           ++ done.
           ++ left. by exists m1.
           ++ right. split; [|done]. intros ?. apply Hnin.
              rewrite ?fmap_cons. by right.
Qed.

Lemma groups_ok_push rep seen groups u :
  groups_ok rep seen groups →
  groups_ok rep (seen ++ [u]) (group_push (Some (rep u)) u groups).
Proof.
  intros [Hkeys Hmem Hcov]. split.
  - rewrite group_push_keys. case_decide; [done|].
    apply NoDup_app. split_and!; [done| |apply NoDup_singleton].
    intros k Hk ->%list_elem_of_singleton. done.
  - intros k m Hin x. apply elem_of_group_push in Hin; [|done].
    rewrite elem_of_app, list_elem_of_singleton.
    destruct Hin as [[Hk Hin]|[-> [(m0 & Hin & ->)|[Hnin ->]]]].
    + rewrite (Hmem k m Hin). split; [intros [? ?]; auto|].
      intros [[?| ->] ?]; [done|congruence].
    + rewrite elem_of_app, list_elem_of_singleton, (Hmem _ m0 Hin). split.
      * intros [[? ?]| ->]; auto.
      * intros [[?| ->] ?]; auto.
    + rewrite list_elem_of_singleton. split; [intros ->; auto|].
      intros [[Hx| ->] Hr]; [|done]. exfalso. apply Hnin.
      destruct (Hcov x Hx) as (m & Hm). apply list_elem_of_fmap.
      exists (Some (rep x), m). split; [|done]. simpl. congruence.
  - intros x [Hx| ->%list_elem_of_singleton]%elem_of_app.
    + destruct (Hcov x Hx) as (m & Hm).
      destruct (decide (Some (rep x) = Some (rep u))) as [Heq|Hne].
      * exists (m ++ [u]). apply elem_of_group_push; [done|]. right.
        split; [done|]. left. exists m. split; [|done]. by rewrite <- Heq.
      * exists m. apply elem_of_group_push; [done|]. by left.
    + destruct (decide (Some (rep u) ∈ groups.*1)) as [Hin|Hnin].
      * apply list_elem_of_fmap in Hin as ([k m] & Hk & Hin). simpl in Hk. subst k.
        exists (m ++ [u]). apply elem_of_group_push; [done|]. right.
        split; [done|]. left. by exists m.
      * exists [u]. apply elem_of_group_push; [done|]. right.
        split; [done|]. by right.
Qed.

Lemma group_all_spec fuel rk rep k : ∀ us seen par groups,
  uf_ok N par rk rep k → k < fuel →
  Forall (λ u, u ∈ N) (ids us) →
  groups_ok rep seen groups →
  ∃ groups', group_all fuel us par groups = Normal groups'
             ∧ groups_ok rep (seen ++ ids us) groups'.
Proof.
  induction us as [|user us IH]; intros seen par groups Hok Hfuel Hus Hg; simpl.
  - exists groups. by rewrite app_nil_r.
  - apply Forall_cons in Hus as [Hu Hus].
    destruct (find_spec N rk rep k fuel par (User.id user) Hok Hu) as (par' & -> & Hok');
      [lia|]. simpl.
    destruct (IH (seen ++ [User.id user]) par'
                (group_push (Some (rep (User.id user))) (User.id user) groups))
      as (groups' & -> & Hg'); [done|done|done|by apply groups_ok_push|].
    exists groups'. split; [done|]. by rewrite <- app_assoc in Hg'.
Qed.

End union_find_run.

(** ** Claims C2 and C3: the two community methods *)

Section engine_communities.

Context (us : list User.t) (fs : list Friendship.t).
Context (Hpresent : edges_present us fs).

Implicit Types (x y a b : string) (cs : list Community.t).

Lemma step_linked x y : step (engine us fs) x y ↔ linked fs x y.
Proof.
  rewrite step_engine. split; [tauto|]. intros Hl. split; [|done].
  by destruct (linked_present us fs x y Hpresent Hl).
Qed.

Lemma connected_linked x y : connected (engine us fs) x y ↔ rtc (linked fs) x y.
Proof.
  unfold connected. split; apply rtc_subrel; intros ? ?; apply step_linked.
Qed.

Lemma connected_present x y :
  x ∈ ids us → connected (engine us fs) x y → y ∈ ids us.
Proof.
  intros Hx Hxy. revert y Hxy. apply (rtc_ind_r (λ y, y ∈ ids us)); [done|].
  intros y z _ Hyz%step_linked _.
  by destruct (linked_present us fs y z Hpresent Hyz).
Qed.

Lemma uf_init_lookup (l : list User.t) (a : string) :
  uf_parent (uf_init l) !! Some a
    = (if decide (a ∈ ids l) then Some (Some a) else None)
  ∧ uf_rank (uf_init l) !! Some a
    = (if decide (a ∈ ids l) then Some (RNum 0) else None).
Proof.
  unfold uf_init, ids. induction l as [|u l IH] using rev_ind.
  - simpl. rewrite !lookup_empty. done.
  - rewrite foldl_snoc, fmap_app. simpl.
    destruct (decide (a = User.id u)) as [->|Hne].
    + rewrite !lookup_insert_eq.
      assert (User.id u ∈ (User.id <$> l) ++ [User.id u]) as Hin.
      { apply elem_of_app. right. by apply list_elem_of_singleton. }
      destruct (decide (User.id u ∈ (User.id <$> l) ++ [User.id u])); done.
    + rewrite !lookup_insert_ne by congruence. destruct IH as [-> ->].
      destruct (decide (a ∈ User.id <$> l)) as [Hin|Hin];
        destruct (decide (a ∈ (User.id <$> l) ++ [User.id u])) as [Hin'|Hin'];
        try done.
      * exfalso. apply Hin'. apply elem_of_app. by left.
      * exfalso. apply elem_of_app in Hin' as [?|?%list_elem_of_singleton]; done.
Qed.

Lemma uf_init_ok :
  uf_ok (ids us) (uf_parent (uf_init us)) (uf_rank (uf_init us)) (λ a, a) 0.
Proof.
  split.
  - intros a Ha. destruct (uf_init_lookup us a) as [Hp _].
    rewrite decide_True in Hp by done. exists a. split_and!; try done.
  - intros a Ha. destruct (uf_init_lookup us a) as [_ Hr].
    rewrite decide_True in Hr by done. exists 0. done.
  - intros a Ha. destruct (uf_init_lookup us a) as [Hp _].
    rewrite decide_True in Hp by done. done.
  - intros a Ha. by left.
Qed.

Lemma imap_communities_lookup (groups : list (option string * list string)) i c :
  imap (λ communityId kv, Community.mk communityId kv.2 (color_of communityId)) groups
    !! i = Some c
  ↔ ∃ k m, groups !! i = Some (k, m) ∧ c = Community.mk i m (color_of i).
Proof.
  rewrite list_lookup_imap. destruct (groups !! i) as [[k m]|]; simpl.
  - split; [intros [= <-]; eauto|]. intros (? & ? & [= <- <-] & ->). done.
  - split; [done|]. intros (? & ? & ? & _). done.
Qed.

(** The disjoint-set method: a partition of the node set into the classes
    of the relation "joined by a chain of edges". *)
Lemma findCommunitiesUnionFind_spec :
  ∃ cs, findCommunitiesUnionFind (engine us fs) = Normal cs
        ∧ partition_of us cs
        ∧ ∀ x y, same_community cs x y
                 ↔ x ∈ ids us ∧ y ∈ ids us ∧ rtc (linked fs) x y.
Proof.
  unfold findCommunitiesUnionFind, uf_fuel. simpl.
  destruct (union_all_spec (ids us) (S (S (S (length fs)))) fs []
              (uf_parent (uf_init us)) (uf_rank (uf_init us)) (λ a, a) 0)
    as (st & rep & Hun & Hok & Hconn).
  { apply uf_init_ok. }
  { constructor. }
  { exact Hpresent. }
  { lia. }
  { intros a b _ _. split; [intros ->; apply rtc_refl|].
    intros Hab. apply rtc_inv in Hab as [?|(c & (f & ?%elem_of_nil & _) & _)]; done. }
  simpl in *. replace (mkUf (uf_parent (uf_init us)) (uf_rank (uf_init us)))
    with (uf_init us) in Hun by (by destruct (uf_init us)).
  rewrite Hun. simpl.
  destruct (group_all_spec (ids us) (S (S (S (length fs)))) (uf_rank st) rep
              (length fs) us [] (uf_parent st) []) as (groups & -> & Hg).
  { done. }
  { lia. }
  { apply Forall_forall. auto. }
  { split; [constructor| |]; simpl.
    - intros k m ?%elem_of_nil. done.
    - intros x ?%elem_of_nil. done. }
  simpl in *. destruct Hg as [Hkeys Hmem Hcov].
  eexists. split; [done|].
  set (cs := imap _ groups).
  assert (∀ c, c ∈ cs → ∃ k, ∀ x, x ∈ Community.users c ↔ x ∈ ids us ∧ Some (rep x) = k)
    as Hclass.
  { intros c (i & Hi)%list_elem_of_lookup_1.
    apply imap_communities_lookup in Hi as (k & m & Hi & ->).
    exists k. simpl. apply Hmem. by eapply list_elem_of_lookup_2. }
  assert (∀ x, x ∈ ids us → ∃ c, c ∈ cs ∧ x ∈ Community.users c) as Hcover.
  { intros x Hx. destruct (Hcov x Hx) as (m & Hm).
    pose proof Hm as (i & Hi)%list_elem_of_lookup_1.
    exists (Community.mk i m (color_of i)). split.
    - apply (list_elem_of_lookup_2 _ i). apply imap_communities_lookup. eauto.
    - simpl. by apply (Hmem _ _ Hm). }
  split; [split|].
  - intros x. split; [apply Hcover|].
    intros (c & Hc & Hx). destruct (Hclass c Hc) as (k & Hk).
    by destruct (proj1 (Hk x) Hx).
  - intros i j c d x Hi Hj Hij Hxc Hxd.
    apply imap_communities_lookup in Hi as (k1 & m1 & Hi & ->).
    apply imap_communities_lookup in Hj as (k2 & m2 & Hj & ->). simpl in *.
    apply (Hmem k1 m1) in Hxc as [_ H1]; [|by eapply list_elem_of_lookup_2].
    apply (Hmem k2 m2) in Hxd as [_ H2]; [|by eapply list_elem_of_lookup_2].
    apply Hij. eapply (NoDup_lookup _ i j k1 Hkeys).
    + by rewrite list_lookup_fmap, Hi.
    + rewrite list_lookup_fmap, Hj. simpl. congruence.
  - intros x y. split.
    + intros (c & Hc & Hx & Hy). destruct (Hclass c Hc) as (k & Hk).
      destruct (proj1 (Hk x) Hx) as [Hx' Hrx].
      destruct (proj1 (Hk y) Hy) as [Hy' Hry].
      split_and!; [done..|]. apply Hconn; [done..|]. congruence.
    + intros (Hx & Hy & Hxy). destruct (Hcover x Hx) as (c & Hc & Hxc).
      exists c. split_and!; [done..|]. destruct (Hclass c Hc) as (k & Hk).
      apply Hk. split; [done|]. destruct (proj1 (Hk x) Hxc) as [_ <-]. f_equal.
      symmetry. by apply Hconn.
Qed.

(** The traversal method: the same partition, with as many communities as
    a sweep over the node list opens. *)
Lemma findCommunities_engine_spec :
  ∃ cs, findCommunities (engine us fs) = Normal cs
        ∧ partition_of us cs
        ∧ (∀ x y, same_community cs x y
                  ↔ x ∈ ids us ∧ y ∈ ids us ∧ rtc (linked fs) x y)
        ∧ sweep (engine us fs) (ids us) [] (length cs).
Proof.
  destruct (findCommunities_spec (engine us fs)) as (cs & vis & He & Hinv & Hsweep).
  { intros x y. by apply step_sym. }
  simpl in *. exists cs. split; [done|].
  assert (∀ x, x ∈ ids us → x ∈ vis) as Hvis.
  { intros x Hx. apply (cinv_vis _ _ _ _ Hinv). exists x. split; [done|].
    apply rtc_refl. }
  assert (∀ c x, c ∈ cs → x ∈ Community.users c → x ∈ ids us) as Hmem.
  { intros c x Hc Hx. destruct (cinv_class _ _ _ _ Hinv c Hc) as (u & Hu & Hcl).
    apply (connected_present u); [done|]. by apply Hcl. }
  split_and!; [split| |done].
  - intros x. split.
    + intros Hx. by apply (cinv_cover _ _ _ _ Hinv), Hvis.
    + intros (c & Hc & Hx). by eapply Hmem.
  - apply (cinv_disjoint _ _ _ _ Hinv).
  - intros x y. split.
    + intros Hs. pose proof Hs as (c & Hc & Hx & Hy).
      assert (x ∈ ids us) as Hxi by (by eapply Hmem).
      split_and!; [done|by eapply Hmem|].
      apply connected_linked.
      eapply (communities_inv_same (engine us fs)); [|exact Hinv|done|done].
      intros ? ?. by apply step_sym.
    + intros (Hx & Hy & Hxy).
      eapply (communities_inv_same (engine us fs)); [|exact Hinv|done|].
      * intros ? ?. by apply step_sym.
      * by apply connected_linked.
Qed.

Lemma isolated_singleton cs x :
  partition_of us cs →
  (∀ a b, same_community cs a b → rtc (linked fs) a b) →
  x ∈ ids us → isolated fs x → singleton_community cs x.
Proof.
  intros [Hcov _] Hsame Hx Hiso.
  destruct (proj1 (Hcov x) Hx) as (c & Hc & Hxc).
  exists c. split; [done|]. intros y. split; [|by intros ->].
  intros Hy. assert (rtc (linked fs) x y) as Hxy.
  { apply Hsame. by exists c. }
  apply rtc_inv in Hxy as [?|(z & Hxz & _)]; [done|]. by destruct (Hiso z).
Qed.

End engine_communities.

(** C2, as stated, fails: an edge that names an absent id puts that id in a
    community of [findCommunities], so the union of the communities is not
    the node set. *)
Lemma C2_counterexample :
  let us := [User.mk "a" "A"] in
  let fs := [Friendship.mk "a" "z"] in
  ∃ cs, findCommunities (engine us fs) = Normal cs ∧ ¬ partition_of us cs.
Proof.
  intros us fs. eexists. split; [by vm_compute|].
  intros [Hcov _]. assert ("z" ∈ ids us) as Hz.
  { apply Hcov. eexists. split; [by left|]. simpl. right. by left. }
  revert Hz. apply (bool_decide_unpack _). by vm_compute.
Qed.

(** C2 (amended): when every edge joins two ids of the node list, both
    methods complete and return communities that partition the node set,
    and an isolated node is the only member of its community. *)
Theorem C2_communities_partition us fs :
  edges_present us fs →
  ∃ cs cs',
    findCommunities (engine us fs) = Normal cs
    ∧ findCommunitiesUnionFind (engine us fs) = Normal cs'
    ∧ partition_of us cs ∧ partition_of us cs'
    ∧ ∀ x, x ∈ ids us → isolated fs x →
        singleton_community cs x ∧ singleton_community cs' x.
Proof.
  intros Hp.
  destruct (findCommunities_engine_spec us fs Hp) as (cs & He & Hpart & Hsame & _).
  destruct (findCommunitiesUnionFind_spec us fs Hp) as (cs' & He' & Hpart' & Hsame').
  exists cs, cs'. split_and!; [done..|].
  intros x Hx Hiso. split; eapply isolated_singleton; try done.
  - intros a b Hab. by apply Hsame in Hab as (_ & _ & ?).
  - intros a b Hab. by apply Hsame' in Hab as (_ & _ & ?).
Qed.

Lemma C2_communities_partition_witness :
  let us := [User.mk "a" "A"; User.mk "b" "B"; User.mk "c" "C"] in
  let fs := [Friendship.mk "a" "b"] in
  edges_present us fs
  ∧ ∃ cs cs',
      findCommunities (engine us fs) = Normal cs
      ∧ findCommunitiesUnionFind (engine us fs) = Normal cs'
      ∧ partition_of us cs ∧ partition_of us cs'
      ∧ ∀ x, x ∈ ids us → isolated fs x →
          singleton_community cs x ∧ singleton_community cs' x.
Proof.
  intros us fs.
  assert (Hp : edges_present us fs).
  { apply (bool_decide_unpack _). vm_compute. exact I. }
  split; [exact Hp|]. exact (C2_communities_partition us fs Hp).
Defined.

(** C3, as stated, fails: with two nodes [a] and [b] each joined to the
    absent id [z], the disjoint-set method groups [a] with [b] and the
    traversal does not. *)
Lemma C3_counterexample :
  let us := [User.mk "a" "A"; User.mk "b" "B"] in
  let fs := [Friendship.mk "a" "z"; Friendship.mk "b" "z"] in
  ∃ cs cs',
    findCommunities (engine us fs) = Normal cs
    ∧ findCommunitiesUnionFind (engine us fs) = Normal cs'
    ∧ same_community cs' "a" "b" ∧ ¬ same_community cs "a" "b".
Proof.
  intros us fs. eexists _, _. split_and!; [by vm_compute..| |].
  - eexists. split; [by left|]. simpl. split; [by left|right; by left].
  - intros (c & Hc & Ha & Hb).
    apply elem_of_cons in Hc as [->|Hc]; simpl in *.
    + revert Hb. apply (bool_decide_unpack _). by vm_compute.
    + apply list_elem_of_singleton in Hc as ->. simpl in *.
      revert Ha. apply (bool_decide_unpack _). by vm_compute.
Qed.

(** C3 (amended): when every edge joins two ids of the node list, the two
    methods group the nodes in the same way. *)
Theorem C3_methods_agree us fs :
  edges_present us fs →
  ∃ cs cs',
    findCommunities (engine us fs) = Normal cs
    ∧ findCommunitiesUnionFind (engine us fs) = Normal cs'
    ∧ ∀ x y, same_community cs x y ↔ same_community cs' x y.
Proof.
  intros Hp.
  destruct (findCommunities_engine_spec us fs Hp) as (cs & He & _ & Hsame & _).
  destruct (findCommunitiesUnionFind_spec us fs Hp) as (cs' & He' & _ & Hsame').
  exists cs, cs'. split_and!; [done..|].
  intros x y. by rewrite Hsame, Hsame'.
Qed.

Lemma C3_methods_agree_witness :
  let us := [User.mk "a" "A"; User.mk "b" "B"; User.mk "c" "C"] in
  let fs := [Friendship.mk "a" "b"; Friendship.mk "c" "b"] in
  edges_present us fs
  ∧ ∃ cs cs',
      findCommunities (engine us fs) = Normal cs
      ∧ findCommunitiesUnionFind (engine us fs) = Normal cs'
      ∧ ∀ x y, same_community cs x y ↔ same_community cs' x y.
Proof.
  intros us fs.
  assert (Hp : edges_present us fs).
  { apply (bool_decide_unpack _). vm_compute. exact I. }
  split; [exact Hp|]. exact (C3_methods_agree us fs Hp).
Defined.

(** ** Claim C10: adding an edge *)

Lemma sweep_mono g g' l : ∀ seen n n',
  (∀ x y, connected g x y → connected g' x y) →
  sweep g l seen n → sweep g' l seen n' → n' ≤ n.
Proof.
  induction l as [|u l IH]; intros seen n n' Hsub H1 H2.
  - inversion H1; inversion H2; subst. done.
  - inversion H1 as [|? ? ? ? Hold1 Hr1|? ? ? m Hnew1 Hr1];
      inversion H2 as [|? ? ? ? Hold2 Hr2|? ? ? m' Hnew2 Hr2]; subst.
    + by eapply IH.
    + exfalso. apply Hnew2. destruct Hold1 as (v & Hv & Hvu). eauto.
    + specialize (IH _ _ _ Hsub Hr1 Hr2). lia.
    + specialize (IH _ _ _ Hsub Hr1 Hr2). lia.
Qed.

Lemma path_in_more_edges us fs fs' a b p :
  (∀ x y, linked fs x y → linked fs' x y) →
  path_in us fs a b p → path_in us fs' a b p.
Proof.
  intros Hsub (Hh & Hl & Hall & Hc). split_and!; try done.
  by eapply chain_impl.
Qed.

(** Adding edges between present nodes never increases the number of
    communities that [findCommunities] returns. *)
Lemma communities_count_monotone us fs fs' :
  edges_present us fs → edges_present us fs' →
  (∀ x y, linked fs x y → linked fs' x y) →
  ∃ cs cs',
    findCommunities (engine us fs) = Normal cs
    ∧ findCommunities (engine us fs') = Normal cs'
    ∧ length cs' ≤ length cs.
Proof.
  intros Hp Hp' Hsub.
  destruct (findCommunities_engine_spec us fs Hp) as (cs & He & _ & _ & Hsw).
  destruct (findCommunities_engine_spec us fs' Hp') as (cs' & He' & _ & _ & Hsw').
  exists cs, cs'. split_and!; [done..|].
  eapply sweep_mono; [|exact Hsw|exact Hsw'].
  intros x y Hxy. apply connected_linked; [done|].
  apply connected_linked in Hxy; [|done].
  eapply rtc_subrel; [|exact Hxy]. done.
Qed.

(** Adding edges never increases the distance that [findShortestPath]
    returns for two connected nodes, when no node id is the empty string. *)
Lemma distance_monotone us fs fs' a b :
  (∀ x, x ∈ ids us → x ≠ EmptyString) →
  (∀ x y, linked fs x y → linked fs' x y) →
  reachable us fs a b →
  ∃ r r',
    findShortestPath (engine us fs) a b = Normal (Some r)
    ∧ findShortestPath (engine us fs') a b = Normal (Some r')
    ∧ (PathResult.distance r' ≤ PathResult.distance r)%Z.
Proof.
  intros Hids Hsub Hreach. destruct (decide (a = b)) as [->|Hab].
  - unfold findShortestPath. rewrite !decide_True by done.
    eexists _, _. split_and!; [done..|]. simpl. lia.
  - assert (reachable us fs' a b) as Hreach'.
    { destruct Hreach as (p & Hp). exists p. by eapply path_in_more_edges. }
    destruct (findShortestPath_shortest us fs a b Hids Hab Hreach)
      as (r & He & Hpath & Hd & _).
    destruct (findShortestPath_shortest us fs' a b Hids Hab Hreach')
      as (r' & He' & _ & Hd' & Hmin').
    exists r, r'. split_and!; [done..|].
    specialize (Hmin' _ (path_in_more_edges us fs fs' a b _ Hsub Hpath)). lia.
Qed.

Lemma linked_add_edge fs f x y : linked fs x y → linked (fs ++ [f]) x y.
Proof. intros H. apply linked_snoc. by left. Qed.

Lemma edges_present_add us fs a b :
  edges_present us fs → a ∈ ids us → b ∈ ids us →
  edges_present us (fs ++ [Friendship.mk a b]).
Proof.
  intros Hp Ha Hb. apply Forall_app. split; [done|]. by apply Forall_singleton.
Qed.

(** Monotonicity, for node ids that are all non-empty: one more edge between
    two present nodes of a valid graph never increases the number of
    communities, nor the distance between two nodes that were connected. *)
Theorem add_edge_monotone us fs a b :
  valid_graph us fs → a ∈ ids us → b ∈ ids us →
  (∀ x, x ∈ ids us → x ≠ EmptyString) →
  let fs' := fs ++ [Friendship.mk a b] in
  (∃ cs cs',
     findCommunities (engine us fs) = Normal cs
     ∧ findCommunities (engine us fs') = Normal cs'
     ∧ length cs' ≤ length cs)
  ∧ ∀ x y, reachable us fs x y →
      ∃ r r',
        findShortestPath (engine us fs) x y = Normal (Some r)
        ∧ findShortestPath (engine us fs') x y = Normal (Some r')
        ∧ (PathResult.distance r' ≤ PathResult.distance r)%Z.
Proof.
  intros [_ Hv] Ha Hb Hids fs'.
  assert (edges_present us fs) as Hp.
  { eapply Forall_impl; [exact Hv|]. simpl. tauto. }
  split.
  - apply communities_count_monotone; [done|by apply edges_present_add|].
    intros x y. apply linked_add_edge.
  - intros x y Hxy. apply distance_monotone; [done| |done].
    intros ? ?. apply linked_add_edge.
Qed.

(** C10, code defect (the one of C1): the path reconstruction stops on the
    empty string.  In the valid graph a - e - c, where [e] is the empty
    string, the distance returned for (a, c) is 0; after the edge a - c is
    added it is 1. *)
Theorem C10_empty_id_breaks_monotonicity :
  let us := [User.mk "a" "A"; User.mk EmptyString "Anonymous"; User.mk "c" "C"] in
  let fs := [Friendship.mk "a" EmptyString; Friendship.mk EmptyString "c"] in
  let fs' := fs ++ [Friendship.mk "a" "c"] in
  valid_graph us fs ∧ valid_graph us fs'
  ∧ reachable us fs "a" "c"
  ∧ findShortestPath (engine us fs) "a" "c"
    = Normal (Some (PathResult.mk ["c"] 0))
  ∧ findShortestPath (engine us fs') "a" "c"
    = Normal (Some (PathResult.mk ["a"; "c"] 1)).
Proof.
  intros us fs fs'. split_and!.
  - apply (bool_decide_unpack _). vm_compute. exact I.
  - apply (bool_decide_unpack _). vm_compute. exact I.
  - exists ["a"; EmptyString; "c"]. split_and!; [done|done| |].
    + apply (bool_decide_unpack _). vm_compute. exact I.
    + simpl. split_and!; [| |done].
      * exists (Friendship.mk "a" EmptyString). split; [by left|]. by left.
      * exists (Friendship.mk EmptyString "c"). split; [right; by left|]. by left.
  - by vm_compute.
  - by vm_compute.
Qed.

(** ** Further properties of the specification *)

(** Identity: a query from a node to itself returns the one-node path of
    distance 0, whatever the id. *)
Theorem shortest_path_identity (g : GraphAlgorithms) (a : string) :
  findShortestPath g a a = Normal (Some (PathResult.mk [a] 0)).
Proof. unfold findShortestPath. by rewrite decide_True. Qed.

(** The shortest-path property on a valid graph whose node ids are all
    non-empty: for [e] reachable from [s ≠ e], the result is a path of the
    graph from [s] to [e], [distance] is its number of edges, and no path
    of the graph from [s] to [e] has fewer. *)
Theorem shortest_path_nonempty_ids us fs s e :
  valid_graph us fs →
  (∀ x, x ∈ ids us → x ≠ EmptyString) →
  s ≠ e → reachable us fs s e →
  ∃ r, findShortestPath (engine us fs) s e = Normal (Some r)
       ∧ path_in us fs s e (PathResult.path r)
       ∧ PathResult.distance r = (Z.of_nat (length (PathResult.path r)) - 1)%Z
       ∧ ∀ p, path_in us fs s e p → length (PathResult.path r) ≤ length p.
Proof. intros _. apply findShortestPath_shortest. Qed.

Lemma shortest_path_nonempty_ids_witness :
  let us := [User.mk "a" "A"; User.mk "b" "B"; User.mk "c" "C"] in
  let fs := [Friendship.mk "a" "b"; Friendship.mk "b" "c"] in
  ∃ r, findShortestPath (engine us fs) "a" "c" = Normal (Some r)
       ∧ path_in us fs "a" "c" (PathResult.path r)
       ∧ PathResult.distance r = (Z.of_nat (length (PathResult.path r)) - 1)%Z
       ∧ ∀ p, path_in us fs "a" "c" p → length (PathResult.path r) ≤ length p.
Proof.
  intros us fs. apply (shortest_path_nonempty_ids us fs "a" "c").
  - apply (bool_decide_unpack _). vm_compute. exact I.
  - intros x Hx ->. revert Hx. apply (bool_decide_unpack _). vm_compute. exact I.
  - discriminate.
  - exists ["a"; "b"; "c"]. split_and!; [done|done| |].
    + apply (bool_decide_unpack _). vm_compute. exact I.
    + simpl. split_and!; [| |done].
      * exists (Friendship.mk "a" "b"). split; [by left|]. by left.
      * exists (Friendship.mk "b" "c"). split; [right; by left|]. by left.
Defined.

Lemma chain_reverse (R : string → string → Prop) p :
  (∀ x y, R x y → R y x) → chain R p → chain R (reverse p).
Proof.
  intros Hsym. induction p as [|x [|y p] IH]; [done..|].
  intros [Hxy Hc]. rewrite reverse_cons. eapply chain_snoc.
  - by apply IH.
  - rewrite last_reverse. done.
  - by apply Hsym.
Qed.

Lemma path_in_reverse us fs a b p :
  path_in us fs a b p → path_in us fs b a (reverse p).
Proof.
  intros (Hh & Hl & Hall & Hc). split_and!.
  - by rewrite head_reverse.
  - by rewrite last_reverse.
  - apply Forall_reverse. done.
  - apply chain_reverse; [|done]. intros x y. apply linked_sym.
Qed.

(** Symmetry: the distance from [a] to [b] equals the distance from [b] to
    [a] whenever [b] is reachable from [a] and no node id is empty. *)
Theorem shortest_path_symmetric us fs a b :
  (∀ x, x ∈ ids us → x ≠ EmptyString) →
  reachable us fs a b →
  ∃ r r',
    findShortestPath (engine us fs) a b = Normal (Some r)
    ∧ findShortestPath (engine us fs) b a = Normal (Some r')
    ∧ PathResult.distance r = PathResult.distance r'.
Proof.
  intros Hids Hab. destruct (decide (a = b)) as [->|Hne].
  - unfold findShortestPath. rewrite decide_True by done. eauto.
  - assert (reachable us fs b a) as Hba.
    { destruct Hab as (p & Hp). exists (reverse p). by apply path_in_reverse. }
    destruct (findShortestPath_shortest us fs a b Hids Hne Hab)
      as (r & He & Hp & Hd & Hmin).
    destruct (findShortestPath_shortest us fs b a Hids (not_eq_sym Hne) Hba)
      as (r' & He' & Hp' & Hd' & Hmin').
    exists r, r'. split_and!; [done..|].
    specialize (Hmin _ (path_in_reverse _ _ _ _ _ Hp')).
    specialize (Hmin' _ (path_in_reverse _ _ _ _ _ Hp)).
    rewrite length_reverse in Hmin, Hmin'. lia.
Qed.

Lemma shortest_path_symmetric_witness :
  let us := [User.mk "a" "A"; User.mk "b" "B"; User.mk "c" "C"] in
  let fs := [Friendship.mk "a" "b"; Friendship.mk "c" "b"] in
  ∃ r r',
    findShortestPath (engine us fs) "a" "c" = Normal (Some r)
    ∧ findShortestPath (engine us fs) "c" "a" = Normal (Some r')
    ∧ PathResult.distance r = PathResult.distance r'.
Proof.
  intros us fs. apply (shortest_path_symmetric us fs "a" "c").
  - intros x Hx ->. revert Hx. apply (bool_decide_unpack _). vm_compute. exact I.
  - exists ["a"; "b"; "c"]. split_and!; [done|done| |].
    + apply (bool_decide_unpack _). vm_compute. exact I.
    + simpl. split_and!; [| |done].
      * exists (Friendship.mk "a" "b"). split; [by left|]. by left.
      * exists (Friendship.mk "c" "b"). split; [right; by left|]. by right.
Defined.

Lemma add_edge_monotone_witness :
  let us := [User.mk "a" "A"; User.mk "b" "B"; User.mk "c" "C"] in
  let fs := [Friendship.mk "a" "b"; Friendship.mk "b" "c"] in
  let fs' := fs ++ [Friendship.mk "a" "c"] in
  ∃ cs cs',
    findCommunities (engine us fs) = Normal cs
    ∧ findCommunities (engine us fs') = Normal cs'
    ∧ length cs' ≤ length cs.
Proof.
  intros us fs fs'.
  refine (proj1 (add_edge_monotone us fs "a" "c" _ _ _ _)).
  - apply (bool_decide_unpack _). vm_compute. exact I.
  - apply (bool_decide_unpack _). vm_compute. exact I.
  - apply (bool_decide_unpack _). vm_compute. exact I.
  - intros x Hx ->. revert Hx. apply (bool_decide_unpack _). vm_compute. exact I.
Defined.

Lemma communities_loop_numbering g rest : ∀ vis cs cid cs',
  cid = length cs →
  (∀ i c, cs !! i = Some c → Community.id c = i ∧ Community.color c = color_of i) →
  communities_loop g rest vis cs cid = Normal cs' →
  ∀ i c, cs' !! i = Some c → Community.id c = i ∧ Community.color c = color_of i.
Proof.
  induction rest as [|user rest IH]; intros vis cs cid cs' Hcid Hcs; simpl.
  - intros [= <-]. done.
  - destruct (decide (User.id user ∈ vis)) as [_|_]; [by apply IH|].
    destruct (dfsVisit g (User.id user) vis) as [[community vis']| |]; simpl;
      [|done..].
    destruct (0 <? length community); [|by apply IH].
    apply IH.
    + rewrite length_app. simpl. lia.
    + intros i c [[_ Hi]|[-> <-]]%lookup_snoc_Some; [by apply Hcs|]. by subst.
Qed.

(** The scenario of the specification: six users with the edges
    Alice-Bob, Bob-Charlie, Charlie-Diana, Alice-Eve, Eve-Frank. *)
Theorem six_user_scenario :
  let us := [User.mk "Alice" "Alice"; User.mk "Bob" "Bob";
             User.mk "Charlie" "Charlie"; User.mk "Diana" "Diana";
             User.mk "Eve" "Eve"; User.mk "Frank" "Frank"] in
  let fs := [Friendship.mk "Alice" "Bob"; Friendship.mk "Bob" "Charlie";
             Friendship.mk "Charlie" "Diana"; Friendship.mk "Alice" "Eve";
             Friendship.mk "Eve" "Frank"] in
  let cut := [Friendship.mk "Alice" "Bob"; Friendship.mk "Bob" "Charlie";
              Friendship.mk "Charlie" "Diana"; Friendship.mk "Eve" "Frank"] in
  findShortestPath (engine us fs) "Alice" "Diana"
  = Normal (Some (PathResult.mk ["Alice"; "Bob"; "Charlie"; "Diana"] 3))
  ∧ (∃ cs, findCommunitiesUnionFind (engine us fs) = Normal cs
           ∧ Community.users <$> cs
             = [["Alice"; "Bob"; "Charlie"; "Diana"; "Eve"; "Frank"]])
  ∧ (∃ cs, findCommunities (engine us fs) = Normal cs
           ∧ Community.users <$> cs
             = [["Alice"; "Eve"; "Frank"; "Bob"; "Charlie"; "Diana"]])
  ∧ findMutualFriends (engine us fs) "Bob"
    = Normal [Suggestion.mk "Diana" 1 ["Charlie"]; Suggestion.mk "Eve" 1 ["Alice"]]
  ∧ (∃ cs, findCommunities (engine us cut) = Normal cs
           ∧ Community.users <$> cs
             = [["Alice"; "Bob"; "Charlie"; "Diana"]; ["Eve"; "Frank"]])
  ∧ findShortestPath (engine us cut) "Diana" "Frank" = Normal None.
Proof.
  intros us fs cut.
  split_and!; [by vm_compute| | |by vm_compute| |by vm_compute];
    (eexists; split; [by vm_compute|done]).
Qed.

(** Tie-break: the sort is stable, so suggestions with the same
    [mutualCount] stay in the order of the user list in which the loop
    collected them. *)
Lemma sort_insert_stable (n : nat) (s : Suggestion.t) (l : list Suggestion.t) :
  StronglySorted count_ge l →
  filter (λ x, Suggestion.mutualCount x = n) (sort_insert by_count_desc s l)
  = filter (λ x, Suggestion.mutualCount x = n) (s :: l).
Proof.
  induction 1 as [|y l Hl IH Hy]; [done|]. simpl.
  destruct (0 <? by_count_desc s y)%Z eqn:Hc; [|done].
  apply Z.ltb_lt in Hc. unfold by_count_desc in Hc.
  rewrite !filter_cons, IH, !filter_cons.
  repeat case_decide; try done. lia.
Qed.

Theorem suggestions_tie_break (g : GraphAlgorithms) (userId : string) (n : nat) :
  ∃ l, findMutualFriends g userId = Normal l
       ∧ filter (λ s, Suggestion.mutualCount s = n) l
         = filter (λ s, Suggestion.mutualCount s = n)
                  (foldl (suggest_step g userId) [] (users g)).
Proof.
  eexists. split; [done|].
  generalize (foldl (suggest_step g userId) [] (users g)). intros l.
  unfold js_sort. induction l as [|s l IH]; [done|]. simpl.
  rewrite sort_insert_stable by apply js_sort_sorted.
  rewrite !filter_cons. by rewrite IH.
Qed.

(** A fully disconnected graph with distinct node ids: both methods return
    one singleton community per node, in the order of the node list, so
    there are as many communities as nodes. *)
Lemma neighbors_no_edges us x : neighbors (engine us []) x = [].
Proof.
  destruct (neighbors (engine us []) x) as [|y l] eqn:E; [done|].
  assert (y ∈ neighbors (engine us []) x) as Hy by (rewrite E; by left).
  apply elem_of_neighbors in Hy as [_ (f & ?%elem_of_nil & _)]. done.
Qed.

Lemma communities_loop_no_edges us (rest : list User.t) : ∀ vis cs cid,
  NoDup (ids rest) → (∀ u, u ∈ ids rest → u ∉ vis) →
  ∃ cs', communities_loop (engine us []) rest vis cs cid = Normal cs'
         ∧ Community.users <$> cs'
           = (Community.users <$> cs) ++ ((λ u, [u]) <$> ids rest).
Proof.
  induction rest as [|user rest IH]; intros vis cs cid Hnd Hvis; simpl.
  - exists cs. by rewrite app_nil_r.
  - apply NoDup_cons in Hnd as [Hu Hnd].
    rewrite decide_False by (apply Hvis; by left).
    unfold dfsVisit, dfs_fuel. simpl.
    rewrite decide_False by (apply Hvis; by left).
    rewrite neighbors_no_edges. simpl.
    destruct (IH ({[User.id user]} ∪ vis)
                (cs ++ [Community.mk cid [User.id user] (color_of cid)]) (S cid))
      as (cs' & -> & Hcs'); [done| |].
    + intros u Hin [->%elem_of_singleton|?]%elem_of_union; [done|].
      apply (Hvis u); [by right|done].
    + exists cs'. split; [done|]. rewrite Hcs', fmap_app, <- app_assoc. done.
Qed.

Lemma find_self fuel par (a : string) :
  par !! Some a = Some (Some a) → find (S fuel) par (Some a) = Normal (Some a, par).
Proof.
  intros Ha. simpl. assert (pget par (Some a) = Some a) as Hp.
  { unfold pget. by rewrite Ha. }
  rewrite !Hp. by rewrite decide_True.
Qed.

Lemma group_push_new root uid groups :
  root ∉ groups.*1 → group_push root uid groups = groups ++ [(root, [uid])].
Proof.
  induction groups as [|[k m] groups IH]; csimpl; intros Hk; [done|].
  rewrite decide_False.
  - rewrite IH; [done|]. intros ?. apply Hk. by right.
  - intros ->. apply Hk. by left.
Qed.

Lemma group_all_no_edges fuel par (rest : list User.t) : ∀ groups,
  NoDup (ids rest) →
  (∀ u, u ∈ ids rest → par !! Some u = Some (Some u) ∧ Some u ∉ groups.*1) →
  ∃ groups', group_all (S fuel) rest par groups = Normal groups'
             ∧ groups'.*2 = groups.*2 ++ ((λ u, [u]) <$> ids rest).
Proof.
  induction rest as [|user rest IH]; intros groups Hnd Hpar.
  - exists groups. simpl. by rewrite app_nil_r.
  - apply NoDup_cons in Hnd as [Hu Hnd].
    destruct (Hpar (User.id user)) as [Hself Hnew]; [by left|].
    cbn [group_all]. rewrite find_self by done. cbn [cbind fst snd].
    rewrite group_push_new by done.
    destruct (IH (groups ++ [(Some (User.id user), [User.id user])])) as (groups' & -> & Hg');
      [done| |].
    + intros u Hin. destruct (Hpar u) as [? Hn]; [by right|]. split; [done|].
      rewrite fmap_app. intros [?|[= ->]%list_elem_of_singleton]%elem_of_app; done.
    + exists groups'. split; [done|]. rewrite Hg', fmap_app, <- app_assoc. done.
Qed.

Theorem disconnected_graph_communities us :
  NoDup (ids us) →
  ∃ cs cs',
    findCommunities (engine us []) = Normal cs
    ∧ findCommunitiesUnionFind (engine us []) = Normal cs'
    ∧ Community.users <$> cs = (λ u, [u]) <$> ids us
    ∧ Community.users <$> cs' = (λ u, [u]) <$> ids us
    ∧ length cs = length us ∧ length cs' = length us.
Proof.
  intros Hnd.
  destruct (communities_loop_no_edges us us ∅ [] 0 Hnd) as (cs & Hcs & Hmem).
  { intros u _. apply not_elem_of_empty. }
  unfold findCommunitiesUnionFind, uf_fuel. cbn [friendships engine union_all cbind users].
  destruct (group_all_no_edges 2 (uf_parent (uf_init us)) us [] Hnd) as (groups & Hg & Hmem').
  { intros u Hu. split; [|apply not_elem_of_nil].
    destruct (uf_init_lookup us u) as [-> _]. by rewrite decide_True. }
  cbn [length]. rewrite Hg. cbn [cbind].
  eexists cs, _. split_and!; [done|done|done| | |].
  - rewrite fmap_imap. unfold compose. simpl.
    change (imap (const snd) groups = (λ u, [u]) <$> ids us).
    by rewrite imap_const.
  - apply (f_equal length) in Hmem. simpl in Hmem. unfold ids in Hmem.
    by rewrite !length_fmap in Hmem.
  - rewrite length_imap. apply (f_equal length) in Hmem'. simpl in Hmem'.
    unfold ids in Hmem'. by rewrite !length_fmap in Hmem'.
Qed.

Lemma disconnected_graph_communities_witness :
  let us := [User.mk "a" "A"; User.mk "b" "B"] in
  ∃ cs cs',
    findCommunities (engine us []) = Normal cs
    ∧ findCommunitiesUnionFind (engine us []) = Normal cs'
    ∧ Community.users <$> cs = (λ u, [u]) <$> ids us
    ∧ Community.users <$> cs' = (λ u, [u]) <$> ids us
    ∧ length cs = length us ∧ length cs' = length us.
Proof.
  intros us. apply (disconnected_graph_communities us).
  apply (bool_decide_unpack _). vm_compute. exact I.
Defined.

(** * The data store: what each call does *)

Section store_basics.

Implicit Types (m : GraphDataManager.t) (us : list User.t)
  (fs : list Friendship.t) (s t x y u : string).

Lemma users_write_users (l : list User.t) m :
  GraphDataManager.users (GraphDataManager.write_users l m) = l.
Proof.
  unfold GraphDataManager.users, GraphDataManager.write_users.
  by destruct (GraphDataManager.data_users m).
Qed.

Lemma friendships_write_users (l : list User.t) m :
  GraphDataManager.friendships (GraphDataManager.write_users l m)
  = GraphDataManager.friendships m.
Proof.
  unfold GraphDataManager.friendships, GraphDataManager.write_users.
  by destruct (GraphDataManager.data_users m).
Qed.

Lemma users_write_friendships (l : list Friendship.t) m :
  GraphDataManager.users (GraphDataManager.write_friendships l m)
  = GraphDataManager.users m.
Proof.
  unfold GraphDataManager.users, GraphDataManager.write_friendships.
  by destruct (GraphDataManager.data_friendships m).
Qed.

Lemma friendships_write_friendships (l : list Friendship.t) m :
  GraphDataManager.friendships (GraphDataManager.write_friendships l m) = l.
Proof.
  unfold GraphDataManager.friendships, GraphDataManager.write_friendships.
  by destruct (GraphDataManager.data_friendships m).
Qed.

Lemma users_assign_friendships (l : list Friendship.t) m :
  GraphDataManager.users (GraphDataManager.assign_friendships l m)
  = GraphDataManager.users m.
Proof. done. Qed.

Lemma friendships_assign_friendships (l : list Friendship.t) m :
  GraphDataManager.friendships (GraphDataManager.assign_friendships l m) = l.
Proof. done. Qed.

Lemma Exists_id us x : Exists (λ user, User.id user = x) us ↔ x ∈ ids us.
Proof.
  rewrite Exists_exists. unfold ids. rewrite list_elem_of_fmap. naive_solver.
Qed.

Lemma Exists_joins fs s t :
  Exists (GraphDataManager.joins s t) fs ↔ linked fs s t.
Proof. rewrite Exists_exists. done. Qed.

Lemma linked_filter (P : Friendship.t → Prop) `{∀ f, Decision (P f)} fs x y :
  linked (filter P fs) x y
  ↔ ∃ f, f ∈ fs ∧ P f ∧ GraphDataManager.joins x y f.
Proof.
  unfold linked. setoid_rewrite list_elem_of_filter.
  unfold GraphDataManager.joins. naive_solver.
Qed.

Lemma filter_all {A} (P : A → Prop) `{∀ a, Decision (P a)} (l : list A) :
  Forall P l → filter P l = l.
Proof.
  induction 1 as [|a l Ha _ IH]; [done|].
  by rewrite filter_cons_True, IH.
Qed.

Lemma length_filter_lt {A} (P : A → Prop) `{∀ a, Decision (P a)} (l : list A) :
  length (filter P l) < length l ↔ Exists (λ a, ¬ P a) l.
Proof.
  induction l as [|a l IH]; simpl.
  - rewrite Exists_nil. split; [lia|done].
  - rewrite Exists_cons. pose proof (length_filter P l).
    destruct (decide (P a)) as [Ha|Ha].
    + rewrite filter_cons_True by done. simpl. rewrite <- IH. split; [|intros [?|?]]; try lia.
      done.
    + rewrite filter_cons_False by done. split; [auto|]. lia.
Qed.

(** The ids left when the first user with id [u] is removed. *)
Lemma ids_delete_first us u i user :
  list_find (λ v, User.id v = u) us = Some (i, user) →
  (∀ x, x ≠ u → (x ∈ ids (delete i us) ↔ x ∈ ids us))
  ∧ (∀ x, x ∈ ids (delete i us) → x ∈ ids us)
  ∧ (NoDup (ids us) → u ∉ ids (delete i us))
  ∧ length (delete i us) + 1 = length us.
Proof.
  intros (Hi & Hu & _)%list_find_Some.
  assert (ids us = take i (ids us) ++ u :: drop (S i) (ids us)) as Hsplit.
  { rewrite <- Hu. unfold ids. rewrite <- fmap_take, <- fmap_drop.
    rewrite <- fmap_cons, <- fmap_app. f_equal.
    symmetry. by apply take_drop_middle. }
  assert (ids (delete i us) = take i (ids us) ++ drop (S i) (ids us)) as Hdel.
  { unfold ids. rewrite list_fmap_delete. apply delete_take_drop. }
  split_and!.
  - intros x Hx. rewrite Hdel. rewrite Hsplit at 3.
    rewrite !elem_of_app, elem_of_cons. naive_solver.
  - intros x. rewrite Hdel. rewrite Hsplit at 3.
    rewrite !elem_of_app, elem_of_cons. naive_solver.
  - rewrite Hdel. rewrite Hsplit at 1. intros Hnd.
    apply NoDup_app in Hnd as (_ & Hl & Hr).
    apply NoDup_cons in Hr as [Hr _].
    rewrite elem_of_app. intros [Hin|Hin]; [|done].
    apply (Hl u Hin). by left.
  - rewrite length_delete by (by eexists). apply lookup_lt_Some in Hi. lia.
Qed.

End store_basics.

(** ** addFriendship *)

Lemma addFriendship_cases (s t : string) (m : GraphDataManager.t) :
  let us := GraphDataManager.users m in
  let fs := GraphDataManager.friendships m in
  (s ∈ ids us ∧ t ∈ ids us ∧ s ≠ t ∧ ¬ linked fs s t
   ∧ GraphDataManager.addFriendship s t m
     = (GraphDataManager.write_friendships (fs ++ [Friendship.mk s t]) m, true))
  ∨ (¬ (s ∈ ids us ∧ t ∈ ids us ∧ s ≠ t ∧ ¬ linked fs s t)
     ∧ GraphDataManager.addFriendship s t m = (m, false)).
Proof.
  intros us fs. unfold GraphDataManager.addFriendship. fold us fs.
  destruct (decide (s ∈ ids us)) as [Hs|Hs];
    [rewrite (bool_decide_eq_true_2 _ (proj2 (Exists_id us s) Hs))
    |rewrite (bool_decide_eq_false_2 (Exists _ us))
       by (by rewrite Exists_id)]; simpl; [|right; tauto].
  destruct (decide (t ∈ ids us)) as [Ht|Ht];
    [rewrite (bool_decide_eq_true_2 _ (proj2 (Exists_id us t) Ht))
    |rewrite (bool_decide_eq_false_2 (Exists _ us))
       by (by rewrite Exists_id)]; simpl; [|right; tauto].
  destruct (decide (s = t)) as [Hst|Hst];
    [rewrite bool_decide_eq_true_2 by done
    |rewrite bool_decide_eq_false_2 by done]; simpl; [right; tauto|].
  destruct (decide (Exists (GraphDataManager.joins s t) fs)) as [Hl|Hl];
    [rewrite (bool_decide_eq_true_2 _ Hl)|rewrite (bool_decide_eq_false_2 _ Hl)];
    rewrite Exists_joins in Hl; simpl; [right; tauto|].
  left. done.
Qed.

(** [addFriendship(s, t)] returns [true] exactly when [s] and [t] are two
    different listed users that no friendship joins yet; it then appends the
    friendship (s, t), and otherwise changes nothing.  Afterwards the
    friendship relation is the old one, plus the pair of [s] and [t] when the
    call returned [true]; the users are untouched. *)
Theorem addFriendship_spec (s t : string) (m : GraphDataManager.t) :
  let r := GraphDataManager.addFriendship s t m in
  let us := GraphDataManager.users m in
  let fs := GraphDataManager.friendships m in
  (r.2 = true ↔ s ∈ ids us ∧ t ∈ ids us ∧ s ≠ t ∧ ¬ linked fs s t)
  ∧ (r.2 = true →
       GraphDataManager.friendships r.1 = fs ++ [Friendship.mk s t])
  ∧ (r.2 = false → r.1 = m)
  ∧ GraphDataManager.users r.1 = us
  ∧ (∀ x y, linked (GraphDataManager.friendships r.1) x y
            ↔ linked fs x y
              ∨ (r.2 = true ∧ ((x = s ∧ y = t) ∨ (x = t ∧ y = s)))).
Proof.
  intros r us fs. subst r us fs.
  destruct (addFriendship_cases s t m) as [(Hs & Ht & Hst & Hl & ->)|[Hn ->]];
    simpl.
  - rewrite friendships_write_friendships, users_write_friendships.
    split_and!; try done.
    intros x y. rewrite linked_snoc. simpl. naive_solver.
  - split_and!; try done; naive_solver.
Qed.

(** ** removeFriendship *)

(** [removeFriendship(s, t)] returns [true] exactly when a friendship joined
    [s] and [t]; afterwards no friendship joins them, in either orientation,
    every other pair is joined as before, and the users are untouched. *)
Theorem removeFriendship_spec (s t : string) (m : GraphDataManager.t) :
  let r := GraphDataManager.removeFriendship s t m in
  let fs := GraphDataManager.friendships m in
  (r.2 = true ↔ linked fs s t)
  ∧ GraphDataManager.users r.1 = GraphDataManager.users m
  ∧ ¬ linked (GraphDataManager.friendships r.1) s t
  ∧ ¬ linked (GraphDataManager.friendships r.1) t s
  ∧ (∀ x y, linked (GraphDataManager.friendships r.1) x y
            ↔ linked fs x y ∧ ¬ ((x = s ∧ y = t) ∨ (x = t ∧ y = s))).
Proof.
  intros r fs.
  assert (GraphDataManager.friendships r.1
          = filter (λ f, ¬ GraphDataManager.joins s t f) fs) as Hfs.
  { unfold r, GraphDataManager.removeFriendship. by case_bool_decide. }
  assert (∀ x y, linked (GraphDataManager.friendships r.1) x y
            ↔ linked fs x y ∧ ¬ ((x = s ∧ y = t) ∨ (x = t ∧ y = s))) as Hl.
  { intros x y. rewrite Hfs, linked_filter. unfold linked, GraphDataManager.joins.
    split.
    - intros (f & Hf & Hn & Hj). split; [eauto|]. naive_solver.
    - intros [(f & Hf & Hj) Hn]. exists f. split_and!; [done| |done].
      naive_solver. }
  split_and!.
  - unfold r, GraphDataManager.removeFriendship.
    rewrite friendships_assign_friendships. fold fs.
    case_bool_decide as Hlen; simpl.
    + split; [intros _|done]. apply length_filter_lt in Hlen.
      apply Exists_exists in Hlen as (f & Hf & Hj).
      exists f. split; [done|]. unfold GraphDataManager.joins in Hj.
      destruct (decide ((Friendship.source f = s ∧ Friendship.target f = t)
                        ∨ (Friendship.source f = t ∧ Friendship.target f = s)));
        tauto.
    + split; [done|]. intros (f & Hf & Hj). exfalso. apply Hlen.
      apply length_filter_lt. apply Exists_exists. exists f. split; [done|].
      unfold GraphDataManager.joins. tauto.
  - unfold r, GraphDataManager.removeFriendship. by case_bool_decide.
  - rewrite Hl. naive_solver.
  - rewrite Hl. naive_solver.
  - exact Hl.
Qed.

(** Round trip: a friendship that [addFriendship] has just added is removed
    again by [removeFriendship], called with the two ids in either order,
    and the users and the friendship list are then what they were before the
    two calls. *)
Theorem add_remove_friendship (s t : string) (m m1 : GraphDataManager.t) :
  GraphDataManager.addFriendship s t m = (m1, true) →
  ∀ a b, (a = s ∧ b = t) ∨ (a = t ∧ b = s) →
    let r := GraphDataManager.removeFriendship a b m1 in
    r.2 = true
    ∧ GraphDataManager.friendships r.1 = GraphDataManager.friendships m
    ∧ GraphDataManager.users r.1 = GraphDataManager.users m.
Proof.
  intros Hadd a b Hab r.
  destruct (addFriendship_cases s t m) as [(_ & _ & _ & Hnl & He)|[_ He]];
    rewrite He in Hadd; [|done].
  injection Hadd as <-.
  pose proof (friendships_write_friendships
                (GraphDataManager.friendships m ++ [Friendship.mk s t]) m) as Hfs.
  pose proof (users_write_friendships
                (GraphDataManager.friendships m ++ [Friendship.mk s t]) m) as Hus.
  set (m1 := GraphDataManager.write_friendships _ m) in *.
  assert (GraphDataManager.friendships r.1
          = filter (λ f, ¬ GraphDataManager.joins a b f)
                   (GraphDataManager.friendships m1)) as Hr.
  { unfold r, GraphDataManager.removeFriendship. by case_bool_decide. }
  assert (filter (λ f, ¬ GraphDataManager.joins a b f)
                 (GraphDataManager.friendships m1)
          = GraphDataManager.friendships m) as Hfilter.
  { rewrite Hfs, filter_app, filter_cons_False, filter_nil, app_nil_r.
    - apply filter_all. apply Forall_forall. intros f Hf Hj. apply Hnl.
      exists f. split; [done|]. unfold GraphDataManager.joins in Hj. naive_solver.
    - intros Hn. apply Hn. unfold GraphDataManager.joins. simpl. naive_solver. }
  split_and!.
  - unfold r, GraphDataManager.removeFriendship.
    rewrite friendships_assign_friendships, Hfilter, Hfs.
    rewrite bool_decide_eq_true_2; [done|]. rewrite length_app. simpl. lia.
  - by rewrite Hr.
  - rewrite <- Hus. unfold r, GraphDataManager.removeFriendship.
    by case_bool_decide.
Qed.

Lemma add_remove_friendship_witness :
  let m := GraphDataManager.constructor None in
  let m1 := (GraphDataManager.addFriendship "1" "3" m).1 in
  let r := GraphDataManager.removeFriendship "3" "1" m1 in
  GraphDataManager.addFriendship "1" "3" m = (m1, true)
  ∧ r.2 = true
  ∧ GraphDataManager.friendships r.1 = GraphDataManager.friendships m
  ∧ GraphDataManager.users r.1 = GraphDataManager.users m.
Proof.
  intros m m1 r.
  assert (Hadd : GraphDataManager.addFriendship "1" "3" m = (m1, true)).
  { vm_compute. reflexivity. }
  split; [exact Hadd|].
  exact (add_remove_friendship "1" "3" m m1 Hadd "3" "1"
           (or_intror (conj eq_refl eq_refl))).
Defined.

(** ** removeUser, updateUser, addUser *)

Lemma removeUser_cases (u : string) (m : GraphDataManager.t) :
  ((u ∉ ids (GraphDataManager.users m))
   ∧ GraphDataManager.removeUser u m = (m, false))
  ∨ (∃ i user r,
       list_find (λ v, User.id v = u) (GraphDataManager.users m) = Some (i, user)
       ∧ GraphDataManager.removeUser u m = (r, true)
       ∧ GraphDataManager.users r = delete i (GraphDataManager.users m)
       ∧ GraphDataManager.friendships r
         = filter (λ f, Friendship.source f ≠ u ∧ Friendship.target f ≠ u)
                  (GraphDataManager.friendships m)).
Proof.
  unfold GraphDataManager.removeUser.
  destruct (list_find _ (GraphDataManager.users m)) as [[i user]|] eqn:Hfind.
  - right. eexists i, user, _. split_and!; [done|done| |].
    + by rewrite users_assign_friendships, users_write_users.
    + by rewrite friendships_assign_friendships, friendships_write_users.
  - left. split; [|done]. apply list_find_None in Hfind.
    rewrite <- Exists_id. by apply Forall_Exists_neg.
Qed.

(** [removeUser(u)] returns [true] exactly when [u] is the id of a listed
    user, and otherwise changes nothing.  When it returns [true], it has
    removed the first user with that id and no other user, and every
    friendship that names [u]: two ids are joined afterwards exactly when
    they were joined before and neither is [u].  When the ids were distinct,
    [u] is no longer listed. *)
Theorem removeUser_spec (u : string) (m : GraphDataManager.t) :
  let r := GraphDataManager.removeUser u m in
  let us := GraphDataManager.users m in
  let fs := GraphDataManager.friendships m in
  (r.2 = true ↔ u ∈ ids us)
  ∧ (r.2 = false → r.1 = m)
  ∧ (r.2 = true →
       (∃ i, ids us !! i = Some u
             ∧ (∀ j, j < i → ids us !! j ≠ Some u)
             ∧ GraphDataManager.users r.1 = delete i us)
       ∧ (∀ x, x ≠ u → (x ∈ ids (GraphDataManager.users r.1) ↔ x ∈ ids us))
       ∧ (NoDup (ids us) → u ∉ ids (GraphDataManager.users r.1))
       ∧ (∀ f, f ∈ GraphDataManager.friendships r.1
               ↔ f ∈ fs ∧ Friendship.source f ≠ u ∧ Friendship.target f ≠ u)
       ∧ (∀ x y, linked (GraphDataManager.friendships r.1) x y
                 ↔ linked fs x y ∧ x ≠ u ∧ y ≠ u)).
Proof.
  intros r us fs. subst r us fs.
  destruct (removeUser_cases u m) as [[Hu ->]|(i & user & r & Hfind & -> & Hus & Hfs)];
    simpl.
  { split_and!; [|done|done]. split; [done|]. intros ?. done. }
  destruct (ids_delete_first _ _ _ _ Hfind) as (Hne & _ & Hnd & _).
  pose proof Hfind as (Hi & Hid & Hfirst)%list_find_Some.
  split_and!; [|done|intros _; split_and!].
  - split; [intros _|done]. rewrite <- Exists_id. apply Exists_exists.
    exists user. split; [|done]. by eapply list_elem_of_lookup_2.
  - exists i. split_and!; [| |done].
    + unfold ids. by rewrite list_lookup_fmap, Hi, <- Hid.
    + intros j Hj. unfold ids. rewrite list_lookup_fmap.
      destruct (GraphDataManager.users m !! j) as [v|] eqn:Hv; [|done].
      simpl. intros [= Hvu]. by apply (Hfirst j v).
  - rewrite Hus. exact Hne.
  - rewrite Hus. exact Hnd.
  - intros f. rewrite Hfs, list_elem_of_filter. tauto.
  - intros x y. rewrite Hfs, linked_filter. unfold linked, GraphDataManager.joins.
    split.
    + intros (f & Hf & [Hs Ht] & Hj). split; [eauto|]. naive_solver.
    + intros ((f & Hf & Hj) & Hx & Hy). exists f. naive_solver.
Qed.

Lemma updateUser_cases (u name : string) (m : GraphDataManager.t) :
  ((u ∉ ids (GraphDataManager.users m))
   ∧ GraphDataManager.updateUser u name m = (m, false))
  ∨ (∃ i user r,
       list_find (λ v, User.id v = u) (GraphDataManager.users m) = Some (i, user)
       ∧ GraphDataManager.updateUser u name m = (r, true)
       ∧ GraphDataManager.users r
         = <[i := User.mk u name]> (GraphDataManager.users m)
       ∧ GraphDataManager.friendships r = GraphDataManager.friendships m).
Proof.
  unfold GraphDataManager.updateUser.
  destruct (list_find _ (GraphDataManager.users m)) as [[i user]|] eqn:Hfind.
  - right. eexists i, user, _. split_and!; [done|done| |].
    + rewrite users_write_users. apply list_find_Some in Hfind as (_ & -> & _).
      done.
    + by rewrite friendships_write_users.
  - left. split; [|done]. apply list_find_None in Hfind.
    rewrite <- Exists_id. by apply Forall_Exists_neg.
Qed.

(** [updateUser] leaves the ids and the friendships as they are. *)
Lemma updateUser_ids (u name : string) (m : GraphDataManager.t) :
  ids (GraphDataManager.users (GraphDataManager.updateUser u name m).1)
  = ids (GraphDataManager.users m)
  ∧ GraphDataManager.friendships (GraphDataManager.updateUser u name m).1
    = GraphDataManager.friendships m.
Proof.
  destruct (updateUser_cases u name m) as [[Hu ->]|(i & user & r & Hfind & -> & Hus & Hfs)];
    simpl; [done|].
  split; [|done]. rewrite Hus. unfold ids. rewrite list_fmap_insert. simpl.
  apply list_insert_id. apply list_find_Some in Hfind as (Hi & <- & _).
  by rewrite list_lookup_fmap, Hi.
Qed.

(** The decimal numeral of an integer is not the empty string. *)
Lemma pretty_N_go_nonempty (x : N) (c : Ascii.ascii) (s : string) :
  pretty_N_go x (String c s) ≠ EmptyString.
Proof.
  revert c s. induction (N.lt_wf_0 x) as [x _ IH]; intros c s.
  assert (x = 0 ∨ 0 < x)%N as [->|?] by lia.
  - by rewrite pretty_N_go_0.
  - rewrite pretty_N_go_step by done. apply IH. by apply N.div_lt.
Qed.

Lemma pretty_N_nonempty (x : N) : pretty x ≠ EmptyString.
Proof.
  unfold pretty, pretty_N. case_decide; [done|].
  rewrite pretty_N_go_step by lia. apply pretty_N_go_nonempty.
Qed.

Lemma pretty_Z_nonempty (x : Z) : pretty x ≠ EmptyString.
Proof.
  destruct x as [|p|p]; [done|apply pretty_N_nonempty|done].
Qed.

(** [addUser(name)] appends the user whose id is the decimal numeral of the
    clock reading, and leaves the friendships as they are.  The new id is
    not the empty string, and two clock readings give the same id only when
    they are equal; the call does not look for the id among the listed
    users, so the ids are distinct afterwards exactly when they were and the
    numeral was not yet an id. *)
Theorem addUser_spec (now : Z) (name : string) (m : GraphDataManager.t) :
  let r := GraphDataManager.addUser now name m in
  let us := GraphDataManager.users m in
  r.2 = User.mk (pretty now) name
  ∧ GraphDataManager.users r.1 = us ++ [r.2]
  ∧ GraphDataManager.friendships r.1 = GraphDataManager.friendships m
  ∧ User.id r.2 ≠ EmptyString
  ∧ (∀ now' : Z, pretty now' = User.id r.2 → now' = now)
  ∧ (NoDup (ids (GraphDataManager.users r.1))
     ↔ NoDup (ids us) ∧ pretty now ∉ ids us).
Proof.
  intros r us. subst r us. unfold GraphDataManager.addUser. simpl.
  rewrite users_write_users, friendships_write_users.
  split_and!; [done|done|done|apply pretty_Z_nonempty| |].
  - intros now' Hp. by apply (inj pretty).
  - unfold ids. rewrite fmap_app. simpl. rewrite NoDup_app.
    split.
    + intros (Hnd & Hdis & _). split; [done|]. intros Hin.
      apply (Hdis _ Hin). by left.
    + intros [Hnd Hnew]. split_and!; [done| |apply NoDup_singleton].
      intros x Hx ->%list_elem_of_singleton. done.
Qed.

(** ** What the item-by-item edits keep *)

Lemma pairs_once_snoc fs f :
  pairs_once fs → ¬ linked fs (Friendship.source f) (Friendship.target f) →
  pairs_once (fs ++ [f]).
Proof.
  induction fs as [|g fs IH]; simpl.
  - intros _ _. split; [|done]. intros (? & ?%elem_of_nil & _). done.
  - intros [Hg Hfs] Hf. split.
    + rewrite linked_snoc. intros [Hl|Hj]; [done|]. apply Hf.
      exists g. split; [by left|]. naive_solver.
    + apply IH; [done|]. intros (h & Hh & Hj). apply Hf.
      exists h. split; [by right|done].
Qed.

Lemma pairs_once_filter (P : Friendship.t → Prop) `{∀ f, Decision (P f)} fs :
  pairs_once fs → pairs_once (filter P fs).
Proof.
  induction fs as [|g fs IH]; [done|]. simpl. intros [Hg Hfs].
  destruct (decide (P g)).
  - rewrite filter_cons_True by done. simpl. split; [|by apply IH].
    rewrite linked_filter. intros (f & Hf & _ & Hj). apply Hg. by exists f.
  - rewrite filter_cons_False by done. by apply IH.
Qed.

Lemma store_ok_filter (P : Friendship.t → Prop) `{∀ f, Decision (P f)} us fs :
  store_ok us fs → store_ok us (filter P fs).
Proof.
  intros [Hp Hl Ho Hi]. split; [| |by apply pairs_once_filter|done].
  - unfold edges_present in *. rewrite Forall_forall in *.
    intros f [_ Hf]%list_elem_of_filter. by apply Hp.
  - unfold no_self_loops in *. rewrite Forall_forall in *.
    intros f [_ Hf]%list_elem_of_filter. by apply Hl.
Qed.

Lemma store_ok_ids us us' fs :
  ids us' = ids us → store_ok us fs → store_ok us' fs.
Proof.
  intros Hids [Hp Hl Ho Hi]. split; [|done|done|by rewrite Hids].
  unfold edges_present in *. by rewrite Hids.
Qed.

Lemma apply_edit_ok (e : GraphDataManager.edit) (m : GraphDataManager.t) :
  store_ok (GraphDataManager.users m) (GraphDataManager.friendships m) →
  store_ok (GraphDataManager.users (GraphDataManager.apply_edit m e))
           (GraphDataManager.friendships (GraphDataManager.apply_edit m e)).
Proof.
  intros Hok. destruct e as [now name|u|u name|s t|s t]; simpl.
  - unfold GraphDataManager.addUser. simpl.
    rewrite users_write_users, friendships_write_users.
    destruct Hok as [Hp Hl Ho Hi]. split; [|done|done|].
    + unfold edges_present in *. eapply Forall_impl; [exact Hp|]. simpl.
      intros f [Hs Ht]. unfold ids. rewrite fmap_app, !elem_of_app. auto.
    + unfold ids. rewrite fmap_app. apply Forall_app. split; [done|].
      apply Forall_singleton. apply pretty_Z_nonempty.
  - destruct (removeUser_cases u m) as [[Hu ->]|(i & user & r & Hfind & -> & Hus & Hfs)];
      simpl; [done|].
    destruct (ids_delete_first _ _ _ _ Hfind) as (Hne & Hsub & _ & _).
    rewrite Hus, Hfs.
    destruct (store_ok_filter
                (λ f, Friendship.source f ≠ u ∧ Friendship.target f ≠ u) _ _ Hok)
      as [Hp Hl Ho Hi].
    split; [|done|done|].
    + unfold edges_present in *. rewrite Forall_forall in *.
      intros f Hf. pose proof Hf as [[Hs Ht] _]%list_elem_of_filter.
      destruct (Hp f Hf). split; by apply Hne.
    + rewrite Forall_forall in *. intros x Hx. by apply Hi, Hsub.
  - destruct (updateUser_ids u name m) as [Hids ->].
    by apply (store_ok_ids _ _ _ Hids).
  - destruct (addFriendship_cases s t m) as [(Hs & Ht & Hst & Hl & ->)|[Hn ->]];
      simpl; [|done].
    rewrite friendships_write_friendships, users_write_friendships.
    destruct Hok as [Hp Hlo Ho Hi]. split; [| | |done].
    + unfold edges_present in *. apply Forall_app. split; [done|].
      by apply Forall_singleton.
    + unfold no_self_loops in *. apply Forall_app. split; [done|].
      by apply Forall_singleton.
    + by apply pairs_once_snoc.
  - unfold GraphDataManager.removeFriendship.
    case_bool_decide; simpl; by apply store_ok_filter.
Qed.

Lemma run_ok (es : list GraphDataManager.edit) : ∀ m,
  store_ok (GraphDataManager.users m) (GraphDataManager.friendships m) →
  store_ok (GraphDataManager.users (GraphDataManager.run es m))
           (GraphDataManager.friendships (GraphDataManager.run es m)).
Proof.
  unfold GraphDataManager.run.
  induction es as [|e es IH]; intros m Hok; simpl; [done|].
  by apply IH, apply_edit_ok.
Qed.

Lemma sample_ok :
  store_ok (GraphDataManager.users (GraphDataManager.constructor None))
           (GraphDataManager.friendships (GraphDataManager.constructor None)).
Proof.
  split.
  - apply (bool_decide_unpack _). by vm_compute.
  - apply (bool_decide_unpack _). by vm_compute.
  - apply (bool_decide_unpack _). by vm_compute.
  - apply (bool_decide_unpack _). by vm_compute.
Qed.

(** The edits of single items keep the data well formed: when every
    friendship joins two listed users, none joins a user to itself, no pair
    is listed twice and no id is the empty string, the same holds after any
    sequence of [addUser], [removeUser], [updateUser], [addFriendship] and
    [removeFriendship] calls, whatever their arguments and results. *)
Theorem edits_keep_store_ok (es : list GraphDataManager.edit)
    (m : GraphDataManager.t) :
  store_ok (GraphDataManager.users m) (GraphDataManager.friendships m) →
  store_ok (GraphDataManager.users (GraphDataManager.run es m))
           (GraphDataManager.friendships (GraphDataManager.run es m)).
Proof. apply run_ok. Qed.

Lemma edits_keep_store_ok_witness :
  let m := GraphDataManager.constructor None in
  let es := [GraphDataManager.AddUser 1700000000000 "Grace";
             GraphDataManager.AddFriendship "1700000000000" "4";
             GraphDataManager.RemoveUser "2";
             GraphDataManager.AddFriendship "6" "6";
             GraphDataManager.RemoveFriendship "5" "1";
             GraphDataManager.UpdateUser "3" "Carol"] in
  store_ok (GraphDataManager.users m) (GraphDataManager.friendships m)
  ∧ store_ok (GraphDataManager.users (GraphDataManager.run es m))
             (GraphDataManager.friendships (GraphDataManager.run es m)).
Proof.
  intros m es. split; [exact sample_ok|].
  exact (edits_keep_store_ok es m sample_ok).
Defined.

(** ** reset and the arrays of [initialData] *)

(** [reset] does not undo [addUser]: while [this.data.users] is the array
    of [initialData] (as it is in a manager constructed without stored data,
    and after every [reset]), [addUser] pushes onto that array, and a
    [reset] that follows yields the user list with the added user. *)
Theorem reset_keeps_added_user (now : Z) (name : string) (m : GraphDataManager.t) :
  GraphDataManager.data_users m = GraphDataManager.Initial →
  let m' := GraphDataManager.reset (GraphDataManager.addUser now name m).1 in
  GraphDataManager.users m'
  = GraphDataManager.users m ++ [User.mk (pretty now) name]
  ∧ GraphDataManager.initial_users m'
    = GraphDataManager.initial_users m ++ [User.mk (pretty now) name].
Proof.
  intros Hinit m'. subst m'.
  unfold GraphDataManager.reset, GraphDataManager.addUser,
    GraphDataManager.write_users, GraphDataManager.users.
  rewrite Hinit. simpl. done.
Qed.

Lemma reset_keeps_added_user_witness :
  let m := GraphDataManager.constructor None in
  GraphDataManager.data_users m = GraphDataManager.Initial
  ∧ GraphDataManager.users
      (GraphDataManager.reset (GraphDataManager.addUser 42 "Grace" m).1)
    = GraphData.users initialData ++ [User.mk "42" "Grace"].
Proof.
  intros m. split; [reflexivity|].
  exact (proj1 (reset_keeps_added_user 42 "Grace" m eq_refl)).
Defined.

(** [reset] after [removeUser] leaves friendships of the removed user:
    while both fields of [this.data] are the arrays of [initialData],
    [removeUser(u)] splices the user out of the shared user array and
    assigns a new, filtered friendship array; the array
    [initialData.friendships] still holds the friendships of [u].  After a
    [reset] the friendship list is the one from before the removal, [u] is
    not listed, and a friendship names it. *)
Theorem reset_after_removeUser (u y : string) (m : GraphDataManager.t) :
  GraphDataManager.data_users m = GraphDataManager.Initial →
  GraphDataManager.data_friendships m = GraphDataManager.Initial →
  NoDup (ids (GraphDataManager.users m)) →
  u ∈ ids (GraphDataManager.users m) →
  linked (GraphDataManager.friendships m) u y →
  let m' := GraphDataManager.reset (GraphDataManager.removeUser u m).1 in
  GraphDataManager.friendships m' = GraphDataManager.friendships m
  ∧ (u ∉ ids (GraphDataManager.users m'))
  ∧ linked (GraphDataManager.friendships m') u y
  ∧ ¬ edges_present (GraphDataManager.users m') (GraphDataManager.friendships m').
Proof.
  intros Hu Hf Hnd Hin Hl m'.
  assert (GraphDataManager.friendships m' = GraphDataManager.friendships m
          ∧ ∃ i user,
              list_find (λ v, User.id v = u) (GraphDataManager.users m)
              = Some (i, user)
              ∧ GraphDataManager.users m' = delete i (GraphDataManager.users m))
    as (Hfs & i & user & Hfind & Hus).
  { subst m'. unfold GraphDataManager.removeUser.
    destruct (list_find _ (GraphDataManager.users m)) as [[i user]|] eqn:Hfind.
    - split; [|exists i, user; split; [done|]].
      + unfold GraphDataManager.reset, GraphDataManager.write_users,
          GraphDataManager.friendships. rewrite Hu. simpl. by rewrite ?Hu, ?Hf.
      + unfold GraphDataManager.reset, GraphDataManager.write_users,
          GraphDataManager.users. rewrite Hu. simpl. by rewrite ?Hu, ?Hf.
    - exfalso. apply list_find_None in Hfind.
      apply Exists_id in Hin. by apply Forall_Exists_neg in Hfind. }
  destruct (ids_delete_first _ _ _ _ Hfind) as (_ & _ & Habs & _).
  assert (u ∉ ids (GraphDataManager.users m')) as Hgone.
  { rewrite Hus. by apply Habs. }
  split_and!; [done|done|by rewrite Hfs|].
  intros Hp. apply Hgone.
  eapply (linked_present _ _ u y Hp). by rewrite Hfs.
Qed.

Lemma reset_after_removeUser_witness :
  let m := GraphDataManager.constructor None in
  let m' := GraphDataManager.reset (GraphDataManager.removeUser "1" m).1 in
  (GraphDataManager.data_users m = GraphDataManager.Initial
   ∧ GraphDataManager.data_friendships m = GraphDataManager.Initial
   ∧ NoDup (ids (GraphDataManager.users m))
   ∧ "1" ∈ ids (GraphDataManager.users m)
   ∧ linked (GraphDataManager.friendships m) "1" "2")
  ∧ ¬ edges_present (GraphDataManager.users m') (GraphDataManager.friendships m').
Proof.
  intros m m'.
  assert (Hnd : NoDup (ids (GraphDataManager.users m))).
  { apply (bool_decide_unpack _). vm_compute. exact I. }
  assert (Hin : "1" ∈ ids (GraphDataManager.users m)).
  { apply (bool_decide_unpack _). vm_compute. exact I. }
  assert (Hl : linked (GraphDataManager.friendships m) "1" "2").
  { exists (Friendship.mk "1" "2"). split; [by left|]. left. done. }
  split; [split_and!; [reflexivity|reflexivity|exact Hnd|exact Hin|exact Hl]|].
  exact (proj2 (proj2 (proj2
    (reset_after_removeUser "1" "2" m eq_refl eq_refl Hnd Hin Hl)))).
Defined.

(** * The engine reads the users only through their ids *)

Section extensionality.

Context (g g' : GraphAlgorithms).
Context (Hn : ∀ x, neighbors g x = neighbors g' x).

Lemma bfs_loop_ext fuel e : ∀ st,
  bfs_loop fuel g e st = bfs_loop fuel g' e st.
Proof.
  induction fuel as [|fuel IH]; intros st; simpl; [done|].
  destruct (queue st) as [|c rest]; [done|]. rewrite Hn.
  destruct (scan_neighbors _ _ _ _) as [[r|st']| |]; simpl; auto.
Qed.

Lemma dfs_loop_ext fuel : ∀ stack vis community,
  dfs_loop fuel g stack vis community = dfs_loop fuel g' stack vis community.
Proof.
  induction fuel as [|fuel IH]; intros stack vis community; simpl; [done|].
  destruct stack as [|c stack]; [done|]. case_decide; [auto|].
  rewrite Hn. auto.
Qed.

Lemma communities_loop_ext :
  dfs_fuel g = dfs_fuel g' →
  ∀ us us' vis cs cid, ids us = ids us' →
    communities_loop g us vis cs cid = communities_loop g' us' vis cs cid.
Proof.
  intros Hf. induction us as [|user us IH]; intros [|user' us'] vis cs cid Hids;
    try done.
  injection Hids as Hid Hids. simpl. rewrite <- Hid.
  case_decide; [by apply IH|].
  unfold dfsVisit. rewrite Hf, dfs_loop_ext.
  destruct (dfs_loop _ _ _ _ _) as [[community vis']| |]; simpl; [|done|done].
  destruct (0 <? length community); by apply IH.
Qed.

Lemma suggest_loop_ext userId : ∀ us us' acc, ids us = ids us' →
  foldl (suggest_step g userId) acc us = foldl (suggest_step g' userId) acc us'.
Proof.
  induction us as [|user us IH]; intros [|user' us'] acc Hids; try done.
  injection Hids as Hid Hids. simpl.
  assert (suggest_step g userId acc user = suggest_step g' userId acc user') as ->.
  { unfold suggest_step. rewrite <- Hid, !Hn. done. }
  by apply IH.
Qed.

End extensionality.

Lemma init_adjacency_ids us us' :
  ids us = ids us' → init_adjacency us = init_adjacency us'.
Proof.
  intros Hids. unfold init_adjacency.
  rewrite <- (foldl_fmap (λ adj i, <[i := []]> adj) ∅ us User.id).
  rewrite <- (foldl_fmap (λ adj i, <[i := []]> adj) ∅ us' User.id).
  unfold ids in Hids. by rewrite Hids.
Qed.

Lemma uf_init_ids us us' : ids us = ids us' → uf_init us = uf_init us'.
Proof.
  intros Hids. unfold uf_init.
  rewrite <- (foldl_fmap (λ st i, mkUf (<[Some i := Some i]> (uf_parent st))
                                      (<[Some i := RNum 0]> (uf_rank st)))
                (mkUf ∅ ∅) us User.id).
  rewrite <- (foldl_fmap (λ st i, mkUf (<[Some i := Some i]> (uf_parent st))
                                      (<[Some i := RNum 0]> (uf_rank st)))
                (mkUf ∅ ∅) us' User.id).
  unfold ids in Hids. by rewrite Hids.
Qed.

Lemma group_all_ids fuel : ∀ us us' par groups, ids us = ids us' →
  group_all fuel us par groups = group_all fuel us' par groups.
Proof.
  induction us as [|user us IH]; intros [|user' us'] par groups Hids; try done.
  injection Hids as Hid Hids. simpl. rewrite <- Hid.
  destruct (find fuel par (Some (User.id user))) as [r| |]; simpl; [|done|done].
  by apply IH.
Qed.

(** Two user lists with the same ids give the same answers. *)
Lemma engine_ids us us' fs :
  ids us = ids us' →
  (∀ s e, findShortestPath (engine us fs) s e = findShortestPath (engine us' fs) s e)
  ∧ findCommunities (engine us fs) = findCommunities (engine us' fs)
  ∧ findCommunitiesUnionFind (engine us fs) = findCommunitiesUnionFind (engine us' fs)
  ∧ (∀ x, findMutualFriends (engine us fs) x = findMutualFriends (engine us' fs) x).
Proof.
  intros Hids.
  assert (adjacencyList (engine us fs) = adjacencyList (engine us' fs)) as Hadj.
  { simpl. unfold buildAdjacencyList. by rewrite (init_adjacency_ids us us'). }
  assert (∀ x, neighbors (engine us fs) x = neighbors (engine us' fs) x) as Hn.
  { intros x. unfold neighbors. by rewrite Hadj. }
  split_and!.
  - intros s e. unfold findShortestPath. case_decide; [done|].
    by rewrite (bfs_loop_ext _ _ Hn).
  - unfold findCommunities. simpl. apply communities_loop_ext; [done| |done].
    unfold dfs_fuel, pending_entries. by rewrite Hadj.
  - unfold findCommunitiesUnionFind, uf_fuel. simpl.
    rewrite (uf_init_ids us us' Hids).
    destruct (union_all _ _ _) as [st| |]; simpl; [|done|done].
    by rewrite (group_all_ids _ us us').
  - intros x. unfold findMutualFriends. simpl.
    by rewrite (suggest_loop_ext _ _ Hn x us us').
Qed.

(** Renaming a user is invisible to the analytics: [updateUser] changes
    neither the ids nor the friendships (it sets the name of the first user
    with the given id, which [getUser] then returns), and the four queries of
    the engine return on the data after the call what they return on the
    data before it. *)
Theorem updateUser_keeps_analytics (u name : string) (m : GraphDataManager.t) :
  let r := GraphDataManager.updateUser u name m in
  let g := engine (GraphDataManager.users m) (GraphDataManager.friendships m) in
  let g' := engine (GraphDataManager.users r.1) (GraphDataManager.friendships r.1) in
  (r.2 = true ↔ u ∈ ids (GraphDataManager.users m))
  ∧ (r.2 = true → GraphDataManager.getUser u r.1 = Some (User.mk u name))
  ∧ ids (GraphDataManager.users r.1) = ids (GraphDataManager.users m)
  ∧ GraphDataManager.friendships r.1 = GraphDataManager.friendships m
  ∧ (∀ s e, findShortestPath g' s e = findShortestPath g s e)
  ∧ findCommunities g' = findCommunities g
  ∧ findCommunitiesUnionFind g' = findCommunitiesUnionFind g
  ∧ (∀ x, findMutualFriends g' x = findMutualFriends g x).
Proof.
  intros r g g'. subst r g g'.
  destruct (updateUser_ids u name m) as [Hids Hfs].
  destruct (engine_ids _ _ (GraphDataManager.friendships m) Hids)
    as (Hpath & Hcomm & Huf & Hmut).
  rewrite Hfs. split_and!; try done.
  - destruct (updateUser_cases u name m)
      as [[Hu ->]|(i & user & r & Hfind & -> & Hus & _)]; simpl.
    + split; [done|]. intros ?. done.
    + split; [intros _|done]. rewrite <- Exists_id. apply Exists_exists.
      apply list_find_Some in Hfind as (Hi & Hid & _).
      exists user. split; [|done]. by eapply list_elem_of_lookup_2.
  - destruct (updateUser_cases u name m)
      as [[Hu ->]|(i & user & r & Hfind & -> & Hus & _)]; simpl; [done|].
    intros _. unfold GraphDataManager.getUser. rewrite Hus.
    apply list_find_Some in Hfind as (Hi & Hid & Hfirst).
    assert (list_find (λ v, User.id v = u)
              (<[i := User.mk u name]> (GraphDataManager.users m))
            = Some (i, User.mk u name)) as ->; [|done].
    apply list_find_Some. split_and!.
    + apply list_lookup_insert_eq. by eapply lookup_lt_Some.
    + done.
    + intros j y Hj Hlt. rewrite list_lookup_insert_ne in Hj by lia.
      by apply (Hfirst j y).
Qed.

(** * findCommunities on any input, and the statistics of the page *)

Section communities_any.

Context (g : GraphAlgorithms).

Lemma covers_snoc vis vis1 cs cid community col :
  covers vis cs →
  (∀ x, x ∈ vis1 ↔ x ∈ vis ∨ x ∈ community) →
  covers vis1 (cs ++ [Community.mk cid community col]).
Proof.
  intros Hcov Hvis x. rewrite Hvis, (Hcov x). split.
  - intros [(c & Hc & Hx)|Hx].
    + exists c. split; [|done]. apply elem_of_app. by left.
    + eexists. split; [apply elem_of_app; right; by left|done].
  - intros (c & [Hc| ->%list_elem_of_singleton]%elem_of_app & Hx); [|by right].
    left. by exists c.
Qed.

Lemma disjoint_snoc vis cs cid community col :
  covers vis cs → disjoint_communities cs →
  (∀ x, x ∈ community → x ∉ vis) →
  disjoint_communities (cs ++ [Community.mk cid community col]).
Proof.
  intros Hcov Hdis Hfresh i j c d x Hi Hj Hij Hxc Hxd.
  assert (∀ k e, (cs ++ [Community.mk cid community col]) !! k = Some e →
            cs !! k = Some e ∨ (k = length cs ∧ Community.users e = community))
    as Hcase.
  { intros k e Hk. apply lookup_app_Some in Hk as [Hk|[Hge Hk]]; [by left|].
    right. apply list_lookup_singleton_Some in Hk as [Hk <-]. split; [lia|done]. }
  destruct (Hcase i c Hi) as [Hic|[-> Hic]], (Hcase j d Hj) as [Hjd|[-> Hjd]].
  - by apply (Hdis i j c d x).
  - rewrite Hjd in Hxd. apply (Hfresh x Hxd). apply Hcov. exists c.
    split; [by eapply list_elem_of_lookup_2|done].
  - rewrite Hic in Hxc. apply (Hfresh x Hxc). apply Hcov. exists d.
    split; [by eapply list_elem_of_lookup_2|done].
  - done.
Qed.

(** The loop of [findCommunities], without any assumption on the index. *)
Lemma communities_loop_any : ∀ us vis cs cid,
  covers vis cs → disjoint_communities cs → Forall proper_community cs →
  ∃ cs' vis',
    communities_loop g us vis cs cid = Normal cs'
    ∧ covers vis' cs' ∧ disjoint_communities cs' ∧ Forall proper_community cs'
    ∧ (∀ x, x ∈ vis ∨ x ∈ ids us → x ∈ vis')
    ∧ (∀ x, x ∈ vis' → x ∈ vis ∨ ∃ u, u ∈ ids us ∧ connected g u x)
    ∧ length cs ≤ length cs' ∧ length cs' ≤ length cs + length us
    ∧ ((∃ x, x ∈ ids us ∧ x ∉ vis) → length cs < length cs').
Proof.
  induction us as [|user us IH]; intros vis cs cid Hcov Hdis Hprop; simpl.
  - exists cs, vis. split_and!; try done; try lia.
    + intros x [?|?%elem_of_nil]; done.
    + auto.
    + intros (x & ?%elem_of_nil & _). done.
  - destruct (decide (User.id user ∈ vis)) as [Hu|Hu].
    + destruct (IH vis cs cid Hcov Hdis Hprop)
        as (cs' & vis' & He & Hc' & Hd' & Hp' & Hsub & Hmem & Hle & Hge & Hlt).
      exists cs', vis'. split_and!; try done; try lia.
      * intros x [Hx|[->|Hx]%elem_of_cons]; apply Hsub; auto.
      * intros x Hx. destruct (Hmem x Hx) as [?|(u & Hui & Hux)]; [by left|].
        right. exists u. split; [by right|done].
      * intros (x & [->|Hx]%elem_of_cons & Hn); [done|]. apply Hlt. eauto.
    + destruct (dfsVisit_spec g (User.id user) vis Hu)
        as ([community vis1] & -> & Hvis1 & Hnd & Hfresh & Hreach & _ & Hin).
      simpl.
      assert ((0 <? length community) = true) as ->.
      { apply Nat.ltb_lt. destruct community; [by apply elem_of_nil in Hin|simpl; lia]. }
      destruct (IH vis1 (cs ++ [Community.mk cid community (color_of cid)]) (S cid))
        as (cs' & vis' & He & Hc' & Hd' & Hp' & Hsub & Hmem & Hle & Hge & Hlt).
      { by eapply covers_snoc. }
      { by eapply disjoint_snoc. }
      { apply Forall_app. split; [done|]. apply Forall_singleton. split; [|done].
        simpl. intros ->. by apply elem_of_nil in Hin. }
      rewrite length_app in Hle, Hge. simpl in Hle, Hge.
      exists cs', vis'. split_and!; try done; try lia.
      * intros x [Hx|[->|Hx]%elem_of_cons]; apply Hsub; rewrite ?Hvis1; auto.
      * intros x Hx. destruct (Hmem x Hx) as [[?|Hxc]%Hvis1|(u & Hui & Hux)].
        -- by left.
        -- right. exists (User.id user). split; [by left|]. by apply Hreach.
        -- right. exists u. split; [by right|done].
Qed.

End communities_any.

(** On every input, edges to absent ids included, [findCommunities]
    completes; every listed id is a member of a community; no two
    communities share a member; every community has a member and lists none
    twice; there are at most as many communities as users, and at least one
    when there is a user; every member can be reached along the index from a
    listed id. *)
Theorem findCommunities_any_input (g : GraphAlgorithms) :
  ∃ cs, findCommunities g = Normal cs
    ∧ (∀ x, x ∈ ids (users g) → ∃ c, c ∈ cs ∧ x ∈ Community.users c)
    ∧ disjoint_communities cs
    ∧ Forall proper_community cs
    ∧ length cs ≤ length (users g)
    ∧ (users g ≠ [] → 0 < length cs)
    ∧ (∀ c x, c ∈ cs → x ∈ Community.users c →
         ∃ u, u ∈ ids (users g) ∧ connected g u x).
Proof.
  destruct (communities_loop_any g (users g) ∅ [] 0)
    as (cs & vis & He & Hcov & Hdis & Hprop & Hsub & Hmem & _ & Hle & Hlt).
  { intros x. split; [by intros ?%elem_of_empty|].
    intros (c & ?%elem_of_nil & _). done. }
  { intros i j c d x Hi. by rewrite lookup_nil in Hi. }
  { constructor. }
  exists cs. split_and!; try done.
  - intros x Hx. apply Hcov, Hsub. by right.
  - intros Hne. apply Hlt. destruct (users g) as [|user us]; [done|].
    exists (User.id user). split; [by left|]. apply not_elem_of_empty.
  - intros c x Hc Hx. destruct (Hmem x) as [?%elem_of_empty|?]; [|done|done].
    apply Hcov. by exists c.
Qed.

(** [updateAnalytics] completes on every input.  The statistics that it
    sets count the users, and the communities that it sets; the friendship
    count is the length of the friendship list, except that it is 0 when
    there is no user.  There is no community exactly when there is no user,
    never more communities than users, and every listed id is a member of a
    community. *)
Theorem updateAnalytics_spec (us : list User.t) (fs : list Friendship.t) :
  ∃ cs stats,
    updateAnalytics us fs = Normal (cs, stats)
    ∧ GraphStats.totalUsers stats = length us
    ∧ GraphStats.totalCommunities stats = length cs
    ∧ GraphStats.totalFriendships stats = (if decide (us = []) then 0 else length fs)
    ∧ length cs ≤ length us
    ∧ (length cs = 0 ↔ us = [])
    ∧ (∀ x, x ∈ ids us → ∃ c, c ∈ cs ∧ x ∈ Community.users c).
Proof.
  unfold updateAnalytics. destruct us as [|user us].
  - simpl. exists [], (GraphStats.mk 0 0 0). split_and!; try done.
    intros x ?%elem_of_nil. done.
  - rewrite decide_False by done. unfold constructor. cbn [cbind].
    destruct (communities_loop_any (engine (user :: us) fs) (user :: us) ∅ [] 0)
      as (cs & vis & He & Hcov & _ & _ & Hsub & _ & _ & Hle & Hlt).
    { intros x. split; [by intros ?%elem_of_empty|].
      intros (c & ?%elem_of_nil & _). done. }
    { intros i j c d x Hi. by rewrite lookup_nil in Hi. }
    { constructor. }
    unfold findCommunities. cbn [users engine]. rewrite He. cbn [cbind].
    eexists _, _. split; [done|]. cbn [GraphStats.totalUsers
      GraphStats.totalCommunities GraphStats.totalFriendships].
    assert (0 < length cs) as Hpos.
    { apply Hlt. exists (User.id user). split; [by left|]. apply not_elem_of_empty. }
    split_and!; try done.
    + split; [lia|done].
    + intros x Hx. apply Hcov, Hsub. by right.
Qed.

(** ** Numbering of the communities *)

(** Numbering: the communities carry the sequence numbers 0, 1, 2, ... in
    list order, and the color of the palette at the number modulo the
    palette size.  [findCommunities] completes with such a list on every
    input, [findCommunitiesUnionFind] when every edge joins two listed
    ids. *)
Theorem communities_numbering us fs :
  (∃ cs, findCommunities (engine us fs) = Normal cs
         ∧ ∀ i c, cs !! i = Some c →
             Community.id c = i
             ∧ Community.color c = color_of i
             ∧ Community.color c ∈ colors)
  ∧ (edges_present us fs →
     ∃ cs, findCommunitiesUnionFind (engine us fs) = Normal cs
           ∧ ∀ i c, cs !! i = Some c →
               Community.id c = i
               ∧ Community.color c = color_of i
               ∧ Community.color c ∈ colors).
Proof.
  assert (∀ i, color_of i ∈ colors) as Hpalette.
  { intros i. unfold color_of.
    assert (i mod length colors < length colors) as Hlt.
    { apply Nat.mod_upper_bound. simpl. lia. }
    destruct (lookup_lt_is_Some_2 colors _ Hlt) as (col & Hcol).
    rewrite Hcol. simpl. by eapply list_elem_of_lookup_2. }
  split.
  - destruct (communities_loop_any (engine us fs) (users (engine us fs)) ∅ [] 0)
      as (cs & vis & Hcs & _).
    { intros x. split; [by intros ?%elem_of_empty|].
      intros (c & ?%elem_of_nil & _). done. }
    { intros i j c d x Hi. by rewrite lookup_nil in Hi. }
    { constructor. }
    exists cs. split; [done|]. intros i c Hi.
    assert (Community.id c = i ∧ Community.color c = color_of i) as [H1 H2].
    { eapply (communities_loop_numbering (engine us fs) (users (engine us fs))
                ∅ [] 0 cs); [done| |done|done].
      intros j d Hj. by rewrite lookup_nil in Hj. }
    split_and!; [done..|]. rewrite H2. apply Hpalette.
  - intros Hp.
    destruct (findCommunitiesUnionFind_spec us fs Hp) as (cs & Hcs & _).
    exists cs. split; [done|]. intros i c Hi.
    unfold findCommunitiesUnionFind in Hcs.
    destruct (union_all _ _ _) as [st| |]; simpl in Hcs; [|done..].
    destruct (group_all _ _ _ _) as [groups| |]; simpl in Hcs; [|done..].
    injection Hcs as <-.
    apply imap_communities_lookup in Hi as (k & m & _ & ->). simpl.
    split_and!; [done..|]. apply Hpalette.
Qed.

Lemma communities_numbering_witness :
  let us := [User.mk "a" "A"; User.mk "b" "B"; User.mk "c" "C"] in
  let fs := [Friendship.mk "a" "b"] in
  edges_present us fs
  ∧ ∃ cs, findCommunitiesUnionFind (engine us fs) = Normal cs
          ∧ ∀ i c, cs !! i = Some c →
              Community.id c = i
              ∧ Community.color c = color_of i
              ∧ Community.color c ∈ colors.
Proof.
  intros us fs.
  assert (Hp : edges_present us fs).
  { apply (bool_decide_unpack _). vm_compute. exact I. }
  split; [exact Hp|]. exact (proj2 (communities_numbering us fs) Hp).
Defined.

(** * The store and the engine *)

(** ** A user that no friendship names *)

Lemma add_friendship_insert_fresh (u : string) adj f :
  Friendship.source f ≠ u → Friendship.target f ≠ u →
  add_friendship (<[u := []]> adj) f = <[u := []]> (add_friendship adj f).
Proof.
  intros Hs Ht. apply map_eq. intros k. rewrite lookup_add_friendship.
  destruct (decide (k = u)) as [->|Hk].
  - rewrite !lookup_insert_eq. simpl. by rewrite !decide_False by done.
  - rewrite !lookup_insert_ne by done. by rewrite lookup_add_friendship.
Qed.

Lemma isolated_unnamed fs (u : string) :
  isolated fs u →
  Forall (λ f, Friendship.source f ≠ u ∧ Friendship.target f ≠ u) fs.
Proof.
  intros Hiso. apply Forall_forall. intros f Hf. split; intros Hu.
  - apply (Hiso (Friendship.target f)). exists f. tauto.
  - apply (Hiso (Friendship.source f)). exists f. tauto.
Qed.

Lemma buildAdjacencyList_snoc_user us new fs :
  isolated fs (User.id new) →
  buildAdjacencyList (us ++ [new]) fs
  = <[User.id new := []]> (buildAdjacencyList us fs).
Proof.
  intros Hiso%isolated_unnamed. unfold buildAdjacencyList, init_adjacency.
  rewrite foldl_snoc.
  generalize (foldl (λ (adj : gmap string (list string)) user,
                       <[User.id user := []]> adj) ∅ us).
  induction fs as [|f fs IH]; intros adj; simpl; [done|].
  apply Forall_cons in Hiso as [[Hs Ht] Hiso].
  rewrite add_friendship_insert_fresh by done. by apply IH.
Qed.

Section new_user.

Context (us : list User.t) (fs : list Friendship.t) (new : User.t).
Context (Hfresh : User.id new ∉ ids us).
Context (Hiso : isolated fs (User.id new)).

Lemma neighbors_snoc_user x :
  neighbors (engine (us ++ [new]) fs) x = neighbors (engine us fs) x.
Proof.
  unfold neighbors. simpl. rewrite buildAdjacencyList_snoc_user by done.
  pose proof (buildAdjacencyList_lookup us fs (User.id new)) as Hnone.
  rewrite decide_False in Hnone by done.
  destruct (decide (x = User.id new)) as [->|Hx].
  - by rewrite lookup_insert_eq, Hnone.
  - by rewrite lookup_insert_ne.
Qed.

Lemma dfs_fuel_snoc_user :
  dfs_fuel (engine (us ++ [new]) fs) = dfs_fuel (engine us fs).
Proof.
  unfold dfs_fuel, pending_entries. simpl.
  rewrite buildAdjacencyList_snoc_user by done.
  pose proof (buildAdjacencyList_lookup us fs (User.id new)) as Hnone.
  rewrite decide_False in Hnone by done.
  pose proof (map_to_list_insert (buildAdjacencyList us fs) (User.id new) [] Hnone)
    as Hperm.
  rewrite Hperm. csimpl. unfold entry_weight at 1. simpl. by case_decide.
Qed.

Lemma neighbors_new_user : neighbors (engine us fs) (User.id new) = [].
Proof.
  destruct (neighbors (engine us fs) (User.id new)) as [|y l] eqn:E; [done|].
  assert (y ∈ neighbors (engine us fs) (User.id new)) as Hy by (rewrite E; by left).
  apply elem_of_neighbors in Hy as [? _]. done.
Qed.

Lemma not_connected_new_user x :
  x ≠ User.id new → ¬ connected (engine us fs) x (User.id new).
Proof.
  intros Hx Hc. apply rtc_inv_r in Hc as [?|(y & _ & Hy)]; [done|].
  apply elem_of_neighbors in Hy as [_ Hl]. apply (Hiso y). by apply linked_sym.
Qed.

(** The sweep over the old users, then over the new one. *)
Lemma communities_loop_snoc_user : ∀ l vis cs,
  User.id new ∉ vis → User.id new ∉ ids l →
  ∃ cs1,
    communities_loop (engine us fs) l vis cs (length cs) = Normal cs1
    ∧ communities_loop (engine us fs) (l ++ [new]) vis cs (length cs)
      = Normal (cs1 ++ [Community.mk (length cs1) [User.id new]
                                     (color_of (length cs1))]).
Proof.
  induction l as [|user l IH]; intros vis cs Hvis Hl.
  - exists cs. split; [done|]. simpl. rewrite decide_False by done.
    unfold dfsVisit, dfs_fuel. simpl. rewrite decide_False by done.
    rewrite neighbors_new_user. simpl. done.
  - apply not_elem_of_cons in Hl as [Hne Hl]. simpl.
    destruct (decide (User.id user ∈ vis)) as [Hu|Hu]; [by apply IH|].
    destruct (dfsVisit_spec (engine us fs) (User.id user) vis Hu)
      as ([community vis1] & -> & Hvis1 & _ & _ & Hreach & _ & Hin).
    simpl.
    assert (User.id new ∉ vis1) as Hvis1'.
    { rewrite Hvis1. intros [?|Hc]; [done|].
      apply (not_connected_new_user (User.id user)); [done|]. by apply Hreach. }
    destruct (0 <? length community).
    + destruct (IH vis1 (cs ++ [Community.mk (length cs) community
                                              (color_of (length cs))]) Hvis1' Hl)
        as (cs1 & He1 & He2).
      rewrite length_app in He1, He2. simpl in He1, He2.
      rewrite Nat.add_1_r in He1, He2. eauto.
    + by apply IH.
Qed.

End new_user.

(** A user added to data in which no friendship names the new id opens one
    community of their own: [findCommunities] returns on the data after
    [addUser] the communities that it returns on the data before the call,
    followed by the community whose only member is the new user, with the
    next id and color. *)
Theorem addUser_new_community (now : Z) (name : string) (m : GraphDataManager.t) :
  pretty now ∉ ids (GraphDataManager.users m) →
  isolated (GraphDataManager.friendships m) (pretty now) →
  let m' := (GraphDataManager.addUser now name m).1 in
  ∃ cs,
    findCommunities (engine (GraphDataManager.users m)
                            (GraphDataManager.friendships m)) = Normal cs
    ∧ findCommunities (engine (GraphDataManager.users m')
                              (GraphDataManager.friendships m'))
      = Normal (cs ++ [Community.mk (length cs) [pretty now] (color_of (length cs))]).
Proof.
  intros Hfresh Hiso m'. subst m'. unfold GraphDataManager.addUser. simpl.
  rewrite users_write_users, friendships_write_users.
  set (us := GraphDataManager.users m) in *.
  set (fs := GraphDataManager.friendships m) in *.
  set (new := User.mk (pretty now) name).
  destruct (communities_loop_snoc_user us fs new Hfresh Hiso us ∅ [])
    as (cs & He1 & He2); [apply not_elem_of_empty|done|].
  exists cs. split; [done|]. unfold findCommunities. cbn [users engine].
  rewrite (communities_loop_ext (engine (us ++ [new]) fs) (engine us fs)
             (neighbors_snoc_user us fs new Hfresh Hiso)
             (dfs_fuel_snoc_user us fs new Hfresh Hiso)
             (us ++ [new]) (us ++ [new]) ∅ [] 0 eq_refl).
  exact He2.
Qed.

Lemma addUser_new_community_witness :
  let m := GraphDataManager.constructor None in
  let m' := (GraphDataManager.addUser 1700000000000 "Grace" m).1 in
  (pretty 1700000000000%Z ∉ ids (GraphDataManager.users m))
  ∧ isolated (GraphDataManager.friendships m) (pretty 1700000000000%Z)
  ∧ ∃ cs,
      findCommunities (engine (GraphDataManager.users m)
                              (GraphDataManager.friendships m)) = Normal cs
      ∧ findCommunities (engine (GraphDataManager.users m')
                                (GraphDataManager.friendships m'))
        = Normal (cs ++ [Community.mk (length cs) [pretty 1700000000000%Z]
                                      (color_of (length cs))]).
Proof.
  intros m m'.
  assert (Hfresh : pretty 1700000000000%Z ∉ ids (GraphDataManager.users m)).
  { apply (bool_decide_unpack _). vm_compute. exact I. }
  assert (Hiso : isolated (GraphDataManager.friendships m) (pretty 1700000000000%Z)).
  { intros y Hl.
    destruct (linked_present _ _ _ _ (ok_present _ _ sample_ok) Hl) as [Hin _].
    exact (Hfresh Hin). }
  split_and!; [exact Hfresh|exact Hiso|].
  exact (addUser_new_community 1700000000000 "Grace" m Hfresh Hiso).
Defined.

(** ** Removing a user *)

Lemma findShortestPath_absent us fs s e :
  edges_present us fs → s ≠ e → s ∉ ids us ∨ e ∉ ids us →
  findShortestPath (engine us fs) s e = Normal None.
Proof.
  intros Hp Hse Habs.
  pose proof (findShortestPath_engine_post us fs s e Hse) as Hpost.
  destruct (findShortestPath (engine us fs) s e) as [[res|]| |]; simpl in Hpost;
    try done.
  exfalso. destruct Hpost as (p & Hh & Hl & Hc & _).
  pose proof (chain_nsteps _ p s e Hc Hh Hl) as Hn.
  destruct (pred (length p)) as [|n]; [by inversion Hn|].
  assert (s ∈ ids us) as Hs.
  { inversion Hn as [|? ? z ? Hsz _]; subst.
    by apply step_engine in Hsz as [? _]. }
  apply nsteps_inv_r in Hn as (y & _ & [Hy Hye]%step_engine).
  destruct (linked_present us fs y e Hp Hye) as [_ He]. tauto.
Qed.

Lemma findMutualFriends_absent us fs userId :
  userId ∉ ids us → findMutualFriends (engine us fs) userId = Normal [].
Proof.
  intros Hu. unfold findMutualFriends. f_equal.
  assert (neighbors (engine us fs) userId = []) as Hn.
  { destruct (neighbors (engine us fs) userId) as [|y ?] eqn:En; [done|].
    assert (Hy : y ∈ neighbors (engine us fs) userId) by (rewrite En; by left).
    apply elem_of_neighbors in Hy as [? _]. done. }
  destruct (foldl _ _ _) as [|s l] eqn:E; [done|].
  assert (Hs : s ∈ foldl (suggest_step (engine us fs) userId) [] (users (engine us fs))).
  { rewrite E. by left. }
  apply elem_of_suggest_loop in Hs
    as [?%elem_of_nil|(user & _ & _ & _ & Hne & _)]; [done|].
  exfalso. apply Hne. by rewrite Hn.
Qed.

Lemma chain_linked_filter (P : Friendship.t → Prop) `{∀ f, Decision (P f)}
    fs (Q : string → Prop) p :
  (∀ x y, linked (filter P fs) x y ↔ linked fs x y ∧ Q x ∧ Q y) →
  chain (linked (filter P fs)) p ∧ (1 < length p → Forall Q p)
  ↔ chain (linked fs) p ∧ (1 < length p → Forall Q p).
Proof.
  intros Hl. induction p as [|x [|y p] IH]; simpl; [done..|].
  simpl in IH. rewrite (Hl x y). split.
  - intros [[(Hxy & Hx & Hy) Hc] Hall]. split; [|done]. split; [done|].
    apply IH. split; [done|]. intros _. specialize (Hall ltac:(lia)).
    by apply Forall_inv_tail in Hall.
  - intros [[Hxy Hc] Hall]. specialize (Hall ltac:(lia)). split; [|done].
    pose proof (Forall_inv Hall) as Hx.
    pose proof (Forall_inv (Forall_inv_tail Hall)) as Hy.
    split; [done|]. apply IH. split; [done|]. intros _.
    by apply Forall_inv_tail in Hall.
Qed.

(** After [removeUser(u)] on data with distinct ids in which every
    friendship joins two listed users, every friendship still joins two
    listed users; the paths of the graph are the paths of the old graph that
    avoid [u]; a path query between [u] and another id returns [null], and
    the suggestion query for [u] returns the empty list. *)
Theorem removeUser_graph (u : string) (m : GraphDataManager.t) :
  edges_present (GraphDataManager.users m) (GraphDataManager.friendships m) →
  NoDup (ids (GraphDataManager.users m)) →
  u ∈ ids (GraphDataManager.users m) →
  let us := GraphDataManager.users m in
  let fs := GraphDataManager.friendships m in
  let r := GraphDataManager.removeUser u m in
  let us' := GraphDataManager.users r.1 in
  let fs' := GraphDataManager.friendships r.1 in
  r.2 = true
  ∧ length us' + 1 = length us
  ∧ edges_present us' fs'
  ∧ NoDup (ids us')
  ∧ (∀ a b p, path_in us' fs' a b p ↔ path_in us fs a b p ∧ u ∉ p)
  ∧ (∀ x, x ≠ u →
       findShortestPath (engine us' fs') x u = Normal None
       ∧ findShortestPath (engine us' fs') u x = Normal None)
  ∧ findMutualFriends (engine us' fs') u = Normal [].
Proof.
  intros Hp Hnd Hin us fs r us' fs'. subst r us' fs'.
  destruct (removeUser_cases u m) as [[Hu _]|(i & user & r & Hfind & -> & Hus & Hfs)];
    [done|]. simpl. fold us fs in Hus, Hfs, Hfind.
  destruct (ids_delete_first _ _ _ _ Hfind) as (Hne & Hsub & Hgone & Hlen).
  specialize (Hgone Hnd). rewrite <- Hus in Hne, Hsub, Hgone, Hlen.
  assert (∀ x y, linked (GraphDataManager.friendships r) x y
                 ↔ linked fs x y ∧ x ≠ u ∧ y ≠ u) as Hlinked.
  { intros x y. rewrite Hfs, linked_filter. unfold linked, GraphDataManager.joins.
    split.
    - intros (f & Hf & [Hs Ht] & Hj). split; [eauto|]. naive_solver.
    - intros ((f & Hf & Hj) & Hx & Hy). exists f. naive_solver. }
  assert (edges_present (GraphDataManager.users r) (GraphDataManager.friendships r))
    as Hp'.
  { unfold edges_present in *. rewrite Forall_forall in *. intros f.
    rewrite Hfs. intros [[Hs Ht] Hf]%list_elem_of_filter.
    destruct (Hp f Hf). split; by apply Hne. }
  split_and!; [done|done|done| | | |].
  - rewrite Hus. unfold ids. rewrite list_fmap_delete.
    apply (sublist_NoDup _ (User.id <$> us)); [exact Hnd|apply sublist_delete].
  - intros a b p. unfold path_in. split.
    + intros (Hh & Hl & Hall & Hc). rewrite Forall_forall in Hall.
      split; [split_and!; [done|done| |]|].
      * apply Forall_forall. intros x Hx. by apply Hsub, Hall.
      * eapply chain_impl; [|exact Hc]. intros x y Hxy. by apply Hlinked in Hxy as [? _].
      * intros Hup. by apply Hgone, Hall.
    + intros [(Hh & Hl & Hall & Hc) Hup]. rewrite Forall_forall in Hall.
      split_and!; [done|done| |].
      * apply Forall_forall. intros x Hx. apply Hne; [|by apply Hall].
        intros ->. done.
      * rewrite Hfs. rewrite Hfs in Hlinked.
        apply (chain_linked_filter _ fs (λ x, x ≠ u) p Hlinked).
        split; [done|]. intros _. apply Forall_forall. intros x Hx ->. done.
  - intros x Hx. split; apply findShortestPath_absent; auto.
  - by apply findMutualFriends_absent.
Qed.

Lemma removeUser_graph_witness :
  let m := GraphDataManager.constructor None in
  let r := GraphDataManager.removeUser "2" m in
  (edges_present (GraphDataManager.users m) (GraphDataManager.friendships m)
   ∧ NoDup (ids (GraphDataManager.users m))
   ∧ "2" ∈ ids (GraphDataManager.users m))
  ∧ findShortestPath (engine (GraphDataManager.users r.1)
                             (GraphDataManager.friendships r.1)) "1" "2"
    = Normal None.
Proof.
  intros m r.
  assert (Hp : edges_present (GraphDataManager.users m) (GraphDataManager.friendships m)).
  { apply (bool_decide_unpack _). vm_compute. exact I. }
  assert (Hnd : NoDup (ids (GraphDataManager.users m))).
  { apply (bool_decide_unpack _). vm_compute. exact I. }
  assert (Hin : "2" ∈ ids (GraphDataManager.users m)).
  { apply (bool_decide_unpack _). vm_compute. exact I. }
  split; [split_and!; [exact Hp|exact Hnd|exact Hin]|].
  refine (proj1 (proj1 (proj2 (proj2 (proj2 (proj2 (proj2
    (removeUser_graph "2" m Hp Hnd Hin)))))) "1" _)).
  discriminate.
Defined.

(** ** The sample data under item-by-item edits *)

(** In a manager constructed without stored data, after any sequence of
    [addUser], [removeUser], [updateUser], [addFriendship] and
    [removeFriendship] calls: both community methods complete, each returns
    a partition of the listed ids, and the two group the ids in the same way;
    and for two different ids joined by a path of the graph,
    [findShortestPath] returns a path of the graph between them of least
    length, with [distance] its number of edges. *)
Theorem sample_store_analytics (es : list GraphDataManager.edit) :
  let m := GraphDataManager.run es (GraphDataManager.constructor None) in
  let us := GraphDataManager.users m in
  let fs := GraphDataManager.friendships m in
  (∃ cs cs',
     findCommunities (engine us fs) = Normal cs
     ∧ findCommunitiesUnionFind (engine us fs) = Normal cs'
     ∧ partition_of us cs ∧ partition_of us cs'
     ∧ ∀ x y, same_community cs x y ↔ same_community cs' x y)
  ∧ (∀ s e, s ≠ e → reachable us fs s e →
       ∃ r, findShortestPath (engine us fs) s e = Normal (Some r)
            ∧ path_in us fs s e (PathResult.path r)
            ∧ PathResult.distance r
              = (Z.of_nat (length (PathResult.path r)) - 1)%Z
            ∧ ∀ p, path_in us fs s e p → length (PathResult.path r) ≤ length p).
Proof.
  intros m us fs.
  destruct (run_ok es (GraphDataManager.constructor None) sample_ok)
    as [Hp _ _ Hids]. fold m in Hp, Hids. fold us fs in Hp, Hids.
  split.
  - destruct (findCommunities_engine_spec us fs Hp) as (cs & He & Hpart & Hsame & _).
    destruct (findCommunitiesUnionFind_spec us fs Hp) as (cs' & He' & Hpart' & Hsame').
    exists cs, cs'. split_and!; [done..|].
    intros x y. by rewrite Hsame, Hsame'.
  - intros s e Hse Hreach. apply findShortestPath_shortest; [|done|done].
    rewrite Forall_forall in Hids. done.
Qed.

(** * More on the engine *)

(** ** Shortest paths are simple *)

Section cutting.

Context (R : string → string → Prop).

Lemma chain_app_cons l1 x l2 :
  chain R (l1 ++ x :: l2) ↔ chain R (l1 ++ [x]) ∧ chain R (x :: l2).
Proof.
  induction l1 as [|a l1 IH]; [simpl; tauto|].
  destruct l1 as [|b l1]; [simpl; tauto|].
  change (R a b ∧ chain R ((b :: l1) ++ x :: l2)
          ↔ (R a b ∧ chain R ((b :: l1) ++ [x])) ∧ chain R (x :: l2)).
  rewrite IH. tauto.
Qed.

End cutting.

Lemma head_app_cons {A} (l1 : list A) x l2 : head (l1 ++ x :: l2) = head (l1 ++ [x]).
Proof. by destruct l1. Qed.

Lemma last_app_cons {A} (l1 : list A) x l2 : last (l1 ++ x :: l2) = last (x :: l2).
Proof.
  induction l1 as [|a l1 IH]; [done|].
  rewrite <- IH. simpl. by destruct (l1 ++ x :: l2) eqn:E; [destruct l1|].
Qed.

(** A path that visits a node twice, or two nodes joined by an edge with
    other nodes in between, is not a shortest one. *)
Lemma path_cut us fs s e l1 x l2 y l3 :
  path_in us fs s e (l1 ++ x :: l2 ++ y :: l3) →
  x = y ∨ (linked fs x y ∧ l2 ≠ []) →
  ∃ p', path_in us fs s e p' ∧ length p' < length (l1 ++ x :: l2 ++ y :: l3).
Proof.
  intros (Hh & Hl & Hall & Hc) Hxy.
  rewrite head_app_cons in Hh.
  rewrite last_app_cons in Hl.
  change (x :: l2 ++ y :: l3) with ((x :: l2) ++ y :: l3) in Hl.
  rewrite last_app_cons in Hl.
  apply chain_app_cons in Hc as [Hc1 Hc2].
  apply (chain_app_cons _ (x :: l2) y l3) in Hc2 as [_ Hc3].
  rewrite Forall_app, Forall_cons, Forall_app, Forall_cons in Hall.
  destruct Hall as (Ha1 & Hax & Ha2 & Hay & Ha3).
  destruct Hxy as [->|[Hxy Hne]].
  - exists (l1 ++ y :: l3). split.
    + split_and!.
      * by rewrite head_app_cons.
      * by rewrite last_app_cons.
      * rewrite Forall_app, Forall_cons. done.
      * apply chain_app_cons. done.
    + rewrite !length_app. simpl. rewrite length_app. simpl. lia.
  - exists (l1 ++ x :: y :: l3). split.
    + split_and!.
      * by rewrite head_app_cons.
      * by rewrite last_app_cons.
      * rewrite Forall_app, !Forall_cons. done.
      * apply chain_app_cons. split; [done|]. split; done.
    + rewrite !length_app. simpl. rewrite length_app. simpl.
      destruct l2; [done|]. simpl. lia.
Qed.

Lemma dup_split (l : list string) :
  ¬ NoDup l → ∃ l1 x l2 l3, l = l1 ++ x :: l2 ++ x :: l3.
Proof.
  induction l as [|a l IH]; intros Hnd.
  - destruct Hnd. constructor.
  - destruct (decide (a ∈ l)) as [Ha|Ha].
    + apply list_elem_of_split in Ha as (l2 & l3 & ->). by exists [], a, l2, l3.
    + destruct IH as (l1 & x & l2 & l3 & ->).
      { intros Hl. apply Hnd. by constructor. }
      by exists (a :: l1), x, l2, l3.
Qed.

Lemma min_path_NoDup us fs s e p :
  path_in us fs s e p →
  (∀ p', path_in us fs s e p' → length p ≤ length p') →
  NoDup p.
Proof.
  intros Hp Hmin. destruct (decide (NoDup p)) as [|Hnd]; [done|].
  apply dup_split in Hnd as (l1 & x & l2 & l3 & ->).
  destruct (path_cut us fs s e l1 x l2 x l3 Hp) as (p' & Hp' & Hlt); [by left|].
  specialize (Hmin p' Hp'). lia.
Qed.

(** When no node id is the empty string and [e] can be reached from
    [s ≠ e], the path that [findShortestPath] returns visits no node twice,
    and it has at most as many nodes as there are users. *)
Theorem shortest_path_simple us fs s e :
  (∀ x, x ∈ ids us → x ≠ EmptyString) →
  s ≠ e → reachable us fs s e →
  ∃ r, findShortestPath (engine us fs) s e = Normal (Some r)
       ∧ NoDup (PathResult.path r)
       ∧ length (PathResult.path r) ≤ length us
       ∧ (PathResult.distance r < Z.of_nat (length us))%Z.
Proof.
  intros Hids Hse Hreach.
  destruct (findShortestPath_shortest us fs s e Hids Hse Hreach)
    as (r & He & Hp & Hd & Hmin).
  pose proof (min_path_NoDup us fs s e _ Hp Hmin) as Hnd.
  assert (length (PathResult.path r) ≤ length us) as Hlen.
  { destruct Hp as (_ & _ & Hall & _).
    rewrite <- (length_fmap User.id us). apply submseteq_length.
    apply NoDup_submseteq; [done|]. by apply Forall_forall. }
  exists r. split_and!; [done|done|done|lia].
Qed.

Lemma shortest_path_simple_witness :
  let us := [User.mk "a" "A"; User.mk "b" "B"; User.mk "c" "C"; User.mk "d" "D"] in
  let fs := [Friendship.mk "a" "b"; Friendship.mk "b" "c"; Friendship.mk "c" "a";
             Friendship.mk "c" "d"] in
  ((∀ x, x ∈ ids us → x ≠ EmptyString) ∧ "a" ≠ "d" ∧ reachable us fs "a" "d")
  ∧ ∃ r, findShortestPath (engine us fs) "a" "d" = Normal (Some r)
         ∧ NoDup (PathResult.path r)
         ∧ length (PathResult.path r) ≤ length us
         ∧ (PathResult.distance r < Z.of_nat (length us))%Z.
Proof.
  intros us fs.
  assert (Hids : ∀ x, x ∈ ids us → x ≠ EmptyString).
  { intros x Hx ->. revert Hx. apply (bool_decide_unpack _). vm_compute. exact I. }
  assert (Hne : "a" ≠ "d") by discriminate.
  assert (Hreach : reachable us fs "a" "d").
  { exists ["a"; "c"; "d"]. split_and!; [reflexivity|reflexivity| |].
    - apply (bool_decide_unpack _). vm_compute. exact I.
    - simpl. split_and!; [| |exact I].
      + apply (bool_decide_unpack _). vm_compute. exact I.
      + apply (bool_decide_unpack _). vm_compute. exact I. }
  split; [split_and!; [exact Hids|exact Hne|exact Hreach]|].
  exact (shortest_path_simple us fs "a" "d" Hids Hne Hreach).
Defined.

(** ** Suggestions *)

(** Suggestions are mutual: when [b] is suggested to [a], then [a] is
    suggested to [b], with the same number of mutual friends and the same
    mutual friends, up to their order. *)
Theorem suggestions_symmetric us fs (a b : string) :
  ∃ la lb,
    findMutualFriends (engine us fs) a = Normal la
    ∧ findMutualFriends (engine us fs) b = Normal lb
    ∧ ∀ s, s ∈ la → Suggestion.userId s = b →
        ∃ s', s' ∈ lb
              ∧ Suggestion.userId s' = a
              ∧ Suggestion.mutualCount s' = Suggestion.mutualCount s
              ∧ Suggestion.mutualFriends s' ≡ₚ Suggestion.mutualFriends s.
Proof.
  eexists _, _. split; [done|]. split; [done|]. intros s Hs Hb.
  rewrite js_sort_perm in Hs.
  apply elem_of_suggest_loop in Hs
    as [?%elem_of_nil|(user & Hin & Hne & Hnadj & Hmut & ->)]; [done|].
  simpl in *. subst b.
  set (g := engine us fs) in *.
  set (mutual := filter (λ friend, friend ∈ neighbors g (User.id user))
                        (neighbors g a)) in *.
  set (mutual' := filter (λ friend, friend ∈ neighbors g a)
                         (neighbors g (User.id user))).
  assert (mutual' ≡ₚ mutual) as Hperm.
  { apply NoDup_Permutation.
    - apply NoDup_filter, NoDup_neighbors.
    - apply NoDup_filter, NoDup_neighbors.
    - intros x. unfold mutual, mutual'. rewrite !list_elem_of_filter. tauto. }
  assert (a ∈ ids us) as Ha.
  { destruct mutual as [|friend ?] eqn:E; [done|].
    assert (friend ∈ mutual) as Hf by (rewrite E; by left).
    unfold mutual in Hf. apply list_elem_of_filter in Hf as [_ Hf].
    by apply elem_of_neighbors in Hf as [? _]. }
  apply list_elem_of_fmap in Ha as (user_a & -> & Huser_a).
  exists (Suggestion.mk (User.id user_a) (length mutual') mutual').
  split_and!; [|done|simpl; by rewrite Hperm|done].
  rewrite js_sort_perm. apply elem_of_suggest_loop. right.
  exists user_a. split_and!; [done|done| |].
  - intros Hadj. apply Hnadj. apply elem_of_neighbors in Hadj as [_ Hl].
    apply elem_of_neighbors. split; [|by apply linked_sym].
    apply list_elem_of_fmap. eauto.
  - simpl. split; [|done]. fold g mutual'. intros Hnil. rewrite Hnil in Hperm.
    apply Permutation_nil_l in Hperm. done.
Qed.

Lemma suggest_loop_ids g (a : string) : ∀ us acc,
  Suggestion.userId <$> foldl (suggest_step g a) acc us
  `sublist_of` (Suggestion.userId <$> acc) ++ ids us.
Proof.
  induction us as [|user us IH]; intros acc; simpl.
  - by rewrite app_nil_r.
  - etrans; [apply IH|]. unfold suggest_step.
    case_decide; [by apply sublist_app, sublist_cons|].
    destruct (0 <? length _).
    + rewrite fmap_app, <- app_assoc. done.
    + by apply sublist_app, sublist_cons.
Qed.

(** When the user ids are distinct, [findMutualFriends] suggests no
    candidate twice, and it returns at most as many suggestions as there are
    users. *)
Theorem suggestions_distinct us fs (a : string) :
  NoDup (ids us) →
  ∃ l, findMutualFriends (engine us fs) a = Normal l
       ∧ NoDup (Suggestion.userId <$> l)
       ∧ length l ≤ length us.
Proof.
  intros Hnd. eexists. split; [done|].
  pose proof (suggest_loop_ids (engine us fs) a us []) as Hsub. simpl in Hsub.
  split.
  - rewrite js_sort_perm. eapply sublist_NoDup; [exact Hnd|exact Hsub].
  - rewrite js_sort_perm. apply sublist_length in Hsub.
    rewrite length_fmap in Hsub. unfold ids in Hsub. by rewrite length_fmap in Hsub.
Qed.

Lemma suggestions_distinct_witness :
  let us := [User.mk "1" "Alice"; User.mk "2" "Bob"; User.mk "3" "Charlie";
             User.mk "4" "Diana"] in
  let fs := [Friendship.mk "1" "2"; Friendship.mk "2" "3"; Friendship.mk "3" "4"] in
  NoDup (ids us)
  ∧ ∃ l, findMutualFriends (engine us fs) "2" = Normal l
         ∧ NoDup (Suggestion.userId <$> l)
         ∧ length l ≤ length us.
Proof.
  intros us fs.
  assert (Hnd : NoDup (ids us)).
  { apply (bool_decide_unpack _). vm_compute. exact I. }
  split; [exact Hnd|]. exact (suggestions_distinct us fs "2" Hnd).
Defined.

(** * The drawing *)

(** ** Links of the highlighted path *)

Lemma on_path_true (p : list string) (s t : string) :
  GraphVisualization.on_path p s t = true
  ↔ ∃ l1 x y l2, p = l1 ++ x :: y :: l2 ∧ ((x = s ∧ y = t) ∨ (x = t ∧ y = s)).
Proof.
  induction p as [|a p IH].
  - split; [done|]. intros (l1 & x & y & l2 & H & _). by destruct l1.
  - destruct p as [|b p].
    + split; [done|]. intros (l1 & x & y & l2 & H & _).
      destruct l1 as [|? [|? ?]]; done.
    + cbn [GraphVisualization.on_path].
      destruct (decide ((a = s ∧ b = t) ∨ (a = t ∧ b = s))) as [Hab|Hab].
      * split; [intros _|done]. by exists [], a, b, p.
      * rewrite IH. split.
        -- intros (l1 & x & y & l2 & -> & Hxy). by exists (a :: l1), x, y, l2.
        -- intros (l1 & x & y & l2 & Heq & Hxy). destruct l1 as [|a' l1].
           ++ simpl in Heq. injection Heq as -> -> ->. done.
           ++ simpl in Heq. injection Heq as -> Heq. by exists l1, x, y, l2.
Qed.

Lemma elem_of_split2 (p : list string) (x y : string) :
  x ∈ p → y ∈ p → x ≠ y →
  ∃ l1 l2 l3, p = l1 ++ x :: l2 ++ y :: l3 ∨ p = l1 ++ y :: l2 ++ x :: l3.
Proof.
  intros (l1 & l2 & ->)%list_elem_of_split Hy Hne.
  apply elem_of_app in Hy as [Hy|Hy].
  - apply list_elem_of_split in Hy as (k1 & k2 & ->).
    exists k1, k2, l2. right. by rewrite <- app_assoc.
  - apply elem_of_cons in Hy as [->|Hy]; [done|].
    apply list_elem_of_split in Hy as (k1 & k2 & ->).
    exists l1, k1, k2. by left.
Qed.

(** The links drawn as part of the path.  When no node id is the empty
    string and [e] can be reached from [s ≠ e], let [highlightedPath] be the
    path of the result of [handleFindPath].  A friendship of the graph is
    drawn with the highlight stroke and width exactly when its two ends are
    two different nodes of the path: the friendships between consecutive
    nodes are highlighted, and no friendship joins two nodes of the path
    that are not consecutive. *)
Theorem highlighted_links us fs s e :
  (∀ x, x ∈ ids us → x ≠ EmptyString) →
  s ≠ e → reachable us fs s e →
  ∃ r, handleFindPath us fs s e = Normal (Some r)
       ∧ ∀ f, f ∈ fs →
           let highlighted :=
             Friendship.source f ∈ PathResult.path r
             ∧ Friendship.target f ∈ PathResult.path r
             ∧ Friendship.source f ≠ Friendship.target f in
           (GraphVisualization.link_stroke (PathResult.path r)
              (Friendship.source f) (Friendship.target f) = "#FF6B6B"
            ↔ highlighted)
           ∧ (GraphVisualization.link_stroke_width (PathResult.path r)
                (Friendship.source f) (Friendship.target f) = 4
              ↔ highlighted).
Proof.
  intros Hids Hse Hreach.
  destruct (findShortestPath_shortest us fs s e Hids Hse Hreach)
    as (r & He & Hp & _ & Hmin).
  pose proof (min_path_NoDup us fs s e _ Hp Hmin) as Hnd.
  exists r. split; [done|]. intros f Hf highlighted.
  clear He. destruct r as [p d]. cbn [PathResult.path] in *.
  assert (GraphVisualization.on_path p (Friendship.source f) (Friendship.target f)
          = true ↔ highlighted) as Hon.
  { rewrite on_path_true. subst highlighted. split.
    - intros (l1 & x & y & l2 & Heq & Hxy).
      assert (x ∈ p ∧ y ∈ p ∧ x ≠ y) as (Hx & Hy & Hne).
      { rewrite Heq in Hnd |- *. split_and!.
        - apply elem_of_app. right. by left.
        - apply elem_of_app. right. right. by left.
        - apply NoDup_app in Hnd as (_ & _ & Hnd).
          apply NoDup_cons in Hnd as [Hx _]. intros ->. apply Hx. by left. }
      destruct Hxy as [[-> ->]|[-> ->]]; split_and!; done.
    - intros (Ha & Hb & Hne).
      assert (linked fs (Friendship.source f) (Friendship.target f)) as Hl.
      { exists f. split; [done|]. by left. }
      destruct (elem_of_split2 p _ _ Ha Hb Hne) as (l1 & l2 & l3 & [Heq|Heq]).
      + destruct l2 as [|z l2];
          [exists l1, (Friendship.source f), (Friendship.target f), l3;
           split; [done|by left]|].
        exfalso. rewrite Heq in Hp, Hmin.
        destruct (path_cut us fs s e l1 _ (z :: l2) _ l3 Hp) as (p' & Hp' & Hlt).
        { right. done. }
        specialize (Hmin p' Hp'). lia.
      + destruct l2 as [|z l2];
          [exists l1, (Friendship.target f), (Friendship.source f), l3;
           split; [done|by right]|].
        exfalso. rewrite Heq in Hp, Hmin.
        destruct (path_cut us fs s e l1 _ (z :: l2) _ l3 Hp) as (p' & Hp' & Hlt).
        { right. split; [by apply linked_sym|done]. }
        specialize (Hmin p' Hp'). lia. }
  unfold GraphVisualization.link_stroke, GraphVisualization.link_stroke_width.
  destruct (GraphVisualization.on_path p _ _).
  - assert highlighted as Hh by (by apply Hon). split; split; done.
  - assert (¬ highlighted) as Hh by (intros Hh; by apply Hon in Hh).
    split; split; done.
Qed.

Lemma highlighted_links_witness :
  let us := [User.mk "a" "A"; User.mk "b" "B"; User.mk "c" "C"; User.mk "d" "D"] in
  let fs := [Friendship.mk "a" "b"; Friendship.mk "b" "c"; Friendship.mk "c" "a";
             Friendship.mk "c" "d"] in
  ((∀ x, x ∈ ids us → x ≠ EmptyString) ∧ "a" ≠ "d" ∧ reachable us fs "a" "d")
  ∧ ∃ r, handleFindPath us fs "a" "d" = Normal (Some r)
         ∧ ∀ f, f ∈ fs →
             let highlighted :=
               Friendship.source f ∈ PathResult.path r
               ∧ Friendship.target f ∈ PathResult.path r
               ∧ Friendship.source f ≠ Friendship.target f in
             (GraphVisualization.link_stroke (PathResult.path r)
                (Friendship.source f) (Friendship.target f) = "#FF6B6B"
              ↔ highlighted)
             ∧ (GraphVisualization.link_stroke_width (PathResult.path r)
                  (Friendship.source f) (Friendship.target f) = 4
                ↔ highlighted).
Proof.
  intros us fs.
  assert (Hids : ∀ x, x ∈ ids us → x ≠ EmptyString).
  { intros x Hx ->. revert Hx. apply (bool_decide_unpack _). vm_compute. exact I. }
  assert (Hne : "a" ≠ "d") by discriminate.
  assert (Hreach : reachable us fs "a" "d").
  { exists ["a"; "c"; "d"]. split_and!; [reflexivity|reflexivity| |].
    - apply (bool_decide_unpack _). vm_compute. exact I.
    - simpl. split_and!; [| |exact I].
      + apply (bool_decide_unpack _). vm_compute. exact I.
      + apply (bool_decide_unpack _). vm_compute. exact I. }
  split; [split_and!; [exact Hids|exact Hne|exact Hreach]|].
  exact (highlighted_links us fs "a" "d" Hids Hne Hreach).
Defined.

(** ** Colors of the nodes *)

Lemma lookup_color_users (col : string) (l : list string) : ∀ (m : gmap string string) x,
  foldl (λ m userId, <[userId := col]> m) m l !! x
  = if decide (x ∈ l) then Some col else m !! x.
Proof.
  induction l as [|u l IH]; intros m x; cbn [foldl].
  - rewrite decide_False; [done|]. apply not_elem_of_nil.
  - rewrite IH. destruct (decide (x ∈ l)) as [Hx|Hx].
    + rewrite decide_True; [done|]. by right.
    + destruct (decide (x = u)) as [->|Hne].
      * rewrite lookup_insert_eq. rewrite decide_True; [done|]. by left.
      * rewrite lookup_insert_ne by done. rewrite decide_False; [done|].
        intros [?|?]%elem_of_cons; done.
Qed.

Lemma communityColorMap_snoc cs c x :
  GraphVisualization.communityColorMap (cs ++ [c]) !! x
  = if decide (x ∈ Community.users c) then Some (Community.color c)
    else GraphVisualization.communityColorMap cs !! x.
Proof.
  unfold GraphVisualization.communityColorMap. rewrite foldl_snoc.
  apply lookup_color_users.
Qed.

Lemma communityColorMap_member cs :
  disjoint_communities cs →
  ∀ i c x, cs !! i = Some c → x ∈ Community.users c →
    GraphVisualization.communityColorMap cs !! x = Some (Community.color c).
Proof.
  induction cs as [|d cs IH] using rev_ind; intros Hdis i c x Hi Hx.
  - by rewrite lookup_nil in Hi.
  - rewrite communityColorMap_snoc.
    apply lookup_snoc_Some in Hi as [[Hlt Hi]|[-> ->]].
    + rewrite decide_False.
      * apply (IH) with i; [|done|done].
        intros i' j' c' d' x' Hi' Hj'. apply Hdis; by apply lookup_app_l_Some.
      * apply (Hdis i (length cs) c d x); [by apply lookup_app_l_Some| |lia|done].
        by rewrite lookup_app_r, Nat.sub_diag by lia.
    + by rewrite decide_True.
Qed.

Lemma communityColorMap_other cs x :
  (∀ c, c ∈ cs → x ∉ Community.users c) →
  GraphVisualization.communityColorMap cs !! x = None.
Proof.
  induction cs as [|d cs IH] using rev_ind; intros Hx; [done|].
  rewrite communityColorMap_snoc. rewrite decide_False.
  - apply IH. intros c Hc. apply Hx. apply elem_of_app. by left.
  - apply Hx. apply elem_of_app. right. by left.
Qed.

Lemma color_of_truthy i : truthy (color_of i) = true.
Proof.
  unfold color_of.
  assert (i mod length colors < length colors) as Hlt.
  { apply Nat.mod_upper_bound. simpl. lia. }
  set (k := i mod length colors) in *. clearbody k. simpl in Hlt.
  do 8 (destruct k as [|k]; [done|]). lia.
Qed.

(** On every input, with the communities that [findCommunities] returns:
    a node of the highlighted path is filled with the highlight color; any
    other member of the community at position [i] is filled with the color
    of the palette at [i] modulo its size; an id in no community gets the
    default color.  Every listed user is in a community, so the default is
    not used for one. *)
Theorem node_fill_community (g : GraphAlgorithms) :
  ∃ cs, findCommunities g = Normal cs
    ∧ (∀ x, x ∈ ids (users g) → ∃ i c, cs !! i = Some c ∧ x ∈ Community.users c)
    ∧ ∀ (highlightedPath : list string) (x : string),
        (x ∈ highlightedPath →
           GraphVisualization.node_fill highlightedPath cs x = "#FF6B6B")
        ∧ (x ∉ highlightedPath →
             ∀ i c, cs !! i = Some c → x ∈ Community.users c →
               GraphVisualization.node_fill highlightedPath cs x = color_of i)
        ∧ (x ∉ highlightedPath →
             (∀ c, c ∈ cs → x ∉ Community.users c) →
             GraphVisualization.node_fill highlightedPath cs x = "#4ECDC4").
Proof.
  destruct (communities_loop_any g (users g) ∅ [] 0)
    as (cs & vis & He & Hcov & Hdis & _ & Hsub & _).
  { intros x. split; [by intros ?%elem_of_empty|].
    intros (c & ?%elem_of_nil & _). done. }
  { intros i j c d x Hi. by rewrite lookup_nil in Hi. }
  { constructor. }
  exists cs. split; [done|]. split.
  - intros x Hx. destruct (proj1 (Hcov x)) as (c & Hc & Hxc).
    { apply Hsub. by right. }
    apply list_elem_of_lookup_1 in Hc as (i & Hi). eauto.
  - intros hp x. unfold GraphVisualization.node_fill. split_and!.
    + intros Hx. by rewrite decide_True.
    + intros Hx i c Hi Hxc. rewrite decide_False by done.
      rewrite (communityColorMap_member cs Hdis i c x Hi Hxc).
      assert (Community.color c = color_of i) as ->.
      { eapply (communities_loop_numbering g (users g) ∅ [] 0 cs); [done| |done|done].
        intros j d Hj. by rewrite lookup_nil in Hj. }
      by rewrite color_of_truthy.
    + intros Hx Hnone. rewrite decide_False by done.
      by rewrite communityColorMap_other.
Qed.

(** ** Counting the communities after a merge *)

Section merge_count.

Context (g g' : GraphAlgorithms) (s t : string).
Context (Hsym : ∀ x y, connected g x y → connected g y x).
Context (Hmerge : ∀ x y, connected g' x y
                   ↔ connected g x y
                     ∨ (connected g x s ∧ connected g t y)
                     ∨ (connected g x t ∧ connected g s y)).
Context (Hst : ¬ connected g s t).
Context {HdecS : ∀ v, Decision (connected g v s)}.
Context {HdecT : ∀ v, Decision (connected g v t)}.

Lemma both_hit_cases (L : list string) :
  (both_hit (λ v, connected g v s) (λ v, connected g v t) L = 1
   ∧ Exists (λ v, connected g v s) L ∧ Exists (λ v, connected g v t) L)
  ∨ (both_hit (λ v, connected g v s) (λ v, connected g v t) L = 0
     ∧ ¬ (Exists (λ v, connected g v s) L
                    ∧ Exists (λ v, connected g v t) L)).
Proof. unfold both_hit. case_decide; [left|right]; tauto. Qed.

Lemma Exists_snoc (P : string → Prop) (L : list string) u :
  Exists P (L ++ [u]) ↔ Exists P L ∨ P u.
Proof. rewrite Exists_app, Exists_cons, Exists_nil. tauto. Qed.

Lemma old_in_class (r : string) seen u :
  connected g u r →
  (∃ v, v ∈ seen ∧ connected g v u) ↔ Exists (λ v, connected g v r) seen.
Proof.
  intros Hu. rewrite Exists_exists. split; intros (v & Hv & Hc); exists v;
    (split; [done|]).
  - by apply rtc_trans with u.
  - apply rtc_trans with r; [done|]. by apply Hsym.
Qed.

(** One round of the two sweeps. *)
Lemma sweep_merge_step seen u (a a' : nat) :
  ((∃ v, v ∈ seen ∧ connected g v u) ∧ a = 0
   ∨ ¬ (∃ v, v ∈ seen ∧ connected g v u) ∧ a = 1) →
  ((∃ v, v ∈ seen ∧ connected g' v u) ∧ a' = 0
   ∨ ¬ (∃ v, v ∈ seen ∧ connected g' v u) ∧ a' = 1) →
  a + both_hit (λ v, connected g v s) (λ v, connected g v t) seen
  = a' + both_hit (λ v, connected g v s) (λ v, connected g v t) (seen ++ [u]).
Proof.
  intros Ha Ha'.
  assert ((∃ v, v ∈ seen ∧ connected g' v u)
          ↔ (∃ v, v ∈ seen ∧ connected g v u)
            ∨ (Exists (λ v, connected g v s) seen ∧ connected g t u)
            ∨ (Exists (λ v, connected g v t) seen ∧ connected g s u)) as Hold'.
  { setoid_rewrite Hmerge. rewrite !Exists_exists. naive_solver. }
  rewrite Hold' in Ha'. clear Hold'.
  pose proof (both_hit_cases seen) as Hseen.
  pose proof (both_hit_cases (seen ++ [u])) as Hnext.
  rewrite !Exists_snoc in Hnext.
  destruct (decide (connected g u s)) as [Hus|Hus];
    destruct (decide (connected g u t)) as [Hut|Hut].
  - exfalso. apply Hst. apply rtc_trans with u; [by apply Hsym|done].
  - rewrite (old_in_class s seen u Hus) in Ha, Ha'.
    assert (¬ connected g t u) as Htu by (intros ?%Hsym; done).
    assert (connected g s u) as Hsu by (by apply Hsym).
    destruct Ha as [[? ->]|[? ->]], Ha' as [[? ->]|[? ->]],
      Hseen as [(-> & ? & ?)|[-> ?]], Hnext as [(-> & ? & ?)|[-> ?]];
      first [lia|exfalso; tauto].
  - rewrite (old_in_class t seen u Hut) in Ha, Ha'.
    assert (¬ connected g s u) as Hsu by (intros ?%Hsym; done).
    assert (connected g t u) as Htu by (by apply Hsym).
    destruct Ha as [[? ->]|[? ->]], Ha' as [[? ->]|[? ->]],
      Hseen as [(-> & ? & ?)|[-> ?]], Hnext as [(-> & ? & ?)|[-> ?]];
      first [lia|exfalso; tauto].
  - assert (¬ connected g s u) as Hsu by (intros ?%Hsym; done).
    assert (¬ connected g t u) as Htu by (intros ?%Hsym; done).
    destruct Ha as [[? ->]|[? ->]], Ha' as [[? ->]|[? ->]],
      Hseen as [(-> & ? & ?)|[-> ?]], Hnext as [(-> & ? & ?)|[-> ?]];
      first [lia|exfalso; tauto].
Qed.

Lemma sweep_merge l : ∀ seen n n',
  sweep g l seen n → sweep g' l seen n' →
  n + both_hit (λ v, connected g v s) (λ v, connected g v t) seen
  = n' + both_hit (λ v, connected g v s) (λ v, connected g v t) (seen ++ l).
Proof.
  induction l as [|u l IH]; intros seen n n' H1 H2.
  - inversion H1; inversion H2; subst. by rewrite app_nil_r.
  - assert (seen ++ u :: l = (seen ++ [u]) ++ l) as -> by (by rewrite <- app_assoc).
    inversion H1 as [|? ? ? ? Hold1 Hr1|? ? ? m Hnew1 Hr1];
      inversion H2 as [|? ? ? ? Hold2 Hr2|? ? ? m' Hnew2 Hr2]; subst.
    + pose proof (IH _ _ _ Hr1 Hr2).
      pose proof (sweep_merge_step seen u 0 0 ltac:(auto) ltac:(auto)). lia.
    + pose proof (IH _ _ _ Hr1 Hr2).
      pose proof (sweep_merge_step seen u 0 1 ltac:(auto) ltac:(auto)). lia.
    + pose proof (IH _ _ _ Hr1 Hr2).
      pose proof (sweep_merge_step seen u 1 0 ltac:(auto) ltac:(auto)). lia.
    + pose proof (IH _ _ _ Hr1 Hr2).
      pose proof (sweep_merge_step seen u 1 1 ltac:(auto) ltac:(auto)). lia.
Qed.

Lemma sweep_merge_count l n n' :
  s ∈ l → t ∈ l → sweep g l [] n → sweep g' l [] n' → n = n' + 1.
Proof.
  intros Hs Ht H1 H2. pose proof (sweep_merge l [] n n' H1 H2) as Heq.
  simpl in Heq.
  destruct (both_hit_cases []) as [(_ & ?%Exists_nil & _)|[Hnil _]]; [done|].
  destruct (both_hit_cases l) as [(Hl & _)|[_ Hl]].
  - lia.
  - exfalso. apply Hl. rewrite !Exists_exists. split.
    + exists s. split; [done|]. apply rtc_refl.
    + exists t. split; [done|]. apply rtc_refl.
Qed.

End merge_count.

(** ** A new friendship merges two communities *)

Lemma rtc_linked_snoc fs f x y :
  rtc (linked (fs ++ [f])) x y
  ↔ rtc (linked fs) x y
    ∨ (rtc (linked fs) x (Friendship.source f) ∧ rtc (linked fs) (Friendship.target f) y)
    ∨ (rtc (linked fs) x (Friendship.target f) ∧ rtc (linked fs) (Friendship.source f) y).
Proof.
  split.
  - induction 1 as [x|x z y Hxz _ IH]; [left; apply rtc_refl|].
    apply linked_snoc in Hxz as [Hxz|[[<- <-]|[<- <-]]].
    + destruct IH as [IH|[[IH1 IH2]|[IH1 IH2]]].
      * left. by eapply rtc_l.
      * right. left. split; [by eapply rtc_l|done].
      * right. right. split; [by eapply rtc_l|done].
    + destruct IH as [IH|[[IH1 IH2]|[IH1 IH2]]].
      * right. left. split; [apply rtc_refl|done].
      * right. left. split; [apply rtc_refl|done].
      * by left.
    + destruct IH as [IH|[[IH1 IH2]|[IH1 IH2]]].
      * right. right. split; [apply rtc_refl|done].
      * by left.
      * right. right. split; [apply rtc_refl|done].
  - assert (∀ a b, rtc (linked fs) a b → rtc (linked (fs ++ [f])) a b) as Hold.
    { intros a b. apply rtc_subrel. intros ? ?. apply linked_add_edge. }
    intros [H|[[H1 H2]|[H1 H2]]].
    + by apply Hold.
    + apply rtc_trans with (Friendship.source f); [by apply Hold|].
      apply rtc_l with (Friendship.target f); [|by apply Hold].
      apply linked_snoc. right. left. done.
    + apply rtc_trans with (Friendship.target f); [by apply Hold|].
      apply rtc_l with (Friendship.source f); [|by apply Hold].
      apply linked_snoc. right. right. done.
Qed.

(** When [addFriendship(s, t)] returns [true] on data in which every
    friendship joins two listed users, the communities of [s] and of [t]
    become one and the others stay: two ids are in the same community of
    [findCommunities] afterwards exactly when they were before, or one was
    with [s] and the other with [t].  The number of communities does not
    grow. *)
Theorem addFriendship_merges_communities (s t : string) (m : GraphDataManager.t) :
  edges_present (GraphDataManager.users m) (GraphDataManager.friendships m) →
  (GraphDataManager.addFriendship s t m).2 = true →
  let m' := (GraphDataManager.addFriendship s t m).1 in
  ∃ cs cs',
    findCommunities (engine (GraphDataManager.users m)
                            (GraphDataManager.friendships m)) = Normal cs
    ∧ findCommunities (engine (GraphDataManager.users m')
                              (GraphDataManager.friendships m')) = Normal cs'
    ∧ same_community cs' s t
    ∧ (∀ x y, same_community cs' x y
              ↔ same_community cs x y
                ∨ (same_community cs x s ∧ same_community cs t y)
                ∨ (same_community cs x t ∧ same_community cs s y))
    ∧ (same_community cs s t → length cs' = length cs)
    ∧ (¬ same_community cs s t → length cs' + 1 = length cs).
Proof.
  intros Hp Hok m'. subst m'.
  destruct (addFriendship_cases s t m) as [(Hs & Ht & Hst & Hl & He)|[_ He]];
    rewrite He in Hok |- *; [clear Hok; simpl|done].
  rewrite friendships_write_friendships, users_write_friendships.
  set (us := GraphDataManager.users m) in *.
  set (fs := GraphDataManager.friendships m) in *.
  pose proof (edges_present_add us fs s t Hp Hs Ht) as Hp'.
  destruct (findCommunities_engine_spec us fs Hp) as (cs & Hcs & _ & Hsame & Hsw).
  destruct (findCommunities_engine_spec us _ Hp') as (cs' & Hcs' & _ & Hsame' & Hsw').
  exists cs, cs'.
  assert (∀ x y, same_community cs' x y
            ↔ same_community cs x y
              ∨ (same_community cs x s ∧ same_community cs t y)
              ∨ (same_community cs x t ∧ same_community cs s y)) as Hmerge.
  { intros x y. rewrite Hsame', !Hsame, rtc_linked_snoc. simpl. tauto. }
  assert (∀ x y, connected (engine us fs) x y → connected (engine us fs) y x)
    as Hsym.
  { apply connected_sym. intros x y. by apply step_sym. }
  assert (∀ x y, x ∈ ids us → y ∈ ids us →
            same_community cs x y ↔ connected (engine us fs) x y) as Hconn.
  { intros x y Hx Hy. rewrite Hsame, (connected_linked us fs Hp). tauto. }
  split_and!; [done|done| |done| |].
  - apply Hmerge. right. left. rewrite !Hsame. split; split_and!; try done;
      apply rtc_refl.
  - intros Hsame_st. apply Nat.le_antisymm.
    + eapply sweep_mono; [|exact Hsw|exact Hsw'].
      intros x y Hxy. apply connected_linked; [done|].
      apply connected_linked in Hxy; [|done].
      eapply rtc_subrel; [|exact Hxy]. intros ? ?. apply linked_add_edge.
    + eapply sweep_mono; [|exact Hsw'|exact Hsw].
      assert (rtc (linked fs) s t) as Hrst.
      { apply Hsame in Hsame_st. tauto. }
      assert (rtc (linked fs) t s) as Hrts.
      { apply (connected_linked us fs Hp), Hsym, (connected_linked us fs Hp). done. }
      intros x y Hxy. apply connected_linked; [done|].
      apply connected_linked in Hxy; [|done].
      apply rtc_linked_snoc in Hxy as [?|[[H1 H2]|[H1 H2]]]; [done| |]; simpl in *.
      * apply rtc_trans with s; [done|]. by apply rtc_trans with t.
      * apply rtc_trans with t; [done|]. by apply rtc_trans with s.
  - intros Hdiff.
    assert (∀ r, r ∈ ids us → ∀ v, Decision (connected (engine us fs) v r)) as Hdec.
    { intros r Hr v. destruct (decide (same_community cs v r)) as [Hc|Hc].
      - left. apply Hsame in Hc as (Hv & _ & Hc). by apply connected_linked.
      - right. intros Hvr. apply Hc. apply Hconn; [|done|done].
        apply (connected_present us fs Hp r); [done|]. by apply Hsym. }
    symmetry.
    apply (@sweep_merge_count (engine us fs)
             (engine us (fs ++ [Friendship.mk s t])) s t Hsym) with
      (HdecS := Hdec s Hs) (HdecT := Hdec t Ht) (l := ids us); try done.
    + intros x y. rewrite (connected_linked us _ Hp'), !(connected_linked us fs Hp).
      apply rtc_linked_snoc.
    + intros Hst'. apply Hdiff. by apply Hconn.
Qed.

Lemma addFriendship_merges_communities_witness :
  let m := GraphDataManager.constructor
             (Some (GraphData.mk
                      [User.mk "a" "A"; User.mk "b" "B"; User.mk "c" "C"; User.mk "d" "D"]
                      [Friendship.mk "a" "b"; Friendship.mk "c" "d"])) in
  let m' := (GraphDataManager.addFriendship "b" "c" m).1 in
  (edges_present (GraphDataManager.users m) (GraphDataManager.friendships m)
   ∧ (GraphDataManager.addFriendship "b" "c" m).2 = true)
  ∧ ∃ cs cs',
      findCommunities (engine (GraphDataManager.users m)
                              (GraphDataManager.friendships m)) = Normal cs
      ∧ findCommunities (engine (GraphDataManager.users m')
                                (GraphDataManager.friendships m')) = Normal cs'
      ∧ same_community cs' "b" "c"
      ∧ (∀ x y, same_community cs' x y
                ↔ same_community cs x y
                  ∨ (same_community cs x "b" ∧ same_community cs "c" y)
                  ∨ (same_community cs x "c" ∧ same_community cs "b" y))
      ∧ (same_community cs "b" "c" → length cs' = length cs)
      ∧ (¬ same_community cs "b" "c" → length cs' + 1 = length cs).
Proof.
  intros m m'.
  assert (Hp : edges_present (GraphDataManager.users m) (GraphDataManager.friendships m)).
  { apply (bool_decide_unpack _). vm_compute. exact I. }
  assert (Hok : (GraphDataManager.addFriendship "b" "c" m).2 = true).
  { vm_compute. reflexivity. }
  split; [split; [exact Hp|exact Hok]|].
  exact (addFriendship_merges_communities "b" "c" m Hp Hok).
Defined.

(** ** reset after the data was loaded *)

(** Edits of data held in arrays of its own leave the arrays of
    [initialData] alone. *)
Lemma apply_edit_own (e : GraphDataManager.edit) (m : GraphDataManager.t) :
  (∃ l, GraphDataManager.data_users m = GraphDataManager.Own l) →
  (∃ l, GraphDataManager.data_friendships m = GraphDataManager.Own l) →
  (∃ l, GraphDataManager.data_users (GraphDataManager.apply_edit m e)
        = GraphDataManager.Own l)
  ∧ (∃ l, GraphDataManager.data_friendships (GraphDataManager.apply_edit m e)
          = GraphDataManager.Own l)
  ∧ GraphDataManager.initial_users (GraphDataManager.apply_edit m e)
    = GraphDataManager.initial_users m
  ∧ GraphDataManager.initial_friendships (GraphDataManager.apply_edit m e)
    = GraphDataManager.initial_friendships m.
Proof.
  destruct m as [iu ifs du df]. simpl. intros [lu ->] [lf ->].
  destruct e as [now name|u|u name|s t|s t]; simpl.
  - unfold GraphDataManager.addUser. simpl. split_and!; eauto.
  - unfold GraphDataManager.removeUser. simpl.
    destruct (list_find _ _) as [[i user]|]; simpl; split_and!; eauto.
  - unfold GraphDataManager.updateUser. simpl.
    destruct (list_find _ _) as [[i user]|]; simpl; split_and!; eauto.
  - unfold GraphDataManager.addFriendship. simpl.
    destruct (negb _ || negb _ || _); simpl; [split_and!; eauto|].
    destruct (bool_decide _); simpl; split_and!; eauto.
  - unfold GraphDataManager.removeFriendship. simpl.
    destruct (bool_decide _); simpl; split_and!; eauto.
Qed.

Lemma run_own (es : list GraphDataManager.edit) : ∀ m,
  (∃ l, GraphDataManager.data_users m = GraphDataManager.Own l) →
  (∃ l, GraphDataManager.data_friendships m = GraphDataManager.Own l) →
  GraphDataManager.initial_users (GraphDataManager.run es m)
  = GraphDataManager.initial_users m
  ∧ GraphDataManager.initial_friendships (GraphDataManager.run es m)
    = GraphDataManager.initial_friendships m.
Proof.
  unfold GraphDataManager.run.
  induction es as [|e es IH]; intros m Hu Hf; simpl; [done|].
  destruct (apply_edit_own e m Hu Hf) as (Hu' & Hf' & <- & <-). by apply IH.
Qed.

(** [reset] restores the sample data in a manager whose constructor found
    stored data: [this.data] then holds the arrays that [JSON.parse] built,
    no sequence of [addUser], [removeUser], [updateUser], [addFriendship]
    and [removeFriendship] calls touches the arrays of [initialData], and a
    [reset] that follows yields the six users and five friendships of the
    sample. *)
Theorem reset_after_loaded_data (data : GraphData.t)
    (es : list GraphDataManager.edit) :
  let loaded := GraphDataManager.run es (GraphDataManager.constructor (Some data)) in
  GraphDataManager.users (GraphDataManager.reset loaded)
  = GraphData.users initialData
  ∧ GraphDataManager.friendships (GraphDataManager.reset loaded)
    = GraphData.friendships initialData
  ∧ GraphDataManager.initial_users loaded = GraphData.users initialData
  ∧ GraphDataManager.initial_friendships loaded = GraphData.friendships initialData.
Proof.
  intros loaded.
  destruct (run_own es (GraphDataManager.constructor (Some data))) as [Hu Hf];
    [simpl; eauto..|].
  split_and!; [exact Hu|exact Hf|exact Hu|exact Hf].
Qed.

(** * Queries that agree *)

(** ** Communities and paths *)

Lemma reachable_rtc us fs x y :
  edges_present us fs → x ∈ ids us → y ∈ ids us →
  reachable us fs x y ↔ rtc (linked fs) x y.
Proof.
  intros Hp Hx Hy. rewrite <- (connected_linked us fs Hp). unfold connected. split.
  - intros (n & Hn)%reachable_nsteps. by eapply rtc_nsteps_2.
  - intros (n & Hn)%rtc_nsteps_1. by eapply nsteps_reachable.
Qed.

(** When every friendship joins two listed users, two listed users are in
    the same community, for [findCommunities] and for
    [findCommunitiesUnionFind], exactly when [findShortestPath] finds a path
    between them. *)
Theorem same_community_iff_path us fs (x y : string) :
  edges_present us fs → x ∈ ids us → y ∈ ids us →
  ∃ cs cs' r,
    findCommunities (engine us fs) = Normal cs
    ∧ findCommunitiesUnionFind (engine us fs) = Normal cs'
    ∧ findShortestPath (engine us fs) x y = Normal r
    ∧ (same_community cs x y ↔ is_Some r)
    ∧ (same_community cs' x y ↔ is_Some r).
Proof.
  intros Hp Hx Hy.
  destruct (findCommunities_engine_spec us fs Hp) as (cs & He & _ & Hsame & _).
  destruct (findCommunitiesUnionFind_spec us fs Hp) as (cs' & He' & _ & Hsame').
  assert (∃ r, findShortestPath (engine us fs) x y = Normal r
               ∧ (is_Some r ↔ reachable us fs x y)) as (r & Hr & Hreach).
  { destruct (decide (x = y)) as [->|Hxy].
    - unfold findShortestPath. rewrite decide_True by done.
      eexists. split; [done|]. split; [intros _|by eauto].
      exists [y]. split_and!; [done|done| |done]. by apply Forall_singleton.
    - pose proof (findShortestPath_engine_post us fs x y Hxy) as Hpost.
      destruct (findShortestPath (engine us fs) x y) as [[r|]| |] eqn:E;
        simpl in Hpost; try done.
      + eexists. split; [done|]. split; [intros _|by eauto].
        destruct Hpost as (p & Hh & Hl & Hc & _).
        apply (nsteps_reachable us fs (pred (length p))); [|done].
        by apply chain_nsteps.
      + eexists. split; [done|]. split; [by intros [? ?]|].
        intros (n & Hn)%reachable_nsteps. by destruct (Hpost n). }
  exists cs, cs', r. split_and!; [done..| |].
  - rewrite Hsame, Hreach, (reachable_rtc us fs x y Hp Hx Hy). tauto.
  - rewrite Hsame', Hreach, (reachable_rtc us fs x y Hp Hx Hy). tauto.
Qed.

Lemma same_community_iff_path_witness :
  let us := [User.mk "a" "A"; User.mk "b" "B"; User.mk "c" "C"] in
  let fs := [Friendship.mk "a" "b"] in
  (edges_present us fs ∧ "a" ∈ ids us ∧ "c" ∈ ids us)
  ∧ ∃ cs cs' r,
      findCommunities (engine us fs) = Normal cs
      ∧ findCommunitiesUnionFind (engine us fs) = Normal cs'
      ∧ findShortestPath (engine us fs) "a" "c" = Normal r
      ∧ (same_community cs "a" "c" ↔ is_Some r)
      ∧ (same_community cs' "a" "c" ↔ is_Some r).
Proof.
  intros us fs.
  assert (Hp : edges_present us fs).
  { apply (bool_decide_unpack _). vm_compute. exact I. }
  assert (Ha : "a" ∈ ids us).
  { apply (bool_decide_unpack _). vm_compute. exact I. }
  assert (Hc : "c" ∈ ids us).
  { apply (bool_decide_unpack _). vm_compute. exact I. }
  split; [split_and!; [exact Hp|exact Ha|exact Hc]|].
  exact (same_community_iff_path us fs "a" "c" Hp Ha Hc).
Defined.

(** ** Suggestions and distance *)

Lemma path_in_three us fs a c p :
  path_in us fs a c p → length p = 3 →
  ∃ f, p = [a; f; c] ∧ f ∈ ids us ∧ a ∈ ids us ∧ c ∈ ids us
       ∧ linked fs a f ∧ linked fs f c.
Proof.
  intros (Hh & Hl & Hall & Hc) Hlen.
  destruct p as [|x [|f [|y [|? ?]]]]; try done.
  simpl in Hh, Hl, Hc. injection Hh as ->. injection Hl as ->.
  destruct Hc as (Haf & Hfc & _).
  apply Forall_cons in Hall as [Ha Hall]. apply Forall_cons in Hall as [Hf Hall].
  apply Forall_cons in Hall as [Hc _]. by exists f.
Qed.

(** The suggestions are the users at distance two.  When every friendship
    joins two listed users and no id is the empty string, [findMutualFriends(a)]
    suggests [c] exactly when [findShortestPath(a, c)] returns a path of
    distance 2. *)
Theorem suggestions_at_distance_two us fs (a : string) :
  edges_present us fs →
  (∀ x, x ∈ ids us → x ≠ EmptyString) →
  ∃ l, findMutualFriends (engine us fs) a = Normal l
       ∧ ∀ c, (∃ s, s ∈ l ∧ Suggestion.userId s = c)
              ↔ ∃ r, findShortestPath (engine us fs) a c = Normal (Some r)
                     ∧ PathResult.distance r = 2%Z.
Proof.
  intros Hp Hids. eexists. split; [done|]. intros c.
  set (g := engine us fs).
  split.
  - intros (s & Hs & <-). rewrite js_sort_perm in Hs.
    apply elem_of_suggest_loop in Hs
      as [?%elem_of_nil|(user & Hin & Hne & Hnadj & Hmut & ->)]; [done|].
    simpl in *. fold g in Hnadj, Hmut.
    destruct (filter _ (neighbors g a)) as [|f rest] eqn:E; [done|].
    assert (f ∈ neighbors g a ∧ f ∈ neighbors g (User.id user)) as [Hfa Hfc].
    { assert (f ∈ filter (λ friend, friend ∈ neighbors g (User.id user))
                         (neighbors g a)) as Hf by (rewrite E; by left).
      apply list_elem_of_filter in Hf. tauto. }
    apply elem_of_neighbors in Hfa as [Ha Haf].
    apply elem_of_neighbors in Hfc as [Hc Hcf].
    destruct (linked_present us fs a f Hp Haf) as [_ Hf].
    assert (path_in us fs a (User.id user) [a; f; User.id user]) as Hpath.
    { split_and!; [done|done| |].
      - by repeat constructor.
      - simpl. split_and!; [done|by apply linked_sym|done]. }
    destruct (findShortestPath_shortest us fs a (User.id user) Hids)
      as (r & He & Hr & Hd & Hmin); [done|by eexists|].
    exists r. split; [done|]. specialize (Hmin _ Hpath). simpl in Hmin.
    destruct Hr as (Hh & Hl & Hall & Hc').
    destruct (PathResult.path r) as [|x [|y [|z q]]] eqn:Ep; simpl in *.
    + done.
    + injection Hh as ->. injection Hl as ->. done.
    + injection Hh as ->. injection Hl as ->. destruct Hc' as [Hl _].
      exfalso. apply Hnadj. by apply elem_of_neighbors.
    + lia.
  - intros (r & He & Hd).
    assert (a ≠ c) as Hac.
    { intros ->. unfold findShortestPath in He. rewrite decide_True in He by done.
      injection He as <-. done. }
    assert (reachable us fs a c) as Hreach.
    { pose proof (findShortestPath_engine_post us fs a c Hac) as Hpost.
      fold g in Hpost. rewrite He in Hpost. simpl in Hpost.
      destruct Hpost as (p & Hh & Hl & Hc & _).
      pose proof (chain_nsteps _ p a c Hc Hh Hl) as Hn.
      apply (nsteps_reachable us fs _ a c Hn).
      destruct (pred (length p)) as [|n]; [by inversion Hn|].
      apply nsteps_inv_r in Hn as (y & _ & [Hy Hyc]%step_engine).
      by destruct (linked_present us fs y c Hp Hyc). }
    destruct (findShortestPath_shortest us fs a c Hids Hac Hreach)
      as (r' & He' & Hr & Hd' & Hmin).
    fold g in He'. rewrite He in He'. injection He' as <-.
    destruct (path_in_three us fs a c _ Hr) as (f & Hp3 & Hf & Ha & Hc & Haf & Hfc);
      [lia|].
    apply list_elem_of_fmap in Hc as (user & -> & Huser).
    set (mutual := filter (λ friend, friend ∈ neighbors (engine us fs) (User.id user))
                          (neighbors (engine us fs) a)).
    exists (Suggestion.mk (User.id user) (length mutual) mutual).
    split; [|reflexivity].
    rewrite js_sort_perm. apply elem_of_suggest_loop. right.
    exists user. split_and!; [done|by intros <-| |].
    + intros Hadj. apply elem_of_neighbors in Hadj as [_ Hl].
      assert (path_in us fs a (User.id user) [a; User.id user]) as Hshort.
      { split_and!; [done|done| |by simpl].
        repeat constructor; [done|]. apply list_elem_of_fmap. eauto. }
      specialize (Hmin _ Hshort). rewrite Hp3 in Hmin. simpl in Hmin. lia.
    + simpl. split; [|done]. intros Hnil. change (mutual = []) in Hnil.
      assert (f ∈ mutual) as Hin.
      { apply list_elem_of_filter. rewrite !elem_of_neighbors.
        split_and!; [apply list_elem_of_fmap; eauto|by apply linked_sym|done|done]. }
      rewrite Hnil in Hin. by apply elem_of_nil in Hin.
Qed.

Lemma suggestions_at_distance_two_witness :
  let us := [User.mk "1" "Alice"; User.mk "2" "Bob"; User.mk "3" "Charlie";
             User.mk "4" "Diana"] in
  let fs := [Friendship.mk "1" "2"; Friendship.mk "2" "3"; Friendship.mk "3" "4"] in
  (edges_present us fs ∧ ∀ x, x ∈ ids us → x ≠ EmptyString)
  ∧ ∃ l, findMutualFriends (engine us fs) "2" = Normal l
         ∧ ∀ c, (∃ s, s ∈ l ∧ Suggestion.userId s = c)
                ↔ ∃ r, findShortestPath (engine us fs) "2" c = Normal (Some r)
                       ∧ PathResult.distance r = 2%Z.
Proof.
  intros us fs.
  assert (Hp : edges_present us fs).
  { apply (bool_decide_unpack _). vm_compute. exact I. }
  assert (Hids : ∀ x, x ∈ ids us → x ≠ EmptyString).
  { intros x Hx ->. revert Hx. apply (bool_decide_unpack _). vm_compute. exact I. }
  split; [split; [exact Hp|exact Hids]|].
  exact (suggestions_at_distance_two us fs "2" Hp Hids).
Defined.
